(** * Timing-point generation (Mode A) of CompanellaTools/bpm.py

    A shallow embedding of the grid-reconciliation core of [bpm.py]:
    the onset matcher [find_nearest_onset], the slope estimator
    [robust_slope_s_per_beat], the phase selector [choose_best_phase] and
    the simulation loop of [analyze_mode_a].

    Number model.  Python [int] is [Z].  Python [float] is read as an
    exact rational ([Q]): every arithmetic operation is the exact one, so
    rounding is outside that reading.  The only not-a-number value
    the core can produce from finite inputs, the median of an empty
    array, is kept explicit as [None].  Equality of floats is [Qeq]
    ([==]); values that the code merely passes around (a matched onset,
    the bpm written into a timing point) are compared with [=].

    Two functions are also given over IEEE 754 binary64, the numbers the
    program computes with: the onset matcher ([Matcher64]) and the slope
    estimator ([Estimator64]).  What they return can differ from the
    exact reading by more than an error in the last place (an index, a
    slope off by some percent), so the properties whose answer depends on
    rounding are settled on them.

    The audio front end (decoding, onset envelope, onset picking, tempo
    and anchor seeding through librosa) is an external collaborator: the
    embedding starts from its results, the sorted onset array, the seed
    bpm, the seed anchor and the duration. *)

From Stdlib Require Import QArith Qabs Qround Lqa Lia ZArith List Bool Sorted.
From Stdlib Require Import PrimFloat Uint63.
Import ListNotations.

Open Scope Q_scope.

(** ** Floats and arrays *)

(** [x <= y] and [x < y] on floats, as the boolean tests of the code. *)
Definition fle (x y : Q) : bool := Qle_bool x y.
Definition flt (x y : Q) : bool := negb (Qle_bool y x).

(** [len(a)] as a Python int. *)
Definition len {A : Type} (a : list A) : Z := Z.of_nat (length a).

(** [a[j]] for an index the code has checked to lie in [0 <= j < len(a)]. *)
Definition get (a : list Q) (j : Z) : Q := nth (Z.to_nat j) a 0.

(** ** Onset matcher: [find_nearest_onset] (bpm.py 142-167) *)

Module Matcher.

(** The scan [while i + 1 < n and onset_times[i] < t - window_s: i += 1].
    Each turn increases [i] and needs [i + 1 < n], so [len(onset_times)]
    turns are enough ([advance_hint_spec] below shows the exit test is
    reached). *)
Fixpoint advance_hint (onset_times : list Q) (t window_s : Q)
    (fuel : nat) (i : Z) : Z :=
  match fuel with
  | O => i
  | S fuel' =>
      if (i + 1 <? len onset_times)%Z
         && flt (get onset_times i) (t - window_s)
      then advance_hint onset_times t window_s fuel' (i + 1)
      else i
  end.

(** One turn of [for j in (i - 1, i, i + 1, i + 2)]: the pair [(dt, j)]
    appended to [candidates], if any. *)
Definition candidate (onset_times : list Q) (t window_s : Q) (j : Z)
    : list (Q * Z) :=
  if (0 <=? j)%Z && (j <? len onset_times)%Z then
    let dt := Qabs (get onset_times j - t) in
    if fle dt window_s then [(dt, j)] else []
  else [].

Definition candidates (onset_times : list Q) (t window_s : Q) (i : Z)
    : list (Q * Z) :=
  flat_map (candidate onset_times t window_s)
    [(i - 1)%Z; i; (i + 1)%Z; (i + 2)%Z].

(** [min(candidates, key=lambda x: x[0])] on a non-empty list
    [best :: rest]: Python keeps the first item whose key is minimal, so
    a later item replaces the current one only with a strictly smaller
    key. *)
Fixpoint min_by_dt (best : Q * Z) (rest : list (Q * Z)) : Q * Z :=
  match rest with
  | [] => best
  | c :: rest' =>
      min_by_dt (if flt (fst c) (fst best) then c else best) rest'
  end.

(** Returns [(matched_time or None, new_idx_hint)]. *)
Definition find_nearest_onset (onset_times : list Q) (idx_hint : Z)
    (t window_s : Q) : option Q * Z :=
  let n := len onset_times in
  if (n =? 0)%Z then (None, idx_hint)
  else
    let i :=
      advance_hint onset_times t window_s (length onset_times)
        (Z.max 0 idx_hint) in
    match candidates onset_times t window_s i with
    | [] => (None, i)
    | c :: cs =>
        let best_j := snd (min_by_dt c cs) in
        (Some (get onset_times best_j), best_j)
    end.

(** A call of the matcher inside a scan: the hint passed in, the query
    time, what was returned. *)
Record call : Type := mk_call {
  hint_in : Z;
  query : Q;
  matched : option Q;
  hint_out : Z
}.

(** The matcher used over a sequence of query times, the hint threaded
    from call to call (as both loops of the program do, starting at 0). *)
Fixpoint scan (onset_times : list Q) (window_s : Q) (idx_hint : Z)
    (ts : list Q) : list call :=
  match ts with
  | [] => []
  | t :: ts' =>
      let '(m, h) := find_nearest_onset onset_times idx_hint t window_s in
      mk_call idx_hint t m h :: scan onset_times window_s h ts'
  end.

(** The index the scan stops at in a call with hint [h] at time [t]. *)
Definition scan_stop (onset_times : list Q) (window_s : Q) (h : Z) (t : Q)
    : Z :=
  advance_hint onset_times t window_s (length onset_times) (Z.max 0 h).

(** [o] lies within the tolerance window around [t]. *)
Definition in_window (t window_s o : Q) : Prop := Qabs (o - t) <= window_s.

(** What a scan over increasing query times keeps true of the hint [h]
    it is about to pass at time [t]: it is an index of the array, and the
    onset just below it is either left of the window already or strictly
    farther from [t] than the onset at [h], which is not right of the
    window. *)
Definition hint_ok (onset_times : list Q) (window_s : Q) (h : Z) (t : Q)
    : Prop :=
  (0 <= h)%Z
  /\ (len onset_times = 0%Z \/ (h < len onset_times)%Z)
  /\ ((1 <= h)%Z ->
      get onset_times (h - 1) < t - window_s
      \/ (get onset_times (h - 1) < get onset_times h
          /\ get onset_times (h - 1) + get onset_times h < 2 * t
          /\ get onset_times h <= t + window_s)).

(** At most two onsets lie in [[t - window_s, t)]: of any three onsets
    in array order, if the first is not left of the window then the
    third is not before [t]. *)
Definition at_most_two_before (onset_times : list Q) (window_s t : Q)
    : Prop :=
  forall k, (0 <= k)%Z -> (k + 2 < len onset_times)%Z ->
    t - window_s <= get onset_times k -> t <= get onset_times (k + 2).

(** The matcher as a brute-force search would answer: over a scan from
    hint 0, every call returns [None] exactly when no onset lies within
    the window, and otherwise an onset within the window that no onset of
    the array beats in distance to the query time. *)
Definition nearest_of_all (onset_times : list Q) (window_s : Q)
    (ts : list Q) : Prop :=
  forall c, In c (scan onset_times window_s 0 ts) ->
    (matched c = None <->
     forall x, In x onset_times -> ~ in_window (query c) window_s x)
    /\ (forall x, matched c = Some x ->
        In x onset_times /\ in_window (query c) window_s x
        /\ forall y, In y onset_times ->
             Qabs (x - query c) <= Qabs (y - query c)).

End Matcher.

(** ** Slope estimator: [robust_slope_s_per_beat] (bpm.py 170-184) *)

Module Estimator.

Fixpoint insert_sorted (x : Q) (s : list Q) : list Q :=
  match s with
  | [] => [x]
  | y :: s' => if fle x y then x :: s else y :: insert_sorted x s'
  end.

Definition sort_floats (a : list Q) : list Q := fold_right insert_sorted [] a.

(** [np.median(a)]: the middle element of the sorted array, or the mean
    of the two middle ones.  [None] is the [nan] numpy returns for an
    empty array. *)
Definition np_median (a : list Q) : option Q :=
  match a with
  | [] => None
  | _ :: _ =>
      let s := sort_floats a in
      let n := length a in
      if Nat.even n
      then Some ((nth (n / 2 - 1) s 0 + nth (n / 2) s 0) / 2)
      else Some (nth (n / 2) s 0)
  end.

(** [a - np.median(a)]; an empty array stays empty. *)
Definition centre (a : list Q) : list Q :=
  match np_median a with
  | Some m => map (fun v => v - m) a
  | None => []
  end.

(** [np.dot] of two one-dimensional arrays.  The program only calls it
    on the two deques, which always have one length; numpy raises on a
    length mismatch, which is not modelled. *)
Definition dot (u v : list Q) : Q :=
  fold_right Qplus 0 (map (fun p => fst p * snd p) (combine u v)).

Definition robust_slope_s_per_beat (beat_indices : list Z)
    (errors_s : list Q) : Q :=
  let x := map inject_Z beat_indices in
  let y := errors_s in
  if (len x <? 6)%Z then 0
  else
    let x0 := centre x in
    let y0 := centre y in
    let denom := dot x0 x0 in
    if fle denom 1e-12 then 0 else dot x0 y0 / denom.

(** The error [e] measured at beat index [i] lies on the line
    [a + b * i]. *)
Definition on_line (a b : Q) (i : Z) (e : Q) : Prop :=
  e == a + b * inject_Z i.

End Estimator.

(** ** Phase selector: [choose_best_phase] (bpm.py 187-236) *)

Module Phase.
Import Matcher Estimator.

(** Python's [max(a, b)] on floats: [b] only when it is greater. *)
Definition fmax (a b : Q) : Q := if flt a b then b else a.

(** A float or [float("inf")]. *)
Inductive xfloat : Type :=
  | Fin (q : Q)
  | Inf.

(** [x < y] for a finite [x]. *)
Definition lt_x (x : Q) (y : xfloat) : bool :=
  match y with
  | Fin q => flt x q
  | Inf => true
  end.

Definition xlt (x y : xfloat) : bool :=
  match x with
  | Fin q => lt_x q y
  | Inf => false
  end.

(** The grid walk [while t <= cand_t0 + search_seconds] of one candidate
    anchor; returns [(errs, matches)].  [None]: out of fuel. *)
Fixpoint phase_beats (fuel : nat) (ot : list Q)
    (cand_t0 interval match_window_s search_seconds : Q)
    (onset_idx_hint beat_idx : Z) (t : Q) (errs : list Q) (matches : Z)
    : option (list Q * Z) :=
  match fuel with
  | O => None
  | S fuel' =>
      if fle t (cand_t0 + search_seconds) then
        let '(m, onset_idx_hint') :=
          find_nearest_onset ot onset_idx_hint t match_window_s in
        let '(matches', errs') :=
          match m with
          | Some v => ((matches + 1)%Z, errs ++ [v - t])
          | None => (matches, errs)
          end in
        let beat_idx' := (beat_idx + 1)%Z in
        phase_beats fuel' ot cand_t0 interval match_window_s search_seconds
          onset_idx_hint' beat_idx'
          (cand_t0 + inject_Z beat_idx' * interval) errs' matches'
      else Some (errs, matches)
  end.

(** The running best of the [for k in range(phase_divisions)] loop. *)
Record best : Type := mk_best {
  best_t0 : Q;
  best_matches : Z;
  best_med_abs_err : xfloat
}.

(** One turn of the [for k] loop. *)
Definition phase_candidate (fuel : nat) (ot : list Q)
    (t0 interval match_window_s search_seconds : Q) (phase_divisions : Z)
    (b : best) (k : Z) : option best :=
  let cand_t0 := t0 + (inject_Z k / inject_Z phase_divisions) * interval in
  match phase_beats fuel ot cand_t0 interval match_window_s search_seconds
          0 0 cand_t0 [] 0 with
  | None => None
  | Some (errs, matches) =>
      if (matches =? 0)%Z then Some b
      else
        let med_abs_err :=
          match np_median (map Qabs errs) with
          | Some m => Fin m
          | None => Inf
          end in
        if (best_matches b <? matches)%Z
           || ((matches =? best_matches b)%Z
               && xlt med_abs_err (best_med_abs_err b))
        then Some (mk_best cand_t0 matches med_abs_err)
        else Some b
  end.

Fixpoint phase_loop (fuel : nat) (ot : list Q)
    (t0 interval match_window_s search_seconds : Q) (phase_divisions : Z)
    (b : best) (ks : list Z) : option best :=
  match ks with
  | [] => Some b
  | k :: ks' =>
      match phase_candidate fuel ot t0 interval match_window_s
              search_seconds phase_divisions b k with
      | None => None
      | Some b' =>
          phase_loop fuel ot t0 interval match_window_s search_seconds
            phase_divisions b' ks'
      end
  end.

(** [range(n)]. *)
Definition range (n : Z) : list Z := map Z.of_nat (seq 0 (Z.to_nat n)).

Definition choose_best_phase (fuel : nat) (t0 interval : Q)
    (onset_times : list Q) (match_window_s search_seconds : Q)
    (phase_divisions : Z) : option Q :=
  if (len onset_times =? 0)%Z || fle interval 1e-6 then Some t0
  else
    let phase_divisions := Z.max 1 phase_divisions in
    let search_seconds := fmax 3 search_seconds in
    let end_t := t0 + search_seconds in
    let ot :=
      filter (fun o => fle (fmax 0 (t0 - 0.5)) o && fle o (end_t + 0.5))
        onset_times in
    if (len ot =? 0)%Z then Some t0
    else
      option_map best_t0
        (phase_loop fuel ot t0 interval match_window_s search_seconds
           phase_divisions (mk_best t0 (-1) Inf) (range phase_divisions)).

End Phase.

(** ** The core of [analyze_mode_a] (bpm.py 280-387) *)

Module Core.
Import Matcher Estimator Phase.

(** The tuning parameters of [analyze_mode_a]. *)
Record config : Type := mk_config {
  match_window_ms : Q;
  decision_window : Z;
  min_matches : Z;
  persist : Z;
  offset_threshold_ms : Q;
  drift_slope_ms_per_beat : Q;
  bpm_min_change : Q;
  phase_divisions : Z;
  phase_search_seconds : Q;
  min_gap_ms : Q;
  max_points : Z
}.

(** The local variables of the simulation loop. *)
Record state : Type := mk_state {
  bpm : Q;
  interval : Q;
  t0 : Q;
  points : list (Q * Q);
  last_point_time : Q;
  err_q : list Q;
  idx_q : list Z;
  onset_idx_hint : Z;
  eval_streak_offset : Z;
  eval_streak_drift : Z;
  beat_idx : Z;
  t : Q
}.

(** [np.isfinite]: every rational is finite. *)
Definition isfinite (x : Q) : bool := true.

(** [maxlen] of both deques: [max(8, int(decision_window))]. *)
Definition maxlen (cfg : config) : Z := Z.max 8 (decision_window cfg).

(** [q.append(x)] on a [deque(maxlen=m)]: the item goes to the right end
    and, when that makes the deque longer than [m], the leftmost item is
    dropped. *)
Definition deque_append {A : Type} (m : Z) (q : list A) (x : A) : list A :=
  let q' := q ++ [x] in
  if (m <? len q')%Z then tl q' else q'.

Definition window_s (cfg : config) : Q := match_window_ms cfg / 1000.

(** Lines 327-332: query the matcher and push a match to both deques. *)
Definition match_beat (cfg : config) (onset_times : list Q) (s : state)
    : option Q * state :=
  let '(matched, hint') :=
    find_nearest_onset onset_times (onset_idx_hint s) (t s) (window_s cfg) in
  let '(err_q', idx_q') :=
    match matched with
    | Some m =>
        (deque_append (maxlen cfg) (err_q s) (m - t s),
         deque_append (maxlen cfg) (idx_q s) (beat_idx s))
    | None => (err_q s, idx_q s)
    end in
  (matched,
   mk_state (bpm s) (interval s) (t0 s) (points s) (last_point_time s)
     err_q' idx_q' hint' (eval_streak_offset s) (eval_streak_drift s)
     (beat_idx s) (t s)).

(** Line 334: the classifier runs on this beat. *)
Definition evaluates (cfg : config) (s : state) : bool :=
  (min_matches cfg <=? len (err_q s))%Z.

(** Lines 338-339; [None] is [nan]. *)
Definition med_e (s : state) : option Q := np_median (err_q s).
Definition slope (s : state) : Q :=
  robust_slope_s_per_beat (idx_q s) (err_q s).

(** Lines 341-347.  A comparison with [nan] is false. *)
Definition is_drift (cfg : config) (s : state) : bool :=
  fle (drift_slope_ms_per_beat cfg) (Qabs (slope s * 1000)).

Definition is_jump (cfg : config) (s : state) : bool :=
  match med_e s with
  | Some m => fle (offset_threshold_ms cfg) (Qabs (m * 1000))
  | None => false
  end
  && flt (Qabs (slope s * 1000)) (drift_slope_ms_per_beat cfg * 0.6).

(** Lines 349-350: the two persistence counters after this evaluation. *)
Definition streak_drift' (cfg : config) (s : state) : Z :=
  if is_drift cfg s then (eval_streak_drift s + 1)%Z else 0%Z.

Definition streak_offset' (cfg : config) (s : state) : Z :=
  if is_jump cfg s then (eval_streak_offset s + 1)%Z else 0%Z.

Definition classify (cfg : config) (s : state) : state :=
  mk_state (bpm s) (interval s) (t0 s) (points s) (last_point_time s)
    (err_q s) (idx_q s) (onset_idx_hint s)
    (streak_offset' cfg s) (streak_drift' cfg s) (beat_idx s) (t s).

(** [anchor_time = matched if matched is not None else (t + med_e)],
    written out at lines 357 and 372; [None] is [nan]. *)
Definition anchor_time (matched : option Q) (s : state) : option Q :=
  match matched with
  | Some m => Some m
  | None => option_map (fun e => t s + e) (med_e s)
  end.

(** The anti-spam test
    [(anchor_time - last_point_time) * 1000.0 >= min_gap_ms],
    written out at lines 358 and 373. *)
Definition gap_ok (cfg : config) (anchor : option Q) (s : state) : bool :=
  match anchor with
  | Some a => fle (min_gap_ms cfg) ((a - last_point_time s) * 1000)
  | None => false
  end.

(** Lines 353-354. *)
Definition new_bpm (s : state) : Q :=
  let new_interval := interval s + slope s in
  if flt 1e-4 new_interval then 60 / new_interval else bpm s.

(** Lines 359-369: commit a tempo change at [a]. *)
Definition emit_drift (a : Q) (s : state) : state :=
  let bpm' := new_bpm s in
  let interval' := 60 / bpm' in
  mk_state bpm' interval' (a - inject_Z (beat_idx s) * interval')
    (points s ++ [(a, bpm')]) a [] [] (onset_idx_hint s) 0 0
    (beat_idx s) (t s).

(** Lines 374-382: commit a phase reset at [a]. *)
Definition emit_jump (a : Q) (s : state) : state :=
  mk_state (bpm s) (interval s) (a - inject_Z (beat_idx s) * interval s)
    (points s ++ [(a, bpm s)]) a [] [] (onset_idx_hint s) 0 0
    (beat_idx s) (t s).

(** Lines 352-382, on the state after [classify]. *)
Definition act (cfg : config) (matched : option Q) (s : state) : state :=
  if (persist cfg <=? eval_streak_drift s)%Z then
    if isfinite (new_bpm s)
       && fle (bpm_min_change cfg) (Qabs (new_bpm s - bpm s))
    then
      match anchor_time matched s with
      | Some a => if gap_ok cfg (Some a) s then emit_drift a s else s
      | None => s
      end
    else s
  else if (persist cfg <=? eval_streak_offset s)%Z then
    match anchor_time matched s with
    | Some a => if gap_ok cfg (Some a) s then emit_jump a s else s
    | None => s
    end
  else s.

(** Lines 384-385. *)
Definition next_beat (s : state) : state :=
  let beat_idx' := (beat_idx s + 1)%Z in
  mk_state (bpm s) (interval s) (t0 s) (points s) (last_point_time s)
    (err_q s) (idx_q s) (onset_idx_hint s)
    (eval_streak_offset s) (eval_streak_drift s)
    beat_idx' (t0 s + inject_Z beat_idx' * interval s).

(** One turn of the main loop (lines 327-385). *)
Definition loop_body (cfg : config) (onset_times : list Q) (s : state)
    : state :=
  let '(matched, s1) := match_beat cfg onset_times s in
  next_beat
    (if evaluates cfg s1 then act cfg matched (classify cfg s1) else s1).

(** Line 326: [t <= duration and len(points) < max_points]. *)
Definition loop_cond (cfg : config) (duration : Q) (s : state) : bool :=
  fle (t s) duration && (len (points s) <? max_points cfg)%Z.

(** The main loop; [None]: out of fuel. *)
Fixpoint run_loop (fuel : nat) (cfg : config) (onset_times : list Q)
    (duration : Q) (s : state) : option state :=
  match fuel with
  | O => None
  | S fuel' =>
      if loop_cond cfg duration s
      then run_loop fuel' cfg onset_times duration
             (loop_body cfg onset_times s)
      else Some s
  end.

(** Lines 322-324: skip the beats before time 0. *)
Fixpoint skip_negative (fuel : nat) (t0 interval : Q) (beat_idx : Z) (t : Q)
    : option (Z * Q) :=
  match fuel with
  | O => None
  | S fuel' =>
      if flt t 0 then
        let beat_idx' := (beat_idx + 1)%Z in
        skip_negative fuel' t0 interval beat_idx'
          (t0 + inject_Z beat_idx' * interval)
      else Some (beat_idx, t)
  end.

(** [np.argmin]: the first index of the minimum. *)
Fixpoint argmin_from (best_j : Z) (best : Q) (j : Z) (rest : list Q) : Z :=
  match rest with
  | [] => best_j
  | v :: rest' =>
      if flt v best then argmin_from j v (j + 1) rest'
      else argmin_from best_j best (j + 1) rest'
  end.

Definition np_argmin (a : list Q) : Z :=
  match a with
  | [] => 0%Z
  | v :: rest => argmin_from 0 v 1 rest
  end.

(** Lines 281-282: the fallback for a degenerate tempo estimate. *)
Definition seed_bpm (bpm_est : Q) : Q :=
  if negb (isfinite bpm_est) || fle bpm_est 1e-6 then 120 else bpm_est.

(** Lines 290-293: snap the anchor once if an onset is close. *)
Definition snap_anchor (cfg : config) (onset_times : list Q) (t0 : Q) : Q :=
  if (0 <? len onset_times)%Z then
    let j0 := np_argmin (map (fun o => Qabs (o - t0)) onset_times) in
    if fle (Qabs (get onset_times j0 - t0)) (window_s cfg * 2.5)
    then get onset_times j0
    else t0
  else t0.

(** The anchor after snapping and phase selection (lines 284-303). *)
Definition refined_anchor (fuel : nat) (cfg : config)
    (onset_times : list Q) (bpm_est t0_est : Q) : option Q :=
  let bpm := seed_bpm bpm_est in
  choose_best_phase fuel (snap_anchor cfg onset_times t0_est) (60 / bpm)
    onset_times (window_s cfg) (phase_search_seconds cfg)
    (phase_divisions cfg).

(** The state the main loop is entered with. *)
Definition entry_state (fuel : nat) (cfg : config) (onset_times : list Q)
    (bpm_est t0_est : Q) : option state :=
  let bpm := seed_bpm bpm_est in
  match refined_anchor fuel cfg onset_times bpm_est t0_est with
  | None => None
  | Some t0 =>
      match skip_negative fuel t0 (60 / bpm) 0 t0 with
      | None => None
      | Some (beat_idx, t) =>
          Some (mk_state bpm (60 / bpm) t0 [(t0, bpm)] t0 [] [] 0 0 0
                  beat_idx t)
      end
  end.

(** The state the main loop is left with. *)
Definition final_state (fuel : nat) (cfg : config) (onset_times : list Q)
    (bpm_est t0_est duration : Q) : option state :=
  match entry_state fuel cfg onset_times bpm_est t0_est with
  | None => None
  | Some s => run_loop fuel cfg onset_times duration s
  end.

(** [analyze_mode_a] from line 280 on: [onset_times] is the sorted onset
    array, [bpm_est] and [t0_est] the results of [estimate_initial_bpm]
    and [estimate_initial_anchor], [duration] is [len(y) / sr].
    Returns [(points, bpm)]; [None]: out of fuel. *)
Definition analyze_mode_a (fuel : nat) (cfg : config) (onset_times : list Q)
    (bpm_est t0_est duration : Q) : option (list (Q * Q) * Q) :=
  option_map (fun s => (points s, bpm s))
    (final_state fuel cfg onset_times bpm_est t0_est duration).

(** The states the main loop passes through from [s0]: the loop head of
    every turn. *)
Inductive reachable (cfg : config) (onset_times : list Q) (duration : Q)
    (s0 : state) : state -> Prop :=
  | reach_entry : reachable cfg onset_times duration s0 s0
  | reach_turn (s : state) :
      reachable cfg onset_times duration s0 s ->
      loop_cond cfg duration s = true ->
      reachable cfg onset_times duration s0 (loop_body cfg onset_times s).

(** Two timing points at least [min_gap_ms] milliseconds apart, and two
    timing points in strict time order. *)
Definition spaced (cfg : config) (p q : Q * Q) : Prop :=
  min_gap_ms cfg <= (fst q - fst p) * 1000.

Definition earlier (p q : Q * Q) : Prop := fst p < fst q.

(** The grid of a loop state: a positive tempo, a positive beat
    interval, and the query time on the grid. *)
Definition grid_inv (s : state) : Prop :=
  0 < bpm s /\ 0 < interval s
  /\ t s == t0 s + inject_Z (beat_idx s) * interval s.

(** The timing points of a loop state: the last one is at
    [last_point_time], and consecutive ones are [spaced]. *)
Definition points_inv (cfg : config) (s : state) : Prop :=
  (exists pre b, points s = pre ++ [(last_point_time s, b)])
  /\ Sorted (spaced cfg) (points s).

(** The beat indexes in the window increase and are below the current
    beat. *)
Definition indices_inv (s : state) : Prop :=
  StronglySorted Z.lt (idx_q s)
  /\ Forall (fun i => (i < beat_idx s)%Z) (idx_q s).

(** Both deques have one length, at most [maxlen]. *)
Definition window_inv (cfg : config) (s : state) : Prop :=
  length (err_q s) = length (idx_q s) /\ (len (err_q s) <= maxlen cfg)%Z.

End Core.

(** ** Sample inputs *)

Module Samples.
Import Core.

(** The defaults of the command line (bpm.py 36-77). *)
Definition default_config : config :=
  mk_config 40 24 14 8 18 1.2 0.35 4 18 600 200.

(** The defaults, with a decision window of 4 beats. *)
Definition narrow_config : config :=
  mk_config 40 4 14 8 18 1.2 0.35 4 18 600 200.

(** Six onsets on a 120 bpm grid. *)
Definition grid_onsets : list Q := [0; 0.5; 1; 1.5; 2; 2.5].

(** A loop head at beat 14 of a 120 bpm grid: fourteen matched beats, all
    30 ms late, the jump counter at 7, the last timing point at
    [last]. *)
Definition late_state (last : Q) : state :=
  mk_state 120 0.5 0 [(0, 120)] last
    [0.03; 0.03; 0.03; 0.03; 0.03; 0.03; 0.03;
     0.03; 0.03; 0.03; 0.03; 0.03; 0.03; 0.03]
    [0; 1; 2; 3; 4; 5; 6; 7; 8; 9; 10; 11; 12; 13]%Z
    0 7 0 14 7.

End Samples.

(** ** Names for what the phase selector computes per candidate *)

Module Candidates.
Import Phase.

(** The candidate anchor of turn [k]:
    [cand_t0 = t0 + (k / phase_divisions) * interval] (line 210). *)
Definition candidate_anchor (t0 interval : Q) (phase_divisions k : Z) : Q :=
  t0 + inject_Z k / inject_Z phase_divisions * interval.

(** The grid walk of turn [k] from its initial values (lines 211-224). *)
Definition candidate_walk (fuel : nat) (ot : list Q)
    (t0 interval match_window_s search_seconds : Q) (phase_divisions k : Z)
    : option (list Q * Z) :=
  phase_beats fuel ot (candidate_anchor t0 interval phase_divisions k)
    interval match_window_s search_seconds 0 0
    (candidate_anchor t0 interval phase_divisions k) [] 0.

(** The onsets of the search horizon: [ot] of line 201, for the
    clamped [search_seconds]. *)
Definition horizon_onsets (t0 search_seconds : Q) (onset_times : list Q)
    : list Q :=
  filter (fun o => fle (fmax 0 (t0 - 0.5)) o
                   && fle o (t0 + search_seconds + 0.5))
    onset_times.

(** What the running best knows about the candidates [seen] so far: no
    candidate matched more, and the best is the seed with no candidate
    matching at all, or one of the candidates with its match count. *)
Definition best_of (fuel : nat) (ot : list Q)
    (t0 interval match_window_s search_seconds : Q) (phase_divisions : Z)
    (seen : list Z) (b : best) : Prop :=
  (forall k errs matches, In k seen ->
     candidate_walk fuel ot t0 interval match_window_s search_seconds
       phase_divisions k = Some (errs, matches) ->
     (matches <= Z.max 0 (best_matches b))%Z)
  /\ ((best_matches b = (-1)%Z /\ best_t0 b = t0)
      \/ exists k errs, In k seen
           /\ candidate_walk fuel ot t0 interval match_window_s
                search_seconds phase_divisions k
              = Some (errs, best_matches b)
           /\ best_t0 b = candidate_anchor t0 interval phase_divisions k
           /\ (0 < best_matches b)%Z).

End Candidates.

(** ** Invariants of the main loop *)

Module LoopSpec.
Import Core.

(** The grid of a loop state, in full: the interval is [60 / bpm], the
    tempo is positive, the beat index is not negative and the query time
    is the grid time of that beat. *)
Definition tempo_inv (s : state) : Prop :=
  interval s = 60 / bpm s
  /\ 0 < bpm s
  /\ (0 <= beat_idx s)%Z
  /\ t s == t0 s + inject_Z (beat_idx s) * interval s.

(** The last timing point carries the current tempo and the time of the
    last emission, and every timing point has a positive bpm. *)
Definition tail_inv (s : state) : Prop :=
  (exists pre, points s = pre ++ [(last_point_time s, bpm s)])
  /\ Forall (fun p => 0 < snd p) (points s).

(** Two consecutive timing points: the same bpm, or bpm values at least
    [bpm_min_change] apart. *)
Definition bpm_step (cfg : config) (p q : Q * Q) : Prop :=
  snd q = snd p \/ bpm_min_change cfg <= Qabs (snd q - snd p).

(** Every error in the window is within the match window. *)
Definition errors_inv (cfg : config) (s : state) : Prop :=
  Forall (fun e => Qabs e <= window_s cfg) (err_q s).

End LoopSpec.

(** ** Further sample inputs *)

Module MoreSamples.

(** Three onsets half a second apart. *)
Definition half_onsets : list Q := [0; 0.5; 1].

(** A loop head at beat 14 of a 120 bpm grid: fourteen matched beats,
    all exactly on the grid, the drift counter at 3. *)
Definition aligned_state : Core.state :=
  Core.mk_state 120 0.5 0 [(0, 120)] 0
    [0; 0; 0; 0; 0; 0; 0; 0; 0; 0; 0; 0; 0; 0]
    [0; 1; 2; 3; 4; 5; 6; 7; 8; 9; 10; 11; 12; 13]%Z
    0 0 3 14 7.

(** A loop head at beat 14 of a 120 bpm grid: fourteen matched beats
    whose error grows by 2 ms per beat, the drift counter at 7. *)
Definition drifting_state : Core.state :=
  Core.mk_state 120 0.5 0 [(0, 120)] 0
    [0; 0.002; 0.004; 0.006; 0.008; 0.01; 0.012;
     0.014; 0.016; 0.018; 0.02; 0.022; 0.024; 0.026]
    [0; 1; 2; 3; 4; 5; 6; 7; 8; 9; 10; 11; 12; 13]%Z
    0 0 7 14 7.

(** The defaults, with a minimum bpm change of 1. *)
Definition cautious_config : Core.config :=
  Core.mk_config 40 24 14 8 18 1.2 1 4 18 600 200.

End MoreSamples.

(** ** The onset matcher over binary64 *)

(** A decimal literal denotes the nearest binary64 value, as it does in
    Python. *)
Set Warnings "-inexact-float".

(** [find_nearest_onset] (bpm.py 142-167) once more, line by line, with
    Python's floats as binary64 values: [-], [abs], [<] and [<=] are the
    IEEE 754 operations (round to nearest, ties to even; a comparison
    with a not-a-number is false), as CPython computes them. *)
Module Matcher64.

(** [a[j]] for an index the code has checked to lie in
    [0 <= j < len(a)]. *)
Definition get (a : list float) (j : Z) : float :=
  nth (Z.to_nat j) a PrimFloat.zero.

(** The scan [while i + 1 < n and onset_times[i] < t - window_s: i += 1],
    with [len(onset_times)] turns of fuel. *)
Fixpoint advance_hint (onset_times : list float) (t window_s : float)
    (fuel : nat) (i : Z) : Z :=
  match fuel with
  | O => i
  | S fuel' =>
      if (i + 1 <? len onset_times)%Z
         && PrimFloat.ltb (get onset_times i) (PrimFloat.sub t window_s)
      then advance_hint onset_times t window_s fuel' (i + 1)
      else i
  end.

(** One turn of [for j in (i - 1, i, i + 1, i + 2)]. *)
Definition candidate (onset_times : list float) (t window_s : float)
    (j : Z) : list (float * Z) :=
  if (0 <=? j)%Z && (j <? len onset_times)%Z then
    let dt := PrimFloat.abs (PrimFloat.sub (get onset_times j) t) in
    if PrimFloat.leb dt window_s then [(dt, j)] else []
  else [].

Definition candidates (onset_times : list float) (t window_s : float)
    (i : Z) : list (float * Z) :=
  flat_map (candidate onset_times t window_s)
    [(i - 1)%Z; i; (i + 1)%Z; (i + 2)%Z].

(** [min(candidates, key=lambda x: x[0])]: a later item replaces the
    current one only when its key is [<] the current key. *)
Fixpoint min_by_dt (best : float * Z) (rest : list (float * Z))
    : float * Z :=
  match rest with
  | [] => best
  | c :: rest' =>
      min_by_dt (if PrimFloat.ltb (fst c) (fst best) then c else best) rest'
  end.

(** Returns [(matched_time or None, new_idx_hint)]. *)
Definition find_nearest_onset (onset_times : list float) (idx_hint : Z)
    (t window_s : float) : option float * Z :=
  let n := len onset_times in
  if (n =? 0)%Z then (None, idx_hint)
  else
    let i :=
      advance_hint onset_times t window_s (length onset_times)
        (Z.max 0 idx_hint) in
    match candidates onset_times t window_s i with
    | [] => (None, i)
    | c :: cs =>
        let best_j := snd (min_by_dt c cs) in
        (Some (get onset_times best_j), best_j)
    end.

(** A call of the matcher inside a scan. *)
Record call : Type := mk_call {
  hint_in : Z;
  query : float;
  matched : option float;
  hint_out : Z
}.

(** The matcher used over a sequence of query times, the hint threaded
    from call to call. *)
Fixpoint scan (onset_times : list float) (window_s : float) (idx_hint : Z)
    (ts : list float) : list call :=
  match ts with
  | [] => []
  | t :: ts' =>
      let '(m, h) := find_nearest_onset onset_times idx_hint t window_s in
      mk_call idx_hint t m h :: scan onset_times window_s h ts'
  end.

(** The array is sorted: each onset is [<=] the next one. *)
Fixpoint increasing (a : list float) : bool :=
  match a with
  | x :: (y :: _) as a' => PrimFloat.leb x y && increasing a'
  | _ => true
  end.

End Matcher64.

(** ** The slope estimator over binary64 *)

(** [robust_slope_s_per_beat] (bpm.py 170-184) with numpy's float64
    arrays as lists of binary64 values. *)
Module Estimator64.

(** An element of [np.asarray(beat_indices, dtype=float)]: the integer
    rounded to the nearest binary64 value.  Faithful for
    [|z| < 2^63]; the beat indexes of the program are far below. *)
Definition asfloat (z : Z) : float :=
  if (z <? 0)%Z then PrimFloat.opp (PrimFloat.of_uint63 (Uint63.of_Z (- z)))
  else PrimFloat.of_uint63 (Uint63.of_Z z).

Fixpoint insert_sorted (x : float) (s : list float) : list float :=
  match s with
  | [] => [x]
  | y :: s' =>
      if PrimFloat.leb x y then x :: s else y :: insert_sorted x s'
  end.

Definition sort_floats (a : list float) : list float :=
  fold_right insert_sorted [] a.

(** [np.median(a)]: the middle element of the sorted array, or the mean
    of the two middle ones, which numpy computes as their rounded sum
    divided by 2; [nan] for an empty array. *)
Definition np_median (a : list float) : float :=
  match a with
  | [] => PrimFloat.nan
  | _ :: _ =>
      let s := sort_floats a in
      let n := length a in
      if Nat.even n
      then PrimFloat.div
             (PrimFloat.add (nth (n / 2 - 1) s PrimFloat.zero)
                            (nth (n / 2) s PrimFloat.zero))
             PrimFloat.two
      else nth (n / 2) s PrimFloat.zero
  end.

(** [a - np.median(a)]. *)
Definition centre (a : list float) : list float :=
  let m := np_median a in map (fun v => PrimFloat.sub v m) a.

(** [np.dot] of two one-dimensional arrays, the products summed from
    left to right.  (A BLAS kernel may add them in another order; the
    inputs this development evaluates it on make every product and
    every partial sum exact, so the order does not show.) *)
Definition dot (u v : list float) : float :=
  fold_left (fun acc p => PrimFloat.add acc (PrimFloat.mul (fst p) (snd p)))
    (combine u v) PrimFloat.zero.

Definition robust_slope_s_per_beat (beat_indices : list Z)
    (errors_s : list float) : float :=
  let x := map asfloat beat_indices in
  let y := errors_s in
  if (len x <? 6)%Z then PrimFloat.zero
  else
    let x0 := centre x in
    let y0 := centre y in
    let denom := dot x0 x0 in
    if PrimFloat.leb denom 1e-12%float then PrimFloat.zero
    else PrimFloat.div (dot x0 y0) denom.

(** The error [e] stored for beat index [i] is the binary64 value
    [a + b * i], computed without rounding when the sum and the product
    are representable. *)
Definition on_line (a b : float) (i : Z) (e : float) : bool :=
  PrimFloat.eqb e (PrimFloat.add a (PrimFloat.mul b (asfloat i))).

End Estimator64.

(** ** Sample inputs over binary64 *)

Module Samples64.

(** Two onsets a few attoseconds apart. *)
Definition close_onsets : list float := [0x1p-60; 0x1p-59]%float.

(** The match window of the defaults, 40 ms. *)
Definition window_s : float := 0.04%float.

(** Two increasing query times. *)
Definition tie_queries : list float := [0x1p-59; 0.03]%float.

(** Six beat indexes, the last one after a gap of five unmatched beats. *)
Definition gap_indices : list Z := [0; 1; 2; 3; 4; 10]%Z.

(** A line with intercept 31.25 ms and a slope of [2^-57] seconds per
    beat, and its errors [2^-5 + i * 2^-57] at those beat indexes: each
    of them is a binary64 value below the 40 ms match window. *)
Definition line_intercept : float := 0x1p-5%float.
Definition line_slope : float := 0x1p-57%float.
Definition line_errors : list float :=
  [0x1p-5; 0x1.0000000000001p-5; 0x1.0000000000002p-5;
   0x1.0000000000003p-5; 0x1.0000000000004p-5; 0x1.000000000000ap-5]%float.

End Samples64.

(** ** Sample runs *)

Module RunSamples.

(** A configuration that decides quickly: a window of 8 beats, 3 matches
    and a single confirming beat are enough; one phase candidate, 3
    seconds of phase search. *)
Definition quick_config : Core.config :=
  Core.mk_config 40 8 3 1 18 1.2 0.35 1 3 600 200.

(** Onsets on a 120 bpm grid that is shifted by 30 ms after the second
    beat and by another 30 ms after the eighth. *)
Definition shifted_onsets : list Q :=
  [0; 0.5; 1.03; 1.53; 2.03; 2.53; 3.03; 3.53;
   4.06; 4.56; 5.06; 5.56; 6.06; 6.56].

(** Ten onsets on a 120 bpm grid. *)
Definition ten_onsets : list Q :=
  [0; 0.5; 1; 1.5; 2; 2.5; 3; 3.5; 4; 4.5].

(** The state the loop is entered in on a 120 bpm grid anchored at 0. *)
Definition start_state : Core.state :=
  Core.mk_state 120 0.5 0 [(0, 120)] 0 [] [] 0 0 0 0 0.

(** The loop head after [n] turns from [s]. *)
Definition turns (cfg : Core.config) (onset_times : list Q) (n : nat)
    (s : Core.state) : Core.state :=
  Nat.iter n (Core.loop_body cfg onset_times) s.

End RunSamples.

(** * Properties *)

(** ** Boolean tests and absolute values *)

(** Rational arithmetic stays folded under [simpl]. *)
Arguments Qplus : simpl never.
Arguments Qminus : simpl never.
Arguments Qmult : simpl never.
Arguments Qdiv : simpl never.
Arguments Qopp : simpl never.
Arguments Qinv : simpl never.
Arguments Qabs : simpl never.
Arguments Qle_bool : simpl never.
Arguments inject_Z : simpl never.
Arguments Z.add : simpl never.
Arguments Z.sub : simpl never.
Arguments Z.max : simpl never.

Lemma fle_iff (x y : Q) : fle x y = true <-> x <= y.
Proof. apply Qle_bool_iff. Qed.

Lemma flt_iff (x y : Q) : flt x y = true <-> x < y.
Proof.
  unfold flt. rewrite negb_true_iff. split; intros H.
  - apply Qnot_le_lt. intros Hle. apply Qle_bool_iff in Hle. congruence.
  - destruct (Qle_bool y x) eqn:E; [|reflexivity].
    apply Qle_bool_iff in E. apply Qlt_not_le in H. contradiction.
Qed.

Lemma fle_false (x y : Q) : fle x y = false <-> y < x.
Proof.
  split; intros H.
  - apply Qnot_le_lt. intros Hle. apply fle_iff in Hle. congruence.
  - destruct (fle x y) eqn:E; [|reflexivity].
    apply fle_iff in E. apply Qlt_not_le in H. contradiction.
Qed.

Lemma flt_false (x y : Q) : flt x y = false <-> y <= x.
Proof.
  unfold flt. rewrite negb_false_iff. apply Qle_bool_iff.
Qed.

Lemma Qabs_cases (x : Q) :
  (0 <= x /\ Qabs x == x) \/ (x <= 0 /\ Qabs x == - x).
Proof.
  destruct (Qlt_le_dec x 0) as [H|H].
  - right. split; [lra|]. apply Qabs_neg. lra.
  - left. split; [exact H|]. apply Qabs_pos. exact H.
Qed.

Lemma Qsquare_nonneg (x : Q) : 0 <= x * x.
Proof. nra. Qed.

(** Turn every boolean float test in the context into its proposition. *)
Ltac float_tests :=
  repeat match goal with
    | H : fle _ _ = true |- _ => apply fle_iff in H
    | H : fle _ _ = false |- _ => apply fle_false in H
    | H : flt _ _ = true |- _ => apply flt_iff in H
    | H : flt _ _ = false |- _ => apply flt_false in H
    end.

(** Split on the sign under every absolute value in sight. *)
Ltac split_abs :=
  repeat match goal with
    | |- context [Qabs ?e] =>
        let H1 := fresh "Hsgn" in
        let H2 := fresh "Habs" in
        destruct (Qabs_cases e) as [[H1 H2]|[H1 H2]];
        generalize dependent (Qabs e); intros
    | H : context [Qabs ?e] |- _ =>
        let H1 := fresh "Hsgn" in
        let H2 := fresh "Habs" in
        destruct (Qabs_cases e) as [[H1 H2]|[H1 H2]];
        generalize dependent (Qabs e); intros
    end.

Lemma In_get (a : list Q) (x : Q) :
  In x a <-> exists k, (0 <= k < len a)%Z /\ x = get a k.
Proof.
  unfold get, len. split.
  - intros H. apply (In_nth _ _ 0) in H. destruct H as (k & Hk & Hx).
    exists (Z.of_nat k). rewrite Nat2Z.id. split; [lia|auto].
  - intros (k & Hk & ->). apply nth_In. lia.
Qed.

Lemma sorted_get (a : list Q) :
  Sorted Qle a ->
  forall i j, (0 <= i <= j)%Z -> (j < len a)%Z -> get a i <= get a j.
Proof.
  intros Hs. apply Sorted_StronglySorted in Hs.
  2:{ intros x y z. apply Qle_trans. }
  induction Hs as [|x a Hs IH Hall]; intros i j Hij Hj.
  - unfold len in Hj. simpl in Hj. lia.
  - unfold get, len in *. simpl length in Hj.
    destruct (Z.to_nat i) as [|i'] eqn:Ei;
      destruct (Z.to_nat j) as [|j'] eqn:Ej; simpl.
    + apply Qle_refl.
    + rewrite Forall_forall in Hall. apply Hall. apply nth_In. lia.
    + lia.
    + specialize (IH (Z.of_nat i') (Z.of_nat j')).
      rewrite !Nat2Z.id in IH. apply IH; lia.
Qed.

(** ** The onset matcher *)

Section MatcherFacts.
Import Matcher.

Variable onset_times : list Q.
Variable window_s : Q.

Local Abbreviation n := (len onset_times).
Local Abbreviation o := (get onset_times).

(** What the scan loop of one call establishes. *)
Lemma advance_hint_spec (t : Q) (fuel : nat) (i : Z) :
  (0 <= i)%Z -> (n - i <= Z.of_nat fuel)%Z ->
  let r := advance_hint onset_times t window_s fuel i in
  (i <= r)%Z /\ (r < n \/ r = i)%Z
  /\ (forall k, (i <= k < r)%Z -> o k < t - window_s)
  /\ ((r + 1 < n)%Z -> t - window_s <= o r).
Proof.
  revert i. induction fuel as [|fuel IH]; intros i Hi Hfuel; simpl.
  - repeat split; lia.
  - destruct (i + 1 <? n)%Z eqn:E1; simpl.
    + destruct (flt (get onset_times i) (t - window_s)) eqn:E2.
      * apply Z.ltb_lt in E1.
        destruct (IH (i + 1)%Z) as (H1 & H2 & H3 & H4); [lia|lia|].
        split; [lia|]. split; [lia|]. split; [|exact H4].
        intros k Hk. destruct (Z.eq_dec k i) as [->|Hne].
        -- apply flt_iff in E2. exact E2.
        -- apply H3. lia.
      * apply flt_false in E2.
        split; [lia|]. split; [lia|]. split; [lia|]. intros _. exact E2.
    + apply Z.ltb_ge in E1. repeat split; lia.
Qed.

Lemma candidate_In (t : Q) (j : Z) (c : Q * Z) :
  In c (candidate onset_times t window_s j) <->
  c = (Qabs (o j - t), j) /\ (0 <= j < n)%Z /\ in_window t window_s (o j).
Proof.
  unfold candidate, in_window.
  destruct (0 <=? j)%Z eqn:E1; destruct (j <? n)%Z eqn:E2; simpl;
    try (split; [tauto | intros (_ & Hb & _); lia]).
  apply Z.leb_le in E1. apply Z.ltb_lt in E2.
  destruct (fle (Qabs (o j - t)) window_s) eqn:E3; simpl.
  - apply fle_iff in E3. intuition.
  - apply fle_false in E3. split; [tauto|].
    intros (_ & _ & Hw). lra.
Qed.

Lemma candidates_In (t : Q) (i : Z) (c : Q * Z) :
  In c (candidates onset_times t window_s i) <->
  c = (Qabs (o (snd c) - t), snd c)
  /\ (i - 1 <= snd c <= i + 2)%Z /\ (0 <= snd c < n)%Z
  /\ in_window t window_s (o (snd c)).
Proof.
  unfold candidates. rewrite in_flat_map. split.
  - intros (j & Hj & Hc). apply candidate_In in Hc.
    destruct Hc as (-> & Hb & Hw). simpl in *.
    repeat split; auto; lia.
  - intros (Hc & Hnb & Hb & Hw). exists (snd c). split.
    + simpl. lia.
    + apply candidate_In. auto.
Qed.

(** The candidates are listed by increasing index. *)
Lemma candidates_by_index (t : Q) (i : Z) :
  StronglySorted (fun a b => (snd a < snd b)%Z)
    (candidates onset_times t window_s i).
Proof.
  unfold candidates, candidate. simpl.
  repeat match goal with
    | |- context [if ?b then _ else _] => destruct b
    end; simpl;
    repeat (constructor; simpl; try lia).
Qed.

(** [min] returns the first item of minimal key. *)
Lemma min_by_dt_spec (rest seen : list (Q * Z)) (b : Q * Z) :
  In b seen ->
  (forall c, In c seen ->
     fst b <= fst c /\ ((snd c < snd b)%Z -> fst b < fst c)) ->
  (forall s c, In s seen -> In c rest -> (snd s < snd c)%Z) ->
  StronglySorted (fun a b => (snd a < snd b)%Z) rest ->
  let r := min_by_dt b rest in
  In r (seen ++ rest)
  /\ forall c, In c (seen ++ rest) ->
       fst r <= fst c /\ ((snd c < snd r)%Z -> fst r < fst c).
Proof.
  revert seen b.
  induction rest as [|c rest IH]; intros seen b Hb Hmin Hlt Hs.
  - simpl. rewrite app_nil_r. auto.
  - simpl.
    assert (Hsplit : seen ++ c :: rest = (seen ++ [c]) ++ rest)
      by (rewrite <- app_assoc; reflexivity).
    rewrite Hsplit.
    assert (Hbc : (snd b < snd c)%Z) by (apply Hlt; simpl; auto).
    apply StronglySorted_inv in Hs. destruct Hs as [Hs Hall].
    rewrite Forall_forall in Hall.
    assert (Hlt' : forall s c', In s (seen ++ [c]) -> In c' rest ->
                     (snd s < snd c')%Z).
    { intros s c' Hin Hc'. rewrite in_app_iff in Hin.
      destruct Hin as [Hin|[<-|[]]].
      - apply Hlt; simpl; auto.
      - apply Hall. exact Hc'. }
    destruct (flt (fst c) (fst b)) eqn:E; float_tests.
    + apply IH; auto.
      * rewrite in_app_iff. right. simpl. auto.
      * intros c' Hc'. rewrite in_app_iff in Hc'.
        destruct Hc' as [Hc'|[<-|[]]].
        -- destruct (Hmin c' Hc') as [H1 _]. split; [lra|intros _; lra].
        -- split; [lra|lia].
    + apply IH; auto.
      * rewrite in_app_iff. left. exact Hb.
      * intros c' Hc'. rewrite in_app_iff in Hc'.
        destruct Hc' as [Hc'|[<-|[]]].
        -- apply Hmin. exact Hc'.
        -- split; [lra|lia].
Qed.

Lemma in_window_iff (t x : Q) :
  in_window t window_s x <-> t - window_s <= x <= t + window_s.
Proof.
  unfold in_window. rewrite Qabs_Qle_condition. split; intros [H1 H2]; lra.
Qed.

Lemma hint_ok_mono (h : Z) (t t' : Q) :
  hint_ok onset_times window_s h t -> t <= t' ->
  hint_ok onset_times window_s h t'.
Proof.
  intros (H0 & Hn & HK) Ht. repeat split; auto.
  intros H1. destruct (HK H1) as [H|(Ha & Hb & Hc)]; [left|right]; lra.
Qed.

(** One call of the matcher under [hint_ok]. *)
Lemma find_nearest_onset_step (h : Z) (t : Q) (m : option Q) (h' : Z) :
  Sorted Qle onset_times ->
  hint_ok onset_times window_s h t ->
  find_nearest_onset onset_times h t window_s = (m, h') ->
  (h <= h')%Z
  /\ (forall t', t <= t' -> hint_ok onset_times window_s h' t')
  /\ (m = None <->
      forall x, In x onset_times -> ~ in_window t window_s x)
  /\ (forall x, m = Some x ->
      In x onset_times /\ in_window t window_s x
      /\ (forall j,
            (j <= scan_stop onset_times window_s h t + 2)%Z ->
            (0 <= j < n)%Z -> Qabs (x - t) <= Qabs (o j - t))
      /\ (at_most_two_before onset_times window_s t ->
          forall y, In y onset_times -> Qabs (x - t) <= Qabs (y - t))).
Proof.
  intros Hs Hok Hf.
  pose proof (sorted_get _ Hs) as Hle.
  pose proof Hok as (Hh0 & Hhn & HK).
  pose proof candidates_In as Hcands.
  unfold find_nearest_onset in Hf. unfold scan_stop.
  destruct (n =? 0)%Z eqn:En.
  { apply Z.eqb_eq in En. inversion Hf; subst m h'; clear Hf.
    assert (Hnil : onset_times = []).
    { unfold len in En. destruct onset_times; [reflexivity|].
      simpl in En. lia. }
    split; [lia|]. split; [intros t' Ht'; eapply hint_ok_mono; eauto|].
    split; [|discriminate].
    split; [|reflexivity]. intros _ x Hx. rewrite Hnil in Hx. destruct Hx. }
  apply Z.eqb_neq in En. destruct Hhn as [Hhn|Hhn]; [contradiction|].
  rewrite (Z.max_r 0 h) in * by lia.
  set (i := advance_hint onset_times t window_s (length onset_times) h) in *.
  destruct (advance_hint_spec t (length onset_times) h Hh0)
    as (Hi1 & Hi2 & Hbelow & Hexit).
  { unfold len. lia. }
  fold i in Hi1, Hi2, Hbelow, Hexit.
  assert (Hin : (i < n)%Z) by lia.
  (* an onset in the window puts a neighbour of [i] in the window *)
  assert (HA : forall k, (0 <= k < n)%Z -> in_window t window_s (o k) ->
             exists j, (i - 1 <= j <= i + 2)%Z /\ (0 <= j < n)%Z
                       /\ in_window t window_s (o j)).
  { intros k Hk Hw. apply in_window_iff in Hw.
    destruct (Z_le_gt_dec i k) as [Hik|Hik].
    - exists i. split; [lia|]. split; [lia|]. apply in_window_iff.
      destruct (Z_lt_ge_dec (i + 1) n) as [Hlt|Hge].
      + specialize (Hexit Hlt). specialize (Hle i k). 
        assert (o i <= o k) by (apply Hle; lia). lra.
      + assert (k = i) by lia. subst k. lra.
    - destruct (Z_le_gt_dec h k) as [Hhk|Hhk].
      { specialize (Hbelow k). assert (o k < t - window_s) by (apply Hbelow; lia).
        lra. }
      destruct (Z.eq_dec i h) as [Heq|Hne].
      2:{ assert (o h < t - window_s) by (apply Hbelow; lia).
          assert (o k <= o h) by (apply Hle; lia). lra. }
      assert (H1 : (1 <= h)%Z) by lia.
      assert (o k <= o (h - 1)%Z) by (apply Hle; lia).
      destruct (HK H1) as [HK1|(HK1 & HK2 & HK3)]; [lra|].
      exists (h - 1)%Z. split; [lia|]. split; [lia|].
      apply in_window_iff. lra. }
  destruct (candidates onset_times t window_s i) as [|c cs] eqn:Ec.
  - (* no candidate *)
    inversion Hf; subst m h'; clear Hf.
    assert (Hnone : forall j, (i - 1 <= j <= i + 2)%Z -> (0 <= j < n)%Z ->
                      ~ in_window t window_s (o j)).
    { intros j Hj Hb Hw.
      assert (Hc : In (Qabs (o j - t), j) (candidates onset_times t window_s i))
        by (apply Hcands; simpl; auto).
      rewrite Ec in Hc. destruct Hc. }
    split; [lia|]. split.
    { intros t' Ht'. split; [lia|]. split; [right; exact Hin|].
      intros H1. destruct (Z.eq_dec i h) as [Heq|Hne].
      - rewrite Heq in *. 
        destruct (HK H1) as [HK1|(HK1 & HK2 & HK3)]; [left|right]; lra.
      - left. assert (o (i - 1)%Z < t - window_s) by (apply Hbelow; lia).
        lra. }
    split; [|discriminate].
    split; [|reflexivity]. intros _ x Hx Hw.
    apply In_get in Hx. destruct Hx as (k & Hk & ->).
    destruct (HA k Hk Hw) as (j & Hj & Hb & Hwj).
    exact (Hnone j Hj Hb Hwj).
  - (* the first nearest candidate *)
    inversion Hf; subst m h'; clear Hf.
    pose proof (candidates_by_index t i) as Hsorted. rewrite Ec in Hsorted.
    apply StronglySorted_inv in Hsorted. destruct Hsorted as [Hsorted Hall].
    rewrite Forall_forall in Hall.
    destruct (min_by_dt_spec cs [c] c) as [Hr Hmin]; simpl; auto.
    { intros c' [<-|[]]. split; [lra|lia]. }
    { intros s c' [<-|[]] Hc'. apply Hall. exact Hc'. }
    simpl in Hr.
    set (r := min_by_dt c cs) in *.
    change (c :: cs) with ([c] ++ cs) in Ec. 
    assert (Hcand : forall c', In c' ([c] ++ cs) <->
              c' = (Qabs (o (snd c') - t), snd c')
              /\ (i - 1 <= snd c' <= i + 2)%Z /\ (0 <= snd c' < n)%Z
              /\ in_window t window_s (o (snd c'))).
    { intros c'. rewrite <- Ec. apply Hcands. }
    assert (Hr' : In r ([c] ++ cs)) by exact Hr.
    apply Hcand in Hr'. destruct Hr' as (Hrdt & Hrnb & Hrb & Hrw).
    set (bj := snd r) in *.
    assert (Hfst : fst r = Qabs (o bj - t)) by (rewrite Hrdt; reflexivity).
    (* candidates of the neighbourhood against the chosen one *)
    assert (Hcmp : forall j, (i - 1 <= j <= i + 2)%Z -> (0 <= j < n)%Z ->
              in_window t window_s (o j) ->
              Qabs (o bj - t) <= Qabs (o j - t)
              /\ ((j < bj)%Z -> Qabs (o bj - t) < Qabs (o j - t))).
    { intros j Hj Hb Hw.
      assert (Hc : In (Qabs (o j - t), j) ([c] ++ cs))
        by (apply Hcand; simpl; auto).
      destruct (Hmin _ Hc) as [H1 H2]. simpl in H1, H2.
      rewrite Hfst in H1, H2. fold bj in H2. auto. }
    assert (Hge : (i <= bj)%Z).
    { destruct (Z_le_gt_dec i bj) as [|Hlt]; [assumption|exfalso].
      assert (Hbj : bj = (i - 1)%Z) by lia.
      apply in_window_iff in Hrw.
      destruct (Z.eq_dec i h) as [Heq|Hne].
      2:{ assert (o bj < t - window_s) by (apply Hbelow; lia). lra. }
      assert (H1 : (1 <= h)%Z) by lia.
      rewrite Heq in Hbj. rewrite Hbj in *.
      destruct (HK H1) as [HK1|(HK1 & HK2 & HK3)]; [lra|].
      assert (Hwh : in_window t window_s (o h)).
      { apply in_window_iff. split; [|lra].
        destruct (Z_lt_ge_dec (i + 1) n) as [Hlt'|Hge'].
        - rewrite Heq in Hexit. apply Hexit. lia.
        - lra. }
      destruct (Hcmp h) as [Hc1 _]; [lia|lia|exact Hwh|].
      revert Hc1. split_abs; lra. }
    split; [lia|]. split.
    { intros t' Ht'. split; [lia|]. split; [right; lia|].
      intros H1. apply in_window_iff in Hrw.
      destruct (Z.eq_dec bj i) as [Hbi|Hbi].
      - rewrite Hbi in *. destruct (Z.eq_dec i h) as [Heq|Hne].
        + rewrite Heq in *.
          destruct (HK H1) as [HK1|(HK1 & HK2 & HK3)]; [left|right]; lra.
        + left. assert (o (i - 1)%Z < t - window_s) by (apply Hbelow; lia).
          lra.
      - assert (Hprev : (i - 1 <= bj - 1 <= i + 2)%Z) by lia.
        assert (Hpb : (0 <= bj - 1 < n)%Z) by lia.
        assert (Hord : o (bj - 1)%Z <= o bj) by (apply Hle; lia).
        destruct (Qlt_le_dec (o (bj - 1)%Z) (t - window_s)) as [Hout|Hinw].
        + left. lra.
        + right.
          assert (Hw : in_window t window_s (o (bj - 1)%Z))
            by (apply in_window_iff; lra).
          destruct (Hcmp _ Hprev Hpb Hw) as [_ Hc2].
          assert (Hc3 : Qabs (o bj - t) < Qabs (o (bj - 1)%Z - t))
            by (apply Hc2; lia).
          revert Hc3. split_abs; lra. }
    split; [split; [discriminate|]|].
    { intros Hno. exfalso. apply (Hno (o bj)).
      - apply In_get. exists bj. split; [exact Hrb|reflexivity].
      - exact Hrw. }
    intros x Hx. inversion Hx; subst x; clear Hx. fold bj.
    split; [apply In_get; exists bj; split; [exact Hrb|reflexivity]|].
    split; [exact Hrw|].
    (* the neighbourhood *)
    assert (Hnb : forall j, (i - 1 <= j <= i + 2)%Z -> (0 <= j < n)%Z ->
              Qabs (o bj - t) <= Qabs (o j - t)).
    { intros j Hj Hb.
      destruct (Qlt_le_dec window_s (Qabs (o j - t))) as [Hfar|Hnear].
      - unfold in_window in Hrw. lra.
      - apply Hcmp; auto. }
    (* everything up to the neighbourhood *)
    assert (Hlow : forall j, (j <= i + 2)%Z -> (0 <= j < n)%Z ->
              Qabs (o bj - t) <= Qabs (o j - t)).
    { intros j Hj Hb.
      destruct (Z_le_gt_dec (i - 1) j) as [Hin'|Hout];
        [apply Hnb; lia|].
      assert (Hfar : forall q, q < t - window_s ->
                Qabs (o bj - t) <= Qabs (q - t)).
      { intros q Hq. unfold in_window in Hrw.
        revert Hrw. split_abs; lra. }
      destruct (Z.eq_dec i h) as [Heq|Hne].
      2:{ apply Hfar.
          destruct (Z_le_gt_dec h j) as [Hhj|Hhj].
          - apply Hbelow. lia.
          - assert (o h < t - window_s) by (apply Hbelow; lia).
            assert (o j <= o h) by (apply Hle; lia). lra. }
      assert (H1 : (1 <= h)%Z) by lia.
      assert (Hjh : o j <= o (h - 1)%Z) by (apply Hle; lia).
      destruct (HK H1) as [HK1|(HK1 & HK2 & HK3)].
      - apply Hfar. lra.
      - assert (Hprev : Qabs (o bj - t) <= Qabs (o (h - 1)%Z - t))
          by (apply Hnb; lia).
        revert Hprev. split_abs; lra. }
    split; [exact Hlow|].
    intros Hsparse y Hy. apply In_get in Hy. destruct Hy as (k & Hk & ->).
    destruct (Z_le_gt_dec k (i + 2)) as [Hki|Hki]; [apply Hlow; lia|].
    assert (Hthird : t <= o (i + 2)%Z).
    { apply (Hsparse i); [lia|lia|]. apply Hexit. lia. }
    assert (Hik : o (i + 2)%Z <= o k) by (apply Hle; lia).
    assert (Hbest : Qabs (o bj - t) <= Qabs (o (i + 2)%Z - t))
      by (apply Hlow; lia).
    revert Hbest. split_abs; lra.
Qed.

(** Every call of a scan over increasing query times is made under
    [hint_ok]. *)
Lemma scan_calls (ts : list Q) (h : Z) :
  Sorted Qle onset_times ->
  StronglySorted Qle ts ->
  (forall t, In t ts -> hint_ok onset_times window_s h t) ->
  forall c, In c (scan onset_times window_s h ts) ->
    hint_ok onset_times window_s (hint_in c) (query c)
    /\ find_nearest_onset onset_times (hint_in c) (query c) window_s
       = (matched c, hint_out c).
Proof.
  intros Hs Hts. revert h.
  induction Hts as [|t ts Hts IH Hall]; intros h Hok c Hc.
  - destruct Hc.
  - simpl in Hc.
    destruct (find_nearest_onset onset_times h t window_s) as [m h'] eqn:Ef.
    destruct Hc as [<-|Hc]; simpl.
    + split; [apply Hok; simpl; auto|exact Ef].
    + apply (IH h'); [|exact Hc].
      intros t' Ht'.
      destruct (find_nearest_onset_step h t m h' Hs) as (_ & Hnext & _);
        [apply Hok; simpl; auto|exact Ef|].
      apply Hnext. rewrite Forall_forall in Hall. apply Hall. exact Ht'.
Qed.

Lemma hint_ok_start (t : Q) : hint_ok onset_times window_s 0 t.
Proof.
  split; [lia|]. split; [|lia].
  unfold len. destruct onset_times; simpl; [left; reflexivity|right; lia].
Qed.

End MatcherFacts.

Lemma increasing_strongly (ts : list Q) :
  Sorted Qle ts -> StronglySorted Qle ts.
Proof.
  apply Sorted_StronglySorted. intros x y z. apply Qle_trans.
Qed.

(** In exact arithmetic, over a sorted onset array and a monotonically
    increasing sequence of query times, the hint threaded from call to
    call starting at 0, every call of [find_nearest_onset] returns a
    hint index greater than or equal to the one it was passed.  (Over
    binary64 this fails when rounding makes two distances tie, see
    [Matcher64] below.) *)
Lemma exact_hint_never_regresses (onset_times ts : list Q) (window_s : Q) :
  Sorted Qle onset_times ->
  Sorted Qle ts ->
  forall c, In c (Matcher.scan onset_times window_s 0 ts) ->
    (Matcher.hint_in c <= Matcher.hint_out c)%Z.
Proof.
  intros Hs Hts c Hc.
  destruct (scan_calls onset_times window_s ts 0 Hs
              (increasing_strongly ts Hts)
              (fun t _ => hint_ok_start onset_times window_s t) c Hc)
    as [Hok Hcall].
  destruct (find_nearest_onset_step onset_times window_s _ _ _ _ Hs Hok Hcall)
    as (Hmono & _).
  exact Hmono.
Qed.

(** C1, as amended.  Over a sorted onset array and a monotonically
    increasing sequence of query times, the hint threaded from call to
    call starting at 0, every call of [find_nearest_onset] returns
    [None] exactly when no onset of the array lies within the tolerance
    window; otherwise it returns an onset that lies within the window
    and is at least as near to the query time as every onset up to
    index [i + 2], where [i] is the index the scan stopped at; and that
    onset is at least as near as every onset of the array when at most
    two onsets lie between the left end of the window and the query
    time. *)
Theorem matcher_nearest_up_to_neighbourhood
    (onset_times ts : list Q) (window_s : Q) :
  Sorted Qle onset_times ->
  Sorted Qle ts ->
  forall c, In c (Matcher.scan onset_times window_s 0 ts) ->
    let t := Matcher.query c in
    let i := Matcher.scan_stop onset_times window_s (Matcher.hint_in c) t in
    (Matcher.matched c = None <->
     forall x, In x onset_times -> ~ Matcher.in_window t window_s x)
    /\ (forall x, Matcher.matched c = Some x ->
        In x onset_times /\ Matcher.in_window t window_s x
        /\ (forall j, (j <= i + 2)%Z -> (0 <= j < len onset_times)%Z ->
              Qabs (x - t) <= Qabs (get onset_times j - t))
        /\ (Matcher.at_most_two_before onset_times window_s t ->
            forall y, In y onset_times -> Qabs (x - t) <= Qabs (y - t))).
Proof.
  intros Hs Hts c Hc t i.
  destruct (scan_calls onset_times window_s ts 0 Hs
              (increasing_strongly ts Hts)
              (fun t _ => hint_ok_start onset_times window_s t) c Hc)
    as [Hok Hcall].
  destruct (find_nearest_onset_step onset_times window_s _ _ _ _ Hs Hok Hcall)
    as (_ & _ & Hnone & Hsome).
  split; [exact Hnone|exact Hsome].
Qed.

Lemma matcher_nearest_up_to_neighbourhood_witness :
  (Some 1 = None <->
   forall x, In x [0; 1; 2] -> ~ Matcher.in_window 1 0.25 x)
  /\ (forall x, Some 1 = Some x ->
      In x [0; 1; 2] /\ Matcher.in_window 1 0.25 x
      /\ (forall j, (j <= 1 + 2)%Z -> (0 <= j < len [0; 1; 2])%Z ->
            Qabs (x - 1) <= Qabs (get [0; 1; 2] j - 1))
      /\ (Matcher.at_most_two_before [0; 1; 2] 0.25 1 ->
          forall y, In y [0; 1; 2] -> Qabs (x - 1) <= Qabs (y - 1))).
Proof.
  apply (matcher_nearest_up_to_neighbourhood [0; 1; 2] [0.9; 1; 2.1] 0.25
           (ltac:(repeat constructor; discriminate))
           (ltac:(repeat constructor; discriminate))
           (Matcher.mk_call 1 1 (Some 1) 1)).
  vm_compute. right. left. reflexivity.
Defined.

(** C1, as stated, fails: with onsets at 0, 1, 2, 3, a window of 3 and
    the single query time 3, the scan stops at index 0, the matcher
    looks at indexes 0 to 2 only and returns the onset 2, although the
    onset 3 is at distance 0. *)
Lemma matcher_misses_nearest :
  Sorted Qle [0; 1; 2; 3] /\ 0 <= 3 /\ Sorted Qle [3]
  /\ Matcher.find_nearest_onset [0; 1; 2; 3] 0 3 3 = (Some 2, 2%Z)
  /\ ~ Matcher.nearest_of_all [0; 1; 2; 3] 3 [3].
Proof.
  split; [repeat constructor; discriminate|].
  split; [discriminate|].
  split; [repeat constructor|].
  split; [reflexivity|].
  intros H.
  destruct (H (Matcher.mk_call 0 3 (Some 2) 2)) as [_ Hsome].
  { simpl. left. reflexivity. }
  destruct (Hsome 2 eq_refl) as (_ & _ & Hmin).
  specialize (Hmin 3). simpl in Hmin.
  assert (Hle : Qabs (2 - 3) <= Qabs (3 - 3)) by (apply Hmin; auto 10).
  vm_compute in Hle. apply Hle. reflexivity.
Qed.


(** ** The slope estimator *)

Section EstimatorFacts.
Import Estimator.

Lemma insert_sorted_head (x : Q) (s : list Q) :
  Forall (Qle x) s -> insert_sorted x s = x :: s.
Proof.
  intros H. destruct s as [|y s]; [reflexivity|]. simpl.
  apply Forall_inv in H. apply fle_iff in H. rewrite H. reflexivity.
Qed.

Lemma insert_sorted_last (x : Q) (s : list Q) :
  Forall (fun y => y < x) s -> insert_sorted x s = s ++ [x].
Proof.
  induction s as [|y s IH]; intros H; [reflexivity|]. simpl.
  pose proof (Forall_inv H) as Hy. apply fle_false in Hy. rewrite Hy.
  rewrite IH; [reflexivity|]. exact (Forall_inv_tail H).
Qed.

(** Sorting an ascending array leaves it as it is. *)
Lemma sort_floats_ascending (a : list Q) :
  StronglySorted Qle a -> sort_floats a = a.
Proof.
  induction 1 as [|x a Hs IH Hall]; [reflexivity|].
  simpl. rewrite IH. apply insert_sorted_head. exact Hall.
Qed.

(** Sorting a strictly descending array reverses it. *)
Lemma sort_floats_descending (a : list Q) :
  StronglySorted (fun x y => y < x) a -> sort_floats a = rev a.
Proof.
  induction 1 as [|x a Hs IH Hall]; [reflexivity|].
  simpl. rewrite IH. apply insert_sorted_last.
  rewrite Forall_forall in *. intros y Hy. apply Hall.
  apply in_rev. exact Hy.
Qed.

Variables a b : Q.

Local Abbreviation on_line := (Estimator.on_line a b).

Lemma on_line_nth (idx : list Z) (errs : list Q) :
  Forall2 on_line idx errs ->
  forall k, (k < length idx)%nat ->
    nth k errs 0 == a + b * nth k (map inject_Z idx) 0.
Proof.
  induction 1 as [|i e idx errs Hie _ IH]; intros k Hk; simpl in *.
  - lia.
  - destruct k as [|k]; [exact Hie|]. apply IH. lia.
Qed.

Lemma indices_ascending (idx : list Z) :
  StronglySorted Z.lt idx -> StronglySorted Qle (map inject_Z idx).
Proof.
  induction 1 as [|i idx Hs IH Hall]; simpl; constructor; auto.
  rewrite Forall_forall in *. intros q Hq.
  apply in_map_iff in Hq. destruct Hq as (j & <- & Hj).
  rewrite <- Zle_Qle. specialize (Hall j Hj). lia.
Qed.

Lemma line_above (i : Z) (e : Q) (idx : list Z) (errs : list Q) :
  0 <= b -> on_line i e -> Forall (Z.lt i) idx ->
  Forall2 on_line idx errs -> Forall (Qle e) errs.
Proof.
  intros Hb He Hall H. induction H as [|j e' idx errs Hje _ IH].
  - constructor.
  - constructor; [|apply IH; exact (Forall_inv_tail Hall)].
    apply Forall_inv in Hall. unfold on_line in *.
    assert (Hq : inject_Z i <= inject_Z j) by (rewrite <- Zle_Qle; lia).
    rewrite He, Hje. nra.
Qed.

Lemma line_below (i : Z) (e : Q) (idx : list Z) (errs : list Q) :
  b < 0 -> on_line i e -> Forall (Z.lt i) idx ->
  Forall2 on_line idx errs -> Forall (fun y => y < e) errs.
Proof.
  intros Hb He Hall H. induction H as [|j e' idx errs Hje _ IH].
  - constructor.
  - constructor; [|apply IH; exact (Forall_inv_tail Hall)].
    apply Forall_inv in Hall. unfold on_line in *.
    assert (Hq : inject_Z i < inject_Z j) by (rewrite <- Zlt_Qlt; lia).
    rewrite He, Hje. nra.
Qed.

Lemma errors_ascending (idx : list Z) (errs : list Q) :
  0 <= b -> StronglySorted Z.lt idx -> Forall2 on_line idx errs ->
  StronglySorted Qle errs.
Proof.
  intros Hb Hs H. induction H as [|i e idx errs Hie H IH].
  - constructor.
  - apply StronglySorted_inv in Hs. destruct Hs as [Hs Hall].
    constructor; [apply IH; exact Hs|].
    eapply line_above; eauto.
Qed.

Lemma errors_descending (idx : list Z) (errs : list Q) :
  b < 0 -> StronglySorted Z.lt idx -> Forall2 on_line idx errs ->
  StronglySorted (fun x y => y < x) errs.
Proof.
  intros Hb Hs H. induction H as [|i e idx errs Hie H IH].
  - constructor.
  - apply StronglySorted_inv in Hs. destruct Hs as [Hs Hall].
    constructor; [apply IH; exact Hs|].
    eapply line_below; eauto.
Qed.

Lemma np_median_cons (x : Q) (l : list Q) :
  np_median (x :: l) =
  let s := sort_floats (x :: l) in
  let n := length (x :: l) in
  Some (if Nat.even n then (nth (n / 2 - 1) s 0 + nth (n / 2) s 0) / 2
        else nth (n / 2) s 0).
Proof.
  unfold np_median. cbv zeta. destruct (Nat.even _); reflexivity.
Qed.

(** The median commutes with the line: the median of the errors is the
    line's value at the median of the beat indexes. *)
Lemma median_on_line (idx : list Z) (errs : list Q) :
  idx <> [] -> StronglySorted Z.lt idx -> Forall2 on_line idx errs ->
  exists mx my,
    np_median (map inject_Z idx) = Some mx
    /\ np_median errs = Some my
    /\ my == a + b * mx.
Proof.
  intros Hne Hs H.
  pose proof (Forall2_length H) as Hlen.
  pose proof (on_line_nth idx errs H) as Hnth.
  pose proof (sort_floats_ascending _ (indices_ascending idx Hs)) as Hsx.
  destruct idx as [|i idx]; [contradiction|].
  destruct errs as [|e errs]; [discriminate|].
  set (xs := map inject_Z (i :: idx)) in *.
  set (ys := e :: errs) in *.
  assert (Hlx : length xs = length ys)
    by (unfold xs; rewrite length_map; exact Hlen).
  assert (Hpos : (0 < length ys)%nat) by (simpl; lia).
  set (n := length ys) in *.
  change (np_median xs) with (np_median (inject_Z i :: map inject_Z idx)).
  unfold ys at 1. rewrite !np_median_cons. cbv zeta.
  change (inject_Z i :: map inject_Z idx) with xs.
  change (e :: errs) with ys. rewrite Hsx, Hlx. fold n.
  rewrite Hlen in Hnth. fold n in Hnth.
  destruct (Qlt_le_dec b 0) as [Hb|Hb].
  - rewrite (sort_floats_descending ys (errors_descending _ _ Hb Hs H)).
    destruct (Nat.even n) eqn:En.
    + apply Nat.even_spec in En. destruct En as [m Hm].
      assert (Hhalf : (n / 2 = m)%nat)
        by (rewrite Hm, Nat.mul_comm; apply Nat.div_mul; lia).
      rewrite Hhalf.
      do 2 eexists. split; [reflexivity|]. split; [reflexivity|].
      rewrite !rev_nth by (fold n; lia). fold n.
      replace (n - S (m - 1))%nat with m by lia.
      replace (n - S m)%nat with (m - 1)%nat by lia.
      rewrite (Hnth m), (Hnth (m - 1)%nat) by lia. field.
    + do 2 eexists. split; [reflexivity|]. split; [reflexivity|].
      assert (Hodd : Nat.odd n = true)
        by (rewrite <- Nat.negb_even, En; reflexivity).
      apply Nat.odd_spec in Hodd. destruct Hodd as [m Hm].
      assert (Hhalf : (n / 2 = m)%nat).
      { rewrite Hm. rewrite Nat.add_comm, Nat.mul_comm.
        rewrite Nat.div_add by lia. reflexivity. }
      rewrite Hhalf.
      rewrite rev_nth by (fold n; lia). fold n.
      replace (n - S m)%nat with m by lia.
      apply Hnth. lia.
  - rewrite (sort_floats_ascending ys (errors_ascending _ _ Hb Hs H)).
    assert (Hhalf : (n / 2 < n)%nat) by (apply Nat.div_lt; lia).
    destruct (Nat.even n).
    + do 2 eexists. split; [reflexivity|]. split; [reflexivity|].
      rewrite (Hnth (n / 2)%nat), (Hnth (n / 2 - 1)%nat) by lia. field.
    + do 2 eexists. split; [reflexivity|]. split; [reflexivity|].
      apply Hnth. lia.
Qed.

Lemma dot_self_nonneg (u : list Q) : 0 <= dot u u.
Proof.
  unfold dot. induction u as [|x u IH]; simpl; [lra|].
  pose proof (Qsquare_nonneg x). lra.
Qed.

Lemma dot_on_line (u v : list Q) :
  Forall2 (fun x y => y == b * x) u v -> dot u v == b * dot u u.
Proof.
  unfold dot. induction 1 as [|x y u v Hxy _ IH]; simpl; [ring|].
  rewrite IH, Hxy. ring.
Qed.

Lemma centred_on_line (idx : list Z) (errs : list Q) (mx my : Q) :
  my == a + b * mx -> Forall2 on_line idx errs ->
  Forall2 (fun x y => y == b * x)
    (map (fun v => v - mx) (map inject_Z idx))
    (map (fun v => v - my) errs).
Proof.
  intros Hm. induction 1 as [|i e idx errs Hie _ IH]; simpl; constructor.
  - unfold Estimator.on_line in Hie. rewrite Hie, Hm. ring.
  - exact IH.
Qed.

(** Two distinct beat indexes keep the denominator away from 0. *)
Lemma denom_large (i j : Z) (idx : list Z) (mx : Q) :
  (i < j)%Z ->
  1 # 2 <= dot (map (fun v => v - mx) (map inject_Z (i :: j :: idx)))
             (map (fun v => v - mx) (map inject_Z (i :: j :: idx))).
Proof.
  intros Hij. unfold dot. simpl.
  pose proof (dot_self_nonneg
                (map (fun v => v - mx) (map inject_Z idx))) as Hrest.
  unfold dot in Hrest.
  assert (Hq : inject_Z i + 1 <= inject_Z j).
  { change 1 with (inject_Z 1). rewrite <- inject_Z_plus, <- Zle_Qle. lia. }
  remember (fold_right Qplus 0 _) as r eqn:Hr. clear Hr.
  remember (inject_Z i - mx) as u eqn:Hu.
  remember (inject_Z j - mx) as v eqn:Hv.
  assert (Huv : 1 <= v - u) by (rewrite Hu, Hv; lra).
  clear Hu Hv.
  pose proof (Qsquare_nonneg (u + v)) as H1.
  assert (H2 : 1 <= (v - u) * (v - u)) by nra.
  assert (H3 : (u + v) * (u + v) + (v - u) * (v - u)
               == 2 * (u * u + v * v)) by ring.
  lra.
Qed.

End EstimatorFacts.

Lemma slope_needs_six (idx : list Z) (errs : list Q) :
  (len idx < 6)%Z -> Estimator.robust_slope_s_per_beat idx errs = 0.
Proof.
  intros H. unfold Estimator.robust_slope_s_per_beat.
  replace (len (map inject_Z idx) <? 6)%Z with true; [reflexivity|].
  symmetry. apply Z.ltb_lt. unfold len in *. rewrite length_map. exact H.
Qed.

(** In exact arithmetic, for a window whose beat indexes increase (as
    those of the rolling window do) and whose errors lie exactly on a
    line [e(i) = a + b * i], the formula of [robust_slope_s_per_beat]
    gives [b], whatever the intercept [a], when the window holds at
    least 6 samples, and 0 when it holds fewer. *)
Lemma exact_slope_on_line (a b : Q) (idx : list Z) (errs : list Q) :
  StronglySorted Z.lt idx ->
  Forall2 (Estimator.on_line a b) idx errs ->
  Estimator.robust_slope_s_per_beat idx errs
  == if (len idx <? 6)%Z then 0 else b.
Proof.
  intros Hs H.
  destruct (len idx <? 6)%Z eqn:E6.
  { apply Z.ltb_lt in E6. rewrite slope_needs_six by exact E6. reflexivity. }
  apply Z.ltb_ge in E6.
  destruct idx as [|i [|j idx]]; try (unfold len in E6; simpl in E6; lia).
  destruct (median_on_line a b (i :: j :: idx) errs) as (mx & my & Hx & Hy & Hm);
    [discriminate|exact Hs|exact H|].
  unfold Estimator.robust_slope_s_per_beat, Estimator.centre.
  replace (len (map inject_Z (i :: j :: idx)) <? 6)%Z with false.
  2:{ symmetry. apply Z.ltb_ge. unfold len in *. rewrite length_map.
      exact E6. }
  rewrite Hx, Hy.
  assert (Hij : (i < j)%Z).
  { apply StronglySorted_inv in Hs. destruct Hs as [_ Hall].
    apply Forall_inv in Hall. exact Hall. }
  pose proof (denom_large i j idx mx Hij) as Hden.
  pose proof (dot_on_line b _ _ (centred_on_line a b _ _ mx my Hm H)) as Hdot.
  set (x0 := map (fun v => v - mx) (map inject_Z (i :: j :: idx))) in *.
  set (y0 := map (fun v => v - my) errs) in *.
  destruct (fle (Estimator.dot x0 x0) 1e-12) eqn:Ed; float_tests.
  - exfalso. revert Hden Ed. generalize (Estimator.dot x0 x0). intros d.
    unfold Qle. simpl. lia.
  - rewrite Hdot. field. intros H0. rewrite H0 in Hden.
    revert Hden. unfold Qle. simpl. lia.
Qed.

(** ** The rolling window *)

Section WindowFacts.
Import Core.

Lemma deque_append_len {A : Type} (m : Z) (q : list A) (x : A) :
  (len q <= len (deque_append m q x))%Z
  /\ ((len q <= m)%Z -> (len (deque_append m q x) <= m)%Z).
Proof.
  assert (Htl : length (tl (q ++ [x])) = length q).
  { destruct q; simpl; rewrite ?length_app; simpl; lia. }
  unfold deque_append, len.
  destruct (m <? _)%Z eqn:E.
  - apply Z.ltb_lt in E. rewrite length_app in E. simpl in E.
    rewrite Htl. lia.
  - apply Z.ltb_ge in E. rewrite length_app in *. simpl in *. lia.
Qed.

(** Below capacity an append evicts nothing. *)
Lemma deque_append_below {A : Type} (m : Z) (q : list A) (x : A) :
  (len q < m)%Z -> deque_append m q x = q ++ [x].
Proof.
  intros H. unfold deque_append.
  replace (m <? len (q ++ [x]))%Z with false; [reflexivity|].
  symmetry. apply Z.ltb_ge. unfold len in *. rewrite length_app. simpl. lia.
Qed.

(** At capacity an append evicts the oldest entry. *)
Lemma deque_append_full {A : Type} (m : Z) (q : list A) (x : A) :
  (0 < m)%Z -> len q = m -> deque_append m q x = tl q ++ [x].
Proof.
  intros Hm H. unfold deque_append.
  replace (m <? len (q ++ [x]))%Z with true.
  - destruct q; [unfold len in H; simpl in H; lia|reflexivity].
  - symmetry. apply Z.ltb_lt. unfold len in *. rewrite length_app. simpl. lia.
Qed.

Lemma deque_append_length_eq {A B : Type} (m : Z) (q : list A) (r : list B)
    (x : A) (y : B) :
  length q = length r ->
  length (deque_append m q x) = length (deque_append m r y).
Proof.
  intros H. unfold deque_append, len. rewrite !length_app, H. simpl.
  destruct (m <? _)%Z; [|rewrite !length_app; simpl; lia].
  destruct q, r; try discriminate; simpl in *;
    rewrite ?length_app; simpl; lia.
Qed.

Variable cfg : config.
Variable onset_times : list Q.

(** The fields [match_beat] leaves alone, and what it does to the two
    deques. *)
Lemma match_beat_fields (s : state) :
  let m := fst (match_beat cfg onset_times s) in
  let s1 := snd (match_beat cfg onset_times s) in
  bpm s1 = bpm s /\ interval s1 = interval s /\ t0 s1 = t0 s
  /\ points s1 = points s /\ last_point_time s1 = last_point_time s
  /\ eval_streak_offset s1 = eval_streak_offset s
  /\ eval_streak_drift s1 = eval_streak_drift s
  /\ beat_idx s1 = beat_idx s /\ t s1 = t s
  /\ err_q s1 =
       match m with
       | Some v => deque_append (maxlen cfg) (err_q s) (v - t s)
       | None => err_q s
       end
  /\ idx_q s1 =
       match m with
       | Some _ => deque_append (maxlen cfg) (idx_q s) (beat_idx s)
       | None => idx_q s
       end.
Proof.
  unfold match_beat.
  destruct (Matcher.find_nearest_onset _ _ _ _) as [[v|] h]; simpl;
    repeat split; reflexivity.
Qed.

(** What one turn does to the timing points and the grid: nothing, or
    one of the two emissions. *)
Lemma act_cases (matched : option Q) (s : state) :
  act cfg matched s = s
  \/ (exists a, anchor_time matched s = Some a
                /\ gap_ok cfg (Some a) s = true
                /\ (act cfg matched s = emit_drift a s
                    \/ act cfg matched s = emit_jump a s)).
Proof.
  unfold act.
  destruct (persist cfg <=? eval_streak_drift s)%Z.
  - destruct (isfinite _ && fle _ _); [|left; reflexivity].
    destruct (anchor_time matched s) as [a|]; [|left; reflexivity].
    destruct (gap_ok cfg (Some a) s) eqn:E; [|left; reflexivity].
    right. exists a. auto.
  - destruct (persist cfg <=? eval_streak_offset s)%Z; [|left; reflexivity].
    destruct (anchor_time matched s) as [a|]; [|left; reflexivity].
    destruct (gap_ok cfg (Some a) s) eqn:E; [|left; reflexivity].
    right. exists a. auto.
Qed.

(** The state [act] is applied to, or the state after matching when the
    classifier does not run. *)
Lemma loop_body_cases (s : state) :
  let m := fst (match_beat cfg onset_times s) in
  let s1 := snd (match_beat cfg onset_times s) in
  loop_body cfg onset_times s = next_beat s1
  \/ loop_body cfg onset_times s = next_beat (classify cfg s1)
  \/ (exists a, anchor_time m (classify cfg s1) = Some a
                /\ gap_ok cfg (Some a) (classify cfg s1) = true
                /\ (loop_body cfg onset_times s
                      = next_beat (emit_drift a (classify cfg s1))
                    \/ loop_body cfg onset_times s
                      = next_beat (emit_jump a (classify cfg s1)))).
Proof.
  unfold loop_body.
  destruct (match_beat cfg onset_times s) as [m s1]. simpl.
  destruct (evaluates cfg s1); [|left; reflexivity].
  destruct (act_cases m (classify cfg s1)) as [H|(a & Ha & Hg & [H|H])];
    rewrite H.
  - right. left. reflexivity.
  - right. right. exists a. auto.
  - right. right. exists a. auto.
Qed.

(** A property of the loop state that holds on entry and is kept by
    every turn holds at every loop head. *)
Lemma reachable_ind_inv (P : state -> Prop) (duration : Q) (s0 s : state) :
  P s0 ->
  (forall s', P s' -> loop_cond cfg duration s' = true ->
              P (loop_body cfg onset_times s')) ->
  reachable cfg onset_times duration s0 s -> P s.
Proof.
  intros H0 Hstep Hr. induction Hr; auto.
Qed.

(** The same for the state the loop ends in. *)
Lemma run_loop_inv (P : state -> Prop) (duration : Q) :
  (forall s', P s' -> loop_cond cfg duration s' = true ->
              P (loop_body cfg onset_times s')) ->
  forall fuel s s',
    run_loop fuel cfg onset_times duration s = Some s' ->
    P s -> P s' /\ loop_cond cfg duration s' = false.
Proof.
  intros Hstep. induction fuel as [|fuel IH]; intros s s' Hrun Hs.
  - discriminate.
  - simpl in Hrun. destruct (loop_cond cfg duration s) eqn:Ec.
    + apply (IH _ _ Hrun). apply Hstep; assumption.
    + inversion Hrun; subst. auto.
Qed.

Local Abbreviation window_inv := (Core.window_inv cfg).

Lemma match_beat_window (s : state) :
  window_inv s -> window_inv (snd (match_beat cfg onset_times s)).
Proof.
  intros [Hp Hc]. unfold window_inv.
  destruct (match_beat_fields s)
    as (_ & _ & _ & _ & _ & _ & _ & _ & _ & He & Hi).
  rewrite He, Hi. destruct (fst (match_beat cfg onset_times s)).
  - split; [apply deque_append_length_eq; exact Hp|].
    apply deque_append_len. exact Hc.
  - auto.
Qed.

Lemma loop_body_window (s : state) :
  window_inv s -> window_inv (loop_body cfg onset_times s).
Proof.
  intros H. apply match_beat_window in H.
  destruct (loop_body_cases s) as [E|[E|(a & _ & _ & [E|E])]];
    rewrite E; unfold Core.window_inv in *; simpl; auto;
    (split; [reflexivity|unfold maxlen, len; simpl; lia]).
Qed.

End WindowFacts.

(** ** The turns of the main loop *)

(** The state the loop ends in is one of its loop heads. *)
Lemma run_loop_reachable (cfg : Core.config) (onset_times : list Q)
    (duration : Q) (fuel : nat) (s0 s s' : Core.state) :
  Core.reachable cfg onset_times duration s0 s ->
  Core.run_loop fuel cfg onset_times duration s = Some s' ->
  Core.reachable cfg onset_times duration s0 s'.
Proof.
  revert s. induction fuel as [|fuel IH]; intros s Hr Hrun; [discriminate|].
  simpl in Hrun. destruct (Core.loop_cond cfg duration s) eqn:Ec.
  - apply (IH (Core.loop_body cfg onset_times s)); [|exact Hrun].
    apply Core.reach_turn; assumption.
  - inversion Hrun; subst. exact Hr.
Qed.

Lemma reachable_window (cfg : Core.config) (onset_times : list Q)
    (duration : Q) (s0 s : Core.state) :
  Core.window_inv cfg s0 ->
  Core.reachable cfg onset_times duration s0 s ->
  Core.window_inv cfg s.
Proof.
  intros H0 Hr.
  apply (reachable_ind_inv cfg onset_times (Core.window_inv cfg)
           duration s0 s H0); [|exact Hr].
  intros s' Hs' _. apply loop_body_window. exact Hs'.
Qed.

Lemma window_inv_empty (cfg : Core.config) (s : Core.state) :
  Core.err_q s = [] -> Core.idx_q s = [] -> Core.window_inv cfg s.
Proof.
  intros He Hi. unfold Core.window_inv, Core.maxlen, len.
  rewrite He, Hi. simpl. lia.
Qed.

(** The loop head after [n] turns is reachable when the loop test holds
    at each of the loop heads before it. *)
Lemma turns_reachable (cfg : Core.config) (onset_times : list Q)
    (duration : Q) (n : nat) (s0 : Core.state) :
  forallb (fun k => Core.loop_cond cfg duration
                      (RunSamples.turns cfg onset_times k s0))
    (seq 0 n) = true ->
  Core.reachable cfg onset_times duration s0
    (RunSamples.turns cfg onset_times n s0).
Proof.
  induction n as [|n IH]; intros H; [apply Core.reach_entry|].
  rewrite seq_S, forallb_app in H. apply andb_true_iff in H.
  destruct H as [Hn Hlast]. simpl in Hlast.
  rewrite andb_true_r in Hlast.
  change (RunSamples.turns cfg onset_times (S n) s0)
    with (Core.loop_body cfg onset_times
            (RunSamples.turns cfg onset_times n s0)).
  apply Core.reach_turn; [apply IH; exact Hn|exact Hlast].
Qed.

(** C2, as amended.  The rolling window of matched (beat index, error)
    pairs is a bounded FIFO whose capacity is
    [max(8, decision_window)]: at every loop head, and after the match
    of that beat, it holds at most that many entries; a match appended
    below that capacity evicts nothing, and a match appended at that
    capacity evicts the oldest entry. *)
Theorem rolling_window_capacity (cfg : Core.config) (onset_times : list Q)
    (duration : Q) (s0 s : Core.state) :
  Core.err_q s0 = [] -> Core.idx_q s0 = [] ->
  Core.reachable cfg onset_times duration s0 s ->
  let cap := Z.max 8 (Core.decision_window cfg) in
  let s1 := snd (Core.match_beat cfg onset_times s) in
  (len (Core.err_q s) <= cap)%Z /\ (len (Core.idx_q s) <= cap)%Z
  /\ (len (Core.err_q s1) <= cap)%Z /\ (len (Core.idx_q s1) <= cap)%Z
  /\ forall v, fst (Core.match_beat cfg onset_times s) = Some v ->
       ((len (Core.err_q s) < cap)%Z ->
        Core.err_q s1 = Core.err_q s ++ [v - Core.t s]
        /\ Core.idx_q s1 = Core.idx_q s ++ [Core.beat_idx s])
       /\ (len (Core.err_q s) = cap ->
           Core.err_q s1 = tl (Core.err_q s) ++ [v - Core.t s]
           /\ Core.idx_q s1 = tl (Core.idx_q s) ++ [Core.beat_idx s]).
Proof.
  intros He Hi Hr cap s1.
  pose proof (reachable_window cfg onset_times duration s0 s
                (window_inv_empty cfg s0 He Hi) Hr) as Hw.
  pose proof (match_beat_window cfg onset_times s Hw) as Hw1.
  fold s1 in Hw1. destruct Hw as [Hp Hc]. destruct Hw1 as [Hp1 Hc1].
  change (Core.maxlen cfg) with cap in *.
  assert (Hli : len (Core.idx_q s) = len (Core.err_q s))
    by (unfold len; rewrite Hp; reflexivity).
  assert (Hli1 : len (Core.idx_q s1) = len (Core.err_q s1))
    by (unfold len; rewrite Hp1; reflexivity).
  split; [exact Hc|]. split; [lia|]. split; [exact Hc1|]. split; [lia|].
  intros v Hv.
  destruct (match_beat_fields cfg onset_times s)
    as (_ & _ & _ & _ & _ & _ & _ & _ & _ & Hse & Hsi).
  fold s1 in Hse, Hsi. rewrite Hv in Hse, Hsi.
  change (Core.maxlen cfg) with cap in *.
  split; intros Hlen; rewrite Hse, Hsi.
  - split; apply deque_append_below; lia.
  - split; apply deque_append_full; lia.
Qed.

Lemma rolling_window_capacity_witness :
  let cfg := Samples.narrow_config in
  let o := RunSamples.ten_onsets in
  let cap := Z.max 8 (Core.decision_window cfg) in
  let s2 := RunSamples.turns cfg o 2 RunSamples.start_state in
  let s8 := RunSamples.turns cfg o 8 RunSamples.start_state in
  let s2' := snd (Core.match_beat cfg o s2) in
  let s8' := snd (Core.match_beat cfg o s8) in
  (fst (Core.match_beat cfg o s2) = Some 1
   /\ (len (Core.err_q s2) < cap)%Z
   /\ Core.err_q s2' = Core.err_q s2 ++ [1 - Core.t s2]
   /\ Core.idx_q s2' = Core.idx_q s2 ++ [Core.beat_idx s2]
   /\ (len (Core.err_q s2') <= cap)%Z)
  /\ (fst (Core.match_beat cfg o s8) = Some 4
      /\ len (Core.err_q s8) = cap
      /\ Core.err_q s8' = tl (Core.err_q s8) ++ [4 - Core.t s8]
      /\ Core.idx_q s8' = tl (Core.idx_q s8) ++ [Core.beat_idx s8]
      /\ (len (Core.err_q s8') <= cap)%Z).
Proof.
  intros cfg o cap s2 s8 s2' s8'.
  assert (Hm2 : fst (Core.match_beat cfg o s2) = Some 1)
    by (vm_compute; reflexivity).
  assert (Hm8 : fst (Core.match_beat cfg o s8) = Some 4)
    by (vm_compute; reflexivity).
  assert (Hl2 : (len (Core.err_q s2) < cap)%Z) by (vm_compute; reflexivity).
  assert (Hl8 : len (Core.err_q s8) = cap) by (vm_compute; reflexivity).
  assert (Hr2 : Core.reachable cfg o 10 RunSamples.start_state s2)
    by (apply turns_reachable; vm_compute; reflexivity).
  assert (Hr8 : Core.reachable cfg o 10 RunSamples.start_state s8)
    by (apply turns_reachable; vm_compute; reflexivity).
  split.
  - destruct (rolling_window_capacity cfg o 10 RunSamples.start_state s2
                eq_refl eq_refl Hr2) as (_ & _ & Hc & _ & Hv).
    destruct (Hv 1 Hm2) as [Hbelow _]. destruct (Hbelow Hl2) as [He Hi].
    exact (conj Hm2 (conj Hl2 (conj He (conj Hi Hc)))).
  - destruct (rolling_window_capacity cfg o 10 RunSamples.start_state s8
                eq_refl eq_refl Hr8) as (_ & _ & Hc & _ & Hv).
    destruct (Hv 4 Hm8) as [_ Hfull]. destruct (Hfull Hl8) as [He Hi].
    exact (conj Hm8 (conj Hl8 (conj He (conj Hi Hc)))).
Defined.

(** C2, as stated, fails: with [decision_window = 4] and six onsets on
    the grid, the loop ends with six entries in the window: the capacity
    is not the configured 4. *)
Lemma window_outgrows_decision_window :
  Core.decision_window Samples.narrow_config = 4%Z
  /\ option_map (fun s => len (Core.err_q s))
       (Core.final_state 50 Samples.narrow_config Samples.grid_onsets
          120 0 2.75)
     = Some 6%Z.
Proof.
  split; [reflexivity|]. vm_compute. reflexivity.
Qed.

Lemma match_beat_paired (cfg : Core.config) (onset_times : list Q)
    (s : Core.state) :
  length (Core.err_q s) = length (Core.idx_q s) ->
  length (Core.err_q (snd (Core.match_beat cfg onset_times s)))
  = length (Core.idx_q (snd (Core.match_beat cfg onset_times s))).
Proof.
  intros Hp.
  destruct (match_beat_fields cfg onset_times s)
    as (_ & _ & _ & _ & _ & _ & _ & _ & _ & He & Hi).
  rewrite He, Hi. destruct (fst (Core.match_beat cfg onset_times s)).
  - apply deque_append_length_eq. exact Hp.
  - exact Hp.
Qed.

Lemma loop_body_paired (cfg : Core.config) (onset_times : list Q)
    (s : Core.state) :
  length (Core.err_q s) = length (Core.idx_q s) ->
  length (Core.err_q (Core.loop_body cfg onset_times s))
  = length (Core.idx_q (Core.loop_body cfg onset_times s)).
Proof.
  intros H. apply (match_beat_paired cfg onset_times) in H.
  destruct (loop_body_cases cfg onset_times s)
    as [E|[E|(a & _ & _ & [E|E])]];
    rewrite E; simpl; auto.
Qed.

Lemma combine_snoc {A B : Type} (l1 : list A) (l2 : list B) (a : A) (b : B) :
  length l1 = length l2 ->
  combine (l1 ++ [a]) (l2 ++ [b]) = combine l1 l2 ++ [(a, b)].
Proof.
  revert l2. induction l1 as [|x l1 IH]; intros [|y l2] H;
    try discriminate; simpl; [reflexivity|].
  rewrite IH by (simpl in H; lia). reflexivity.
Qed.

Lemma combine_tl {A B : Type} (l1 : list A) (l2 : list B) :
  combine (tl l1) (tl l2) = tl (combine l1 l2).
Proof.
  destruct l1 as [|x l1], l2 as [|y l2]; simpl; try reflexivity.
  destruct l1; reflexivity.
Qed.

(** An append to a deque with a positive [maxlen], written out: the
    oldest entry leaves when the deque is full. *)
Lemma deque_append_explicit {A : Type} (m : Z) (q : list A) (x : A) :
  (0 < m)%Z ->
  Core.deque_append m q x = (if (m <=? len q)%Z then tl q else q) ++ [x].
Proof.
  intros Hm. unfold Core.deque_append.
  replace (len (q ++ [x])) with (len q + 1)%Z
    by (unfold len; rewrite length_app; simpl; lia).
  destruct (m <=? len q)%Z eqn:E.
  - apply Z.leb_le in E.
    replace (m <? len q + 1)%Z with true by (symmetry; apply Z.ltb_lt; lia).
    destruct q; [unfold len in E; simpl in E; lia|reflexivity].
  - apply Z.leb_gt in E.
    replace (m <? len q + 1)%Z with false by (symmetry; apply Z.ltb_ge; lia).
    reflexivity.
Qed.

(** What one turn does to the two deques and to the timing points:
    either it appends no timing point and leaves the deques as they are
    after the match, or it appends one and empties both deques. *)
Lemma loop_body_windows (cfg : Core.config) (onset_times : list Q)
    (s : Core.state) :
  let s1 := snd (Core.match_beat cfg onset_times s) in
  let s' := Core.loop_body cfg onset_times s in
  (Core.points s' = Core.points s
   /\ Core.err_q s' = Core.err_q s1 /\ Core.idx_q s' = Core.idx_q s1)
  \/ ((exists p, Core.points s' = Core.points s ++ [p])
      /\ Core.err_q s' = [] /\ Core.idx_q s' = []).
Proof.
  intros s1 s'.
  destruct (match_beat_fields cfg onset_times s)
    as (_ & _ & _ & Hp & _).
  fold s1 in Hp. unfold s'.
  destruct (loop_body_cases cfg onset_times s)
    as [E|[E|(a & _ & _ & [E|E])]]; rewrite E; simpl.
  - left. auto.
  - left. auto.
  - right. fold s1. rewrite Hp. split; [eexists; reflexivity|auto].
  - right. fold s1. rewrite Hp. split; [eexists; reflexivity|auto].
Qed.

(** C10.  Throughout the simulation loop the error deque and the
    beat-index deque are one window of (beat index, error) pairs.  At
    every loop head reachable from a state where they have equal
    length: they have equal length; a beat without a match leaves both
    untouched; a beat with the match [v] appends the error [v - t] to
    the one and the beat index of that beat to the other, the oldest
    entry of both leaving when they hold [max(8, decision_window)]
    entries, so the pairs of the window are the old pairs followed by
    the pair of this beat; after the match they have equal length
    again; and the turn either appends no timing point and keeps both
    deques, or appends one timing point and empties both. *)
Theorem windows_paired (cfg : Core.config) (onset_times : list Q)
    (duration : Q) (s0 s : Core.state) :
  length (Core.err_q s0) = length (Core.idx_q s0) ->
  Core.reachable cfg onset_times duration s0 s ->
  let full := (Z.max 8 (Core.decision_window cfg) <=? len (Core.err_q s))%Z in
  let m := fst (Core.match_beat cfg onset_times s) in
  let s1 := snd (Core.match_beat cfg onset_times s) in
  let s' := Core.loop_body cfg onset_times s in
  length (Core.err_q s) = length (Core.idx_q s)
  /\ (m = None ->
      Core.err_q s1 = Core.err_q s /\ Core.idx_q s1 = Core.idx_q s)
  /\ (forall v, m = Some v ->
      Core.err_q s1
      = (if full then tl (Core.err_q s) else Core.err_q s)
        ++ [v - Core.t s]
      /\ Core.idx_q s1
         = (if full then tl (Core.idx_q s) else Core.idx_q s)
           ++ [Core.beat_idx s]
      /\ combine (Core.idx_q s1) (Core.err_q s1)
         = (if full then tl (combine (Core.idx_q s) (Core.err_q s))
            else combine (Core.idx_q s) (Core.err_q s))
           ++ [(Core.beat_idx s, v - Core.t s)])
  /\ length (Core.err_q s1) = length (Core.idx_q s1)
  /\ ((Core.points s' = Core.points s
       /\ Core.err_q s' = Core.err_q s1 /\ Core.idx_q s' = Core.idx_q s1)
      \/ ((exists p, Core.points s' = Core.points s ++ [p])
          /\ Core.err_q s' = [] /\ Core.idx_q s' = [])).
Proof.
  intros Hp Hr full m s1 s'.
  assert (Hs : length (Core.err_q s) = length (Core.idx_q s)).
  { apply (reachable_ind_inv cfg onset_times
             (fun x => length (Core.err_q x) = length (Core.idx_q x))
             duration s0 s Hp); [|exact Hr].
    intros x Hx _. apply loop_body_paired. exact Hx. }
  destruct (match_beat_fields cfg onset_times s)
    as (_ & _ & _ & _ & _ & _ & _ & _ & _ & He & Hi).
  fold s1 m in He, Hi.
  assert (Hcap : (0 < Core.maxlen cfg)%Z) by (unfold Core.maxlen; lia).
  assert (Hlen : len (Core.idx_q s) = len (Core.err_q s))
    by (unfold len; rewrite Hs; reflexivity).
  split; [exact Hs|].
  split; [intros Hm; rewrite Hm in He, Hi; auto|].
  split.
  { intros v Hm. rewrite Hm in He, Hi.
    rewrite deque_append_explicit in He by exact Hcap.
    rewrite deque_append_explicit in Hi by exact Hcap.
    rewrite Hlen in Hi.
    change (Core.maxlen cfg <=? len (Core.err_q s))%Z with full in He, Hi.
    split; [exact He|]. split; [exact Hi|].
    rewrite He, Hi. destruct full.
    - rewrite combine_snoc, combine_tl; [reflexivity|].
      destruct (Core.idx_q s), (Core.err_q s); simpl in *; lia.
    - rewrite combine_snoc; [reflexivity|symmetry; exact Hs]. }
  split; [apply match_beat_paired; exact Hs|].
  apply loop_body_windows.
Qed.

Lemma windows_paired_witness :
  let cfg := RunSamples.quick_config in
  let o := RunSamples.shifted_onsets in
  let s := RunSamples.turns cfg o 4 RunSamples.start_state in
  let s1 := snd (Core.match_beat cfg o s) in
  let s' := Core.loop_body cfg o s in
  let cfg8 := Samples.narrow_config in
  let o8 := RunSamples.ten_onsets in
  let s8 := RunSamples.turns cfg8 o8 8 RunSamples.start_state in
  let s9 := snd (Core.match_beat cfg8 o8 s8) in
  (fst (Core.match_beat cfg o s) = Some 2.03
   /\ Core.idx_q s = [0; 1; 2; 3]%Z
   /\ length (Core.err_q s) = length (Core.idx_q s)
   /\ Core.err_q s1 = Core.err_q s ++ [2.03 - Core.t s]
   /\ Core.idx_q s1 = Core.idx_q s ++ [4%Z]
   /\ combine (Core.idx_q s1) (Core.err_q s1)
      = combine (Core.idx_q s) (Core.err_q s) ++ [(4%Z, 2.03 - Core.t s)]
   /\ (exists p, Core.points s' = Core.points s ++ [p])
   /\ Core.err_q s' = [] /\ Core.idx_q s' = [])
  /\ (fst (Core.match_beat cfg8 o8 s8) = Some 4
      /\ Core.idx_q s8 = [0; 1; 2; 3; 4; 5; 6; 7]%Z
      /\ Core.idx_q s9 = [1; 2; 3; 4; 5; 6; 7; 8]%Z
      /\ combine (Core.idx_q s9) (Core.err_q s9)
         = tl (combine (Core.idx_q s8) (Core.err_q s8))
           ++ [(8%Z, 4 - Core.t s8)]
      /\ length (Core.err_q s9) = length (Core.idx_q s9)).
Proof.
  intros cfg o s s1 s' cfg8 o8 s8 s9.
  split.
  - assert (Hm : fst (Core.match_beat cfg o s) = Some 2.03)
      by (vm_compute; reflexivity).
    assert (Hi : Core.idx_q s = [0; 1; 2; 3]%Z) by (vm_compute; reflexivity).
    assert (Hr : Core.reachable cfg o 7 RunSamples.start_state s)
      by (apply turns_reachable; vm_compute; reflexivity).
    destruct (windows_paired cfg o 7 RunSamples.start_state s eq_refl Hr)
      as (Hs & _ & Hv & _ & Hturn).
    destruct (Hv 2.03 Hm) as (He1 & Hi1 & Hw1).
    replace (Z.max 8 (Core.decision_window cfg) <=? len (Core.err_q s))%Z
      with false in He1, Hi1, Hw1 by (vm_compute; reflexivity).
    replace (Core.beat_idx s) with 4%Z in Hi1, Hw1
      by (vm_compute; reflexivity).
    destruct Hturn as [[Hp _]|(Hp & He' & Hi')].
    { exfalso. fold s' in Hp. vm_compute in Hp. discriminate Hp. }
    exact (conj Hm (conj Hi (conj Hs (conj He1 (conj Hi1
             (conj Hw1 (conj Hp (conj He' Hi')))))))).
  - assert (Hm : fst (Core.match_beat cfg8 o8 s8) = Some 4)
      by (vm_compute; reflexivity).
    assert (Hr : Core.reachable cfg8 o8 10 RunSamples.start_state s8)
      by (apply turns_reachable; vm_compute; reflexivity).
    destruct (windows_paired cfg8 o8 10 RunSamples.start_state s8 eq_refl Hr)
      as (_ & _ & Hv & Hs1 & _).
    destruct (Hv 4 Hm) as (_ & Hi1 & Hw1).
    replace (Z.max 8 (Core.decision_window cfg8) <=? len (Core.err_q s8))%Z
      with true in Hi1, Hw1 by (vm_compute; reflexivity).
    replace (Core.beat_idx s8) with 8%Z in Hw1 by (vm_compute; reflexivity).
    split; [exact Hm|]. split; [vm_compute; reflexivity|].
    split; [vm_compute; reflexivity|]. split; [exact Hw1|exact Hs1].
Defined.

(** ** The two actions *)

Section ActionFacts.
Import Core.

Variable cfg : config.
Variable onset_times : list Q.

(** A window cannot be drifting and jumped at once. *)
Lemma drift_excludes_jump (s : state) :
  is_drift cfg s = true -> is_jump cfg s = false.
Proof.
  unfold is_drift, is_jump. intros Hd.
  destruct (flt _ _) eqn:Hj; [|apply andb_false_r].
  float_tests. pose proof (Qabs_nonneg (slope s * 1000)) as Hn. lra.
Qed.

(** So one evaluation never leaves both counters non-zero. *)
Lemma counters_exclusive (s : state) :
  streak_drift' cfg s = 0%Z \/ streak_offset' cfg s = 0%Z.
Proof.
  unfold streak_drift', streak_offset'.
  destruct (is_drift cfg s) eqn:Hd; [|left; reflexivity].
  rewrite (drift_excludes_jump s Hd). right. reflexivity.
Qed.

(** C3.  On a beat where the classifier runs and the jump counter has
    reached [persist] while the drift action is not entered (the drift
    counter is below [persist], which is automatic when [persist] is at
    least 1), the anti-spam test of the drift action, [gap_ok] on
    [anchor_time], decides: when it fails no timing point is appended;
    when it passes the timing point [(anchor, bpm)] is appended with the
    bpm unchanged, the interval unchanged and only the anchor [t0]
    recomputed, and the window and both counters are cleared. *)
Theorem jump_corrects_phase_only (s : state) :
  let m := fst (match_beat cfg onset_times s) in
  let s1 := snd (match_beat cfg onset_times s) in
  let s2 := classify cfg s1 in
  let s' := loop_body cfg onset_times s in
  evaluates cfg s1 = true ->
  (persist cfg <= eval_streak_offset s2)%Z ->
  (eval_streak_drift s2 < persist cfg)%Z \/ (1 <= persist cfg)%Z ->
  (gap_ok cfg (anchor_time m s2) s2 = false -> points s' = points s)
  /\ forall a, anchor_time m s2 = Some a ->
       gap_ok cfg (Some a) s2 = true ->
       points s' = points s ++ [(a, bpm s)]
       /\ bpm s' = bpm s /\ interval s' = interval s
       /\ t0 s' = a - inject_Z (beat_idx s) * interval s
       /\ last_point_time s' = a
       /\ err_q s' = [] /\ idx_q s' = []
       /\ eval_streak_drift s' = 0%Z /\ eval_streak_offset s' = 0%Z.
Proof.
  intros m s1 s2 s' Hev Hj Hd'.
  assert (Hd : (eval_streak_drift s2 < persist cfg)%Z).
  { destruct Hd' as [Hd|Hp]; [exact Hd|].
    destruct (counters_exclusive s1) as [H0|H0]; simpl in *; lia. }
  destruct (match_beat_fields cfg onset_times s)
    as (Hbpm & Hint & Ht0 & Hpts & Hlast & _ & _ & Hbeat & _).
  fold s1 in Hbpm, Hint, Ht0, Hpts, Hlast, Hbeat.
  assert (Hact : s' = next_beat
                        (match anchor_time m s2 with
                         | Some a =>
                             if gap_ok cfg (Some a) s2
                             then emit_jump a s2 else s2
                         | None => s2
                         end)).
  { unfold s', loop_body. fold m s1.
    replace (match_beat cfg onset_times s) with (m, s1)
      by (unfold m, s1; destruct (match_beat cfg onset_times s); reflexivity).
    rewrite Hev. fold s2. unfold act.
    replace (persist cfg <=? eval_streak_drift s2)%Z with false
      by (symmetry; apply Z.leb_gt; exact Hd).
    replace (persist cfg <=? eval_streak_offset s2)%Z with true
      by (symmetry; apply Z.leb_le; exact Hj).
    reflexivity. }
  split.
  - intros Hgap. rewrite Hact.
    destruct (anchor_time m s2) as [a|]; [rewrite Hgap|]; simpl; exact Hpts.
  - intros a Ha Hgap. rewrite Hact, Ha, Hgap. simpl.
    rewrite Hpts, Hbpm, Hint, Hbeat. repeat split; reflexivity.
Qed.

(** C7.  On a beat where the classifier runs and a persistence counter
    has reached [persist], a failed anti-spam test leaves everything as
    the classifier left it: no timing point is appended, bpm, interval
    and anchor are not changed, the window is kept, and both counters
    keep the values of this evaluation (neither is reset by the failed
    attempt). *)
Theorem failed_gap_changes_nothing (s : state) :
  let m := fst (match_beat cfg onset_times s) in
  let s1 := snd (match_beat cfg onset_times s) in
  let s2 := classify cfg s1 in
  let s' := loop_body cfg onset_times s in
  evaluates cfg s1 = true ->
  (persist cfg <= eval_streak_drift s2)%Z
  \/ (persist cfg <= eval_streak_offset s2)%Z ->
  gap_ok cfg (anchor_time m s2) s2 = false ->
  points s' = points s
  /\ bpm s' = bpm s /\ interval s' = interval s /\ t0 s' = t0 s
  /\ last_point_time s' = last_point_time s
  /\ err_q s' = err_q s1 /\ idx_q s' = idx_q s1
  /\ eval_streak_drift s' = eval_streak_drift s2
  /\ eval_streak_offset s' = eval_streak_offset s2.
Proof.
  intros m s1 s2 s' Hev _ Hgap.
  destruct (match_beat_fields cfg onset_times s)
    as (Hbpm & Hint & Ht0 & Hpts & Hlast & _).
  fold s1 in Hbpm, Hint, Ht0, Hpts, Hlast.
  assert (Hact : s' = next_beat s2).
  { unfold s', loop_body. fold m s1.
    replace (match_beat cfg onset_times s) with (m, s1)
      by (unfold m, s1; destruct (match_beat cfg onset_times s); reflexivity).
    rewrite Hev. fold s2. unfold act.
    destruct (anchor_time m s2) as [a|].
    - rewrite Hgap. repeat match goal with
        | |- context [if ?b then _ else _] => destruct b
        end; reflexivity.
    - repeat match goal with
        | |- context [if ?b then _ else _] => destruct b
        end; reflexivity. }
  rewrite Hact. simpl. repeat split; assumption.
Qed.

End ActionFacts.

Lemma jump_corrects_phase_only_witness :
  let cfg := Samples.default_config in
  let s := Samples.late_state 0 in
  let m := fst (Core.match_beat cfg [] s) in
  let s1 := snd (Core.match_beat cfg [] s) in
  let s2 := Core.classify cfg s1 in
  let s' := Core.loop_body cfg [] s in
  (Core.gap_ok cfg (Core.anchor_time m s2) s2 = false ->
   Core.points s' = Core.points s)
  /\ forall a, Core.anchor_time m s2 = Some a ->
       Core.gap_ok cfg (Some a) s2 = true ->
       Core.points s' = Core.points s ++ [(a, Core.bpm s)]
       /\ Core.bpm s' = Core.bpm s /\ Core.interval s' = Core.interval s
       /\ Core.t0 s' = a - inject_Z (Core.beat_idx s) * Core.interval s
       /\ Core.last_point_time s' = a
       /\ Core.err_q s' = [] /\ Core.idx_q s' = []
       /\ Core.eval_streak_drift s' = 0%Z
       /\ Core.eval_streak_offset s' = 0%Z.
Proof.
  intros cfg s.
  apply (jump_corrects_phase_only cfg [] s).
  - vm_compute. reflexivity.
  - vm_compute. discriminate.
  - left. vm_compute. reflexivity.
Defined.

Lemma failed_gap_changes_nothing_witness :
  let cfg := Samples.default_config in
  let s := Samples.late_state 6.9 in
  let s1 := snd (Core.match_beat cfg [] s) in
  let s2 := Core.classify cfg s1 in
  let s' := Core.loop_body cfg [] s in
  Core.points s' = Core.points s
  /\ Core.bpm s' = Core.bpm s /\ Core.interval s' = Core.interval s
  /\ Core.t0 s' = Core.t0 s
  /\ Core.last_point_time s' = Core.last_point_time s
  /\ Core.err_q s' = Core.err_q s1 /\ Core.idx_q s' = Core.idx_q s1
  /\ Core.eval_streak_drift s' = Core.eval_streak_drift s2
  /\ Core.eval_streak_offset s' = Core.eval_streak_offset s2.
Proof.
  intros cfg s.
  apply (failed_gap_changes_nothing cfg [] s).
  - vm_compute. reflexivity.
  - right. vm_compute. discriminate.
  - vm_compute. reflexivity.
Defined.

(** ** Grid and timing points along the loop *)

Section LoopFacts.
Import Core.

Variable cfg : config.
Variable onset_times : list Q.

Lemma Qdiv_60_pos (x : Q) : 0 < x -> 0 < 60 / x.
Proof.
  intros H. unfold Qdiv. apply Qmult_lt_0_compat; [reflexivity|].
  apply Qinv_lt_0_compat. exact H.
Qed.

Lemma new_bpm_pos (s : state) : 0 < bpm s -> 0 < new_bpm s.
Proof.
  intros H. unfold new_bpm.
  destruct (flt 1e-4 (interval s + slope s)) eqn:E; [|exact H].
  apply flt_iff in E. apply Qdiv_60_pos.
  eapply Qlt_trans; [|exact E]. reflexivity.
Qed.

Lemma inject_Z_succ (z : Z) : inject_Z (z + 1) == inject_Z z + 1.
Proof. rewrite inject_Z_plus. reflexivity. Qed.

(** One turn either leaves points and grid alone and moves one interval
    ahead, or appends exactly one timing point. *)
Lemma loop_body_progress (s : state) :
  grid_inv s ->
  let s' := loop_body cfg onset_times s in
  grid_inv s'
  /\ ((points s' = points s /\ interval s' = interval s
       /\ t s' == t s + interval s)
      \/ exists p, points s' = points s ++ [p]).
Proof.
  intros (Hb & Hi & Ht) s'.
  destruct (match_beat_fields cfg onset_times s)
    as (Hbpm & Hint & Ht0 & Hpts & Hlast & _ & _ & Hbeat & Htt & _).
  set (s1 := snd (match_beat cfg onset_times s)) in *.
  assert (Hquiet : forall x, bpm x = bpm s1 -> interval x = interval s1 ->
            t0 x = t0 s1 -> points x = points s1 -> beat_idx x = beat_idx s1 ->
            grid_inv (next_beat x)
            /\ ((points (next_beat x) = points s
                 /\ interval (next_beat x) = interval s
                 /\ t (next_beat x) == t s + interval s)
                \/ exists p, points (next_beat x) = points s ++ [p])).
  { intros x E1 E2 E3 E4 E5. unfold grid_inv. simpl.
    rewrite E1, E2, E3, E4, E5, Hbpm, Hint, Ht0, Hpts, Hbeat.
    split; [repeat split; auto; reflexivity|].
    left. repeat split. rewrite Ht, inject_Z_succ. ring. }
  destruct (loop_body_cases cfg onset_times s)
    as [E|[E|(a & _ & _ & [E|E])]]; unfold s'; rewrite E; fold s1.
  - apply Hquiet; reflexivity.
  - apply Hquiet; reflexivity.
  - unfold grid_inv. simpl. rewrite Hpts.
    assert (Hnb : 0 < new_bpm (classify cfg s1))
      by (apply new_bpm_pos; simpl; rewrite Hbpm; exact Hb).
    split; [|right; eexists; reflexivity].
    split; [exact Hnb|]. split; [apply Qdiv_60_pos; exact Hnb|reflexivity].
  - unfold grid_inv. simpl. rewrite Hpts, Hbpm, Hint.
    split; [|right; eexists; reflexivity].
    split; [exact Hb|]. split; [exact Hi|reflexivity].
Qed.

Lemma sorted_snoc {A : Type} (R : A -> A -> Prop) (l : list A) (x y : A) :
  Sorted R (l ++ [x]) -> R x y -> Sorted R ((l ++ [x]) ++ [y]).
Proof.
  intros Hs Hxy. induction l as [|z l IH]; simpl in *.
  - repeat constructor. exact Hxy.
  - apply Sorted_inv in Hs. destruct Hs as [Hs Hhd].
    constructor; [apply IH; exact Hs|].
    destruct l as [|w l]; simpl in *; inversion Hhd; subst;
      constructor; assumption.
Qed.

(** Every turn keeps the timing points spaced. *)
Lemma loop_body_points (s : state) :
  points_inv cfg s -> points_inv cfg (loop_body cfg onset_times s).
Proof.
  intros [(pre & b & Hlast) Hs].
  destruct (match_beat_fields cfg onset_times s)
    as (_ & _ & _ & Hpts & Hlpt & _).
  set (s1 := snd (match_beat cfg onset_times s)) in *.
  set (m := fst (match_beat cfg onset_times s)).
  assert (Hemit : forall a bv, gap_ok cfg (Some a) (classify cfg s1) = true ->
            (exists pre' b', points s ++ [(a, bv)] = pre' ++ [(a, b')])
            /\ Sorted (spaced cfg) (points s ++ [(a, bv)])).
  { intros a bv Hg. split; [exists (points s), bv; reflexivity|].
    rewrite Hlast in *. apply sorted_snoc; [exact Hs|].
    unfold gap_ok in Hg. simpl in Hg. rewrite Hlpt in Hg.
    apply fle_iff in Hg. exact Hg. }
  destruct (loop_body_cases cfg onset_times s)
    as [E|[E|(a & _ & Hg & [E|E])]]; rewrite E; fold s1;
    unfold points_inv; simpl; rewrite ?Hpts, ?Hlpt.
  - split; [exists pre, b; exact Hlast|exact Hs].
  - split; [exists pre, b; exact Hlast|exact Hs].
  - apply Hemit. exact Hg.
  - apply Hemit. exact Hg.
Qed.

(** Every turn keeps the number of timing points within [max_points]. *)
Lemma loop_body_count (duration : Q) (s : state) :
  (len (points s) <= max_points cfg)%Z ->
  loop_cond cfg duration s = true ->
  (len (points (loop_body cfg onset_times s)) <= max_points cfg)%Z.
Proof.
  intros _ Hc. unfold loop_cond in Hc. apply andb_true_iff in Hc.
  destruct Hc as [_ Hc]. apply Z.ltb_lt in Hc.
  destruct (match_beat_fields cfg onset_times s)
    as (_ & _ & _ & Hpts & _).
  destruct (loop_body_cases cfg onset_times s)
    as [E|[E|(a & _ & _ & [E|E])]]; rewrite E; simpl; rewrite Hpts;
    unfold len in *; rewrite ?length_app; simpl; lia.
Qed.

End LoopFacts.

(** ** Termination *)

Section Termination.
Import Core.

Lemma archimedes (x y : Q) :
  0 < y -> exists m : nat, x < inject_Z (Z.of_nat m) * y.
Proof.
  intros Hy. exists (Z.to_nat (Qfloor (x / y) + 1)).
  assert (Hx : x == x / y * y) by (field; lra).
  pose proof (Qlt_floor (x / y)) as Hfl.
  destruct (Z_le_gt_dec 0 (Qfloor (x / y) + 1)) as [Hpos|Hneg].
  - rewrite Z2Nat.id by exact Hpos.
    rewrite Hx at 1. apply Qmult_lt_compat_r; assumption.
  - replace (Z.to_nat (Qfloor (x / y) + 1)) with 0%nat by lia.
    assert (Hz : inject_Z (Qfloor (x / y) + 1) <= 0).
    { change 0 with (inject_Z 0). rewrite <- Zle_Qle. lia. }
    assert (Hq : x / y < 0) by lra.
    assert (Hm : x / y * y < 0 * y)
      by (apply Qmult_lt_compat_r; assumption).
    change (inject_Z (Z.of_nat 0)) with 0. lra.
Qed.

Lemma inject_nat_succ (m : nat) :
  inject_Z (Z.of_nat (S m)) == inject_Z (Z.of_nat m) + 1.
Proof. rewrite Nat2Z.inj_succ. unfold Z.succ. apply inject_Z_succ. Qed.

Variable cfg : config.
Variable onset_times : list Q.
Variable duration : Q.

(** The main loop ends: [k] bounds the timing points still allowed, [m]
    the beats left before [duration] on the current grid. *)
Lemma run_loop_terminates (k : nat) :
  forall (m : nat) (s : state),
    grid_inv s ->
    (max_points cfg - len (points s) <= Z.of_nat k)%Z ->
    duration - t s < inject_Z (Z.of_nat m) * interval s ->
    exists fuel s', run_loop fuel cfg onset_times duration s = Some s'.
Proof.
  induction k as [|k IHk].
  - intros m s _ Hk _. exists 1%nat, s. simpl. unfold loop_cond.
    replace (len (points s) <? max_points cfg)%Z with false
      by (symmetry; apply Z.ltb_ge; lia).
    rewrite andb_false_r. reflexivity.
  - induction m as [|m IHm]; intros s Hg Hk Hm.
    + exists 1%nat, s. simpl. unfold loop_cond.
      replace (fle (t s) duration) with false; [reflexivity|].
      symmetry. apply fle_false.
      change (inject_Z (Z.of_nat 0)) with 0 in Hm. lra.
    + destruct (loop_cond cfg duration s) eqn:Ec.
      2:{ exists 1%nat, s. simpl. rewrite Ec. reflexivity. }
      destruct (loop_body_progress cfg onset_times s Hg)
        as (Hg' & [(Hp & Hi & Ht)|(p & Hp)]).
      * destruct (IHm (loop_body cfg onset_times s) Hg')
          as (fuel & s' & Hrun).
        -- rewrite Hp. exact Hk.
        -- rewrite Hi, Ht. rewrite inject_nat_succ in Hm. lra.
        -- exists (S fuel), s'. simpl. rewrite Ec. exact Hrun.
      * destruct Hg' as (Hb' & Hi' & Ht').
        destruct (archimedes (duration - t (loop_body cfg onset_times s))
                    (interval (loop_body cfg onset_times s)) Hi')
          as (m' & Hm').
        destruct (IHk m' (loop_body cfg onset_times s))
          as (fuel & s' & Hrun).
        -- repeat split; assumption.
        -- rewrite Hp. unfold len in *. rewrite length_app. simpl. lia.
        -- exact Hm'.
        -- exists (S fuel), s'. simpl. rewrite Ec. exact Hrun.
Qed.

Lemma run_loop_total (s : state) :
  grid_inv s ->
  exists fuel s', run_loop fuel cfg onset_times duration s = Some s'.
Proof.
  intros Hg. pose proof Hg as (_ & Hi & _).
  destruct (archimedes (duration - t s) (interval s) Hi) as (m & Hm).
  apply (run_loop_terminates
           (Z.to_nat (max_points cfg - len (points s))) m s Hg); [lia|exact Hm].
Qed.

(** More fuel does not change a result. *)
Lemma run_loop_mono (fuel fuel' : nat) (s s' : state) :
  run_loop fuel cfg onset_times duration s = Some s' ->
  (fuel <= fuel')%nat ->
  run_loop fuel' cfg onset_times duration s = Some s'.
Proof.
  revert fuel' s. induction fuel as [|fuel IH]; intros fuel' s Hrun Hle.
  - discriminate.
  - destruct fuel' as [|fuel']; [lia|]. simpl in *.
    destruct (loop_cond cfg duration s); [|exact Hrun].
    apply IH; [exact Hrun|lia].
Qed.

End Termination.

Section PhaseTermination.
Import Phase.

Variable ot : list Q.
Variables cand_t0 interval match_window_s search_seconds : Q.

Lemma phase_beats_S (fuel : nat) (onset_idx_hint beat_idx : Z) (t : Q)
    (errs : list Q) (matches : Z) :
  phase_beats (S fuel) ot cand_t0 interval match_window_s search_seconds
    onset_idx_hint beat_idx t errs matches
  = if fle t (cand_t0 + search_seconds) then
      let '(m, onset_idx_hint') :=
        Matcher.find_nearest_onset ot onset_idx_hint t match_window_s in
      let '(matches', errs') :=
        match m with
        | Some v => ((matches + 1)%Z, errs ++ [v - t])
        | None => (matches, errs)
        end in
      let beat_idx' := (beat_idx + 1)%Z in
      phase_beats fuel ot cand_t0 interval match_window_s search_seconds
        onset_idx_hint' beat_idx'
        (cand_t0 + inject_Z beat_idx' * interval) errs' matches'
    else Some (errs, matches).
Proof. reflexivity. Qed.

(** The grid walk of one candidate ends. *)
Lemma phase_beats_total (fuel : nat) :
  forall (onset_idx_hint beat_idx : Z) (t : Q) (errs : list Q) (matches : Z),
    0 < interval ->
    t == cand_t0 + inject_Z beat_idx * interval ->
    search_seconds - inject_Z beat_idx * interval
      < inject_Z (Z.of_nat fuel) * interval ->
    exists r,
      phase_beats (S fuel) ot cand_t0 interval match_window_s search_seconds
        onset_idx_hint beat_idx t errs matches = Some r.
Proof.
  induction fuel as [|fuel IH]; intros h b t errs matches Hi Ht Hm;
    rewrite phase_beats_S;
    destruct (fle t (cand_t0 + search_seconds)) eqn:Ec;
    try (eexists; reflexivity); apply fle_iff in Ec.
  - change (inject_Z (Z.of_nat 0)) with 0 in Hm. lra.
  - destruct (Matcher.find_nearest_onset ot h t match_window_s) as [m h'].
    rewrite inject_nat_succ in Hm.
    destruct m as [v|]; apply IH; auto; try reflexivity;
      rewrite inject_Z_succ; lra.
Qed.

Lemma phase_beats_mono (fuel : nat) :
  forall (fuel' : nat) (onset_idx_hint beat_idx : Z) (t : Q)
         (errs : list Q) (matches : Z) (r : list Q * Z),
    phase_beats fuel ot cand_t0 interval match_window_s search_seconds
      onset_idx_hint beat_idx t errs matches = Some r ->
    (fuel <= fuel')%nat ->
    phase_beats fuel' ot cand_t0 interval match_window_s search_seconds
      onset_idx_hint beat_idx t errs matches = Some r.
Proof.
  induction fuel as [|fuel IH]; intros fuel' h b t errs matches r Hr Hle.
  - discriminate.
  - destruct fuel' as [|fuel']; [lia|].
    rewrite phase_beats_S in *.
    destruct (fle t (cand_t0 + search_seconds)); [|exact Hr].
    destruct (Matcher.find_nearest_onset ot h t match_window_s) as [m h'].
    destruct m as [v|]; (apply IH; [exact Hr|lia]).
Qed.

End PhaseTermination.

Section SelectorTermination.
Import Phase.

Variable ot : list Q.
Variables t0 interval match_window_s search_seconds : Q.
Variable phase_divisions : Z.

Lemma phase_candidate_total (fuel : nat) (b : best) (k : Z) :
  0 < interval ->
  search_seconds < inject_Z (Z.of_nat fuel) * interval ->
  exists b',
    phase_candidate (S fuel) ot t0 interval match_window_s search_seconds
      phase_divisions b k = Some b'.
Proof.
  intros Hi Hm. unfold phase_candidate.
  destruct (phase_beats_total ot
              (t0 + inject_Z k / inject_Z phase_divisions * interval)
              interval match_window_s search_seconds fuel 0 0
              (t0 + inject_Z k / inject_Z phase_divisions * interval) [] 0 Hi)
    as ([errs matches] & Hr).
  - change (inject_Z 0) with 0. ring.
  - change (inject_Z 0) with 0. lra.
  - rewrite Hr.
    destruct (matches =? 0)%Z; [eexists; reflexivity|].
    destruct (_ || _); eexists; reflexivity.
Qed.

Lemma phase_candidate_mono (fuel fuel' : nat) (b b' : best) (k : Z) :
  phase_candidate fuel ot t0 interval match_window_s search_seconds
    phase_divisions b k = Some b' ->
  (fuel <= fuel')%nat ->
  phase_candidate fuel' ot t0 interval match_window_s search_seconds
    phase_divisions b k = Some b'.
Proof.
  unfold phase_candidate. intros H Hle.
  destruct (phase_beats fuel _ _ _ _ _ _ _ _ _ _) as [r|] eqn:Hr;
    [|discriminate].
  rewrite (phase_beats_mono _ _ _ _ _ fuel fuel' _ _ _ _ _ r Hr Hle).
  exact H.
Qed.

Lemma phase_loop_total (fuel : nat) (ks : list Z) :
  0 < interval ->
  search_seconds < inject_Z (Z.of_nat fuel) * interval ->
  forall b, exists b',
    phase_loop (S fuel) ot t0 interval match_window_s search_seconds
      phase_divisions b ks = Some b'.
Proof.
  intros Hi Hm. induction ks as [|k ks IH]; intros b; simpl.
  - eexists; reflexivity.
  - destruct (phase_candidate_total fuel b k Hi Hm) as (b1 & Hb1).
    unfold phase_candidate in *. 
    rewrite Hb1. apply IH.
Qed.

Lemma phase_loop_mono (fuel fuel' : nat) (ks : list Z) :
  (fuel <= fuel')%nat ->
  forall b b',
    phase_loop fuel ot t0 interval match_window_s search_seconds
      phase_divisions b ks = Some b' ->
    phase_loop fuel' ot t0 interval match_window_s search_seconds
      phase_divisions b ks = Some b'.
Proof.
  intros Hle. induction ks as [|k ks IH]; intros b b' H; simpl in *.
  - exact H.
  - destruct (phase_candidate fuel _ _ _ _ _ _ _ _) as [b1|] eqn:Hb1;
      [|discriminate].
    rewrite (phase_candidate_mono fuel fuel' b b1 k Hb1 Hle).
    apply IH. exact H.
Qed.

End SelectorTermination.

Section EntryFacts.
Import Phase Core.

Lemma choose_best_phase_total (t0 interval : Q) (onset_times : list Q)
    (match_window_s search_seconds : Q) (phase_divisions : Z) :
  exists fuel r,
    choose_best_phase fuel t0 interval onset_times match_window_s
      search_seconds phase_divisions = Some r.
Proof.
  unfold choose_best_phase.
  destruct ((len onset_times =? 0)%Z || fle interval 1e-6) eqn:E.
  { exists 0%nat, t0. reflexivity. }
  apply orb_false_iff in E. destruct E as [_ E]. apply fle_false in E.
  assert (Hi : 0 < interval) by (eapply Qlt_trans; [|exact E]; reflexivity).
  destruct (len (filter _ onset_times) =? 0)%Z.
  { exists 0%nat, t0. reflexivity. }
  destruct (archimedes (fmax 3 search_seconds) interval Hi) as (m & Hm).
  destruct (phase_loop_total (filter
              (fun o => fle (fmax 0 (t0 - 0.5)) o
                        && fle o (t0 + fmax 3 search_seconds + 0.5))
              onset_times)
              t0 interval match_window_s (fmax 3 search_seconds)
              (Z.max 1 phase_divisions) m (range (Z.max 1 phase_divisions))
              Hi Hm (mk_best t0 (-1) Inf)) as (b & Hb).
  exists (S m), (best_t0 b). rewrite Hb. reflexivity.
Qed.

Lemma choose_best_phase_mono (fuel fuel' : nat) (t0 interval : Q)
    (onset_times : list Q) (match_window_s search_seconds : Q)
    (phase_divisions : Z) (r : Q) :
  choose_best_phase fuel t0 interval onset_times match_window_s
    search_seconds phase_divisions = Some r ->
  (fuel <= fuel')%nat ->
  choose_best_phase fuel' t0 interval onset_times match_window_s
    search_seconds phase_divisions = Some r.
Proof.
  unfold choose_best_phase. intros H Hle.
  destruct (_ || _); [exact H|].
  destruct (_ =? 0)%Z; [exact H|].
  destruct (phase_loop fuel _ _ _ _ _ _ _ _) as [b|] eqn:Hb; [|discriminate].
  rewrite (phase_loop_mono _ _ _ _ _ _ fuel fuel' _ Hle _ _ Hb). exact H.
Qed.

Lemma skip_negative_S (fuel : nat) (t0 interval : Q) (beat_idx : Z) (t : Q) :
  skip_negative (S fuel) t0 interval beat_idx t
  = if flt t 0 then
      skip_negative fuel t0 interval (beat_idx + 1)
        (t0 + inject_Z (beat_idx + 1) * interval)
    else Some (beat_idx, t).
Proof. reflexivity. Qed.

Lemma skip_negative_total (t0 interval : Q) (fuel : nat) :
  forall (beat_idx : Z) (t : Q),
    0 < interval ->
    t == t0 + inject_Z beat_idx * interval ->
    - t < inject_Z (Z.of_nat fuel) * interval ->
    exists r, skip_negative (S fuel) t0 interval beat_idx t = Some r.
Proof.
  induction fuel as [|fuel IH]; intros b t Hi Ht Hm;
    rewrite skip_negative_S; destruct (flt t 0) eqn:Ec;
    try (eexists; reflexivity); apply flt_iff in Ec.
  - change (inject_Z (Z.of_nat 0)) with 0 in Hm. lra.
  - rewrite inject_nat_succ in Hm.
    apply IH; auto; try reflexivity. rewrite inject_Z_succ. lra.
Qed.

Lemma skip_negative_mono (t0 interval : Q) (fuel : nat) :
  forall (fuel' : nat) (beat_idx : Z) (t : Q) (r : Z * Q),
    skip_negative fuel t0 interval beat_idx t = Some r ->
    (fuel <= fuel')%nat ->
    skip_negative fuel' t0 interval beat_idx t = Some r.
Proof.
  induction fuel as [|fuel IH]; intros fuel' b t r Hr Hle.
  - discriminate.
  - destruct fuel' as [|fuel']; [lia|]. rewrite skip_negative_S in *.
    destruct (flt t 0); [|exact Hr]. apply IH; [exact Hr|lia].
Qed.

(** The beat the loop starts at is on the grid. *)
Lemma skip_negative_grid (t0 interval : Q) (fuel : nat) :
  forall (beat_idx : Z) (t : Q) (beat_idx' : Z) (t' : Q),
    skip_negative fuel t0 interval beat_idx t = Some (beat_idx', t') ->
    t == t0 + inject_Z beat_idx * interval ->
    t' == t0 + inject_Z beat_idx' * interval.
Proof.
  induction fuel as [|fuel IH]; intros b t b' t' Hr Ht.
  - discriminate.
  - rewrite skip_negative_S in Hr. destruct (flt t 0).
    + apply (IH _ _ _ _ Hr). reflexivity.
    + inversion Hr; subst. exact Ht.
Qed.

Lemma seed_bpm_pos (bpm_est : Q) : 0 < seed_bpm bpm_est.
Proof.
  unfold seed_bpm. simpl.
  destruct (fle bpm_est 1e-6) eqn:E; [reflexivity|].
  apply fle_false in E. eapply Qlt_trans; [|exact E]. reflexivity.
Qed.

Variable cfg : config.
Variable onset_times : list Q.
Variables bpm_est t0_est : Q.

(** What the loop is entered with. *)
Lemma entry_state_spec (fuel : nat) (s : state) :
  entry_state fuel cfg onset_times bpm_est t0_est = Some s ->
  grid_inv s
  /\ bpm s = seed_bpm bpm_est
  /\ refined_anchor fuel cfg onset_times bpm_est t0_est = Some (t0 s)
  /\ points s = [(t0 s, seed_bpm bpm_est)]
  /\ last_point_time s = t0 s
  /\ err_q s = [] /\ idx_q s = []
  /\ eval_streak_drift s = 0%Z /\ eval_streak_offset s = 0%Z.
Proof.
  unfold entry_state. intros H.
  destruct (refined_anchor fuel cfg onset_times bpm_est t0_est)
    as [a|]; [|discriminate].
  destruct (skip_negative fuel a (60 / seed_bpm bpm_est) 0 a)
    as [[b t]|] eqn:Hskip; [|discriminate].
  inversion H; subst; clear H. simpl.
  pose proof (seed_bpm_pos bpm_est) as Hb.
  repeat split; auto.
  - apply Qdiv_60_pos. exact Hb.
  - apply (skip_negative_grid _ _ _ _ _ _ _ Hskip).
    change (inject_Z 0) with 0. ring.
Qed.

Lemma entry_state_total :
  exists fuel s, entry_state fuel cfg onset_times bpm_est t0_est = Some s.
Proof.
  pose proof (Qdiv_60_pos _ (seed_bpm_pos bpm_est)) as Hi.
  destruct (choose_best_phase_total (snap_anchor cfg onset_times t0_est)
              (60 / seed_bpm bpm_est) onset_times (window_s cfg)
              (phase_search_seconds cfg) (phase_divisions cfg))
    as (f1 & a & Ha).
  destruct (archimedes (- a) (60 / seed_bpm bpm_est) Hi) as (m & Hm).
  destruct (skip_negative_total a (60 / seed_bpm bpm_est) m 0 a Hi)
    as ([b t] & Hskip); [change (inject_Z 0) with 0; ring|exact Hm|].
  exists (Nat.max f1 (S m)). eexists. unfold entry_state, refined_anchor.
  rewrite (choose_best_phase_mono f1 _ _ _ _ _ _ _ a Ha)
    by apply Nat.le_max_l.
  rewrite (skip_negative_mono _ _ (S m) _ _ _ _ Hskip)
    by apply Nat.le_max_r.
  reflexivity.
Qed.

Lemma entry_state_mono (fuel fuel' : nat) (s : state) :
  entry_state fuel cfg onset_times bpm_est t0_est = Some s ->
  (fuel <= fuel')%nat ->
  entry_state fuel' cfg onset_times bpm_est t0_est = Some s.
Proof.
  unfold entry_state, refined_anchor. intros H Hle.
  destruct (choose_best_phase fuel _ _ _ _ _ _) as [a|] eqn:Ha;
    [|discriminate].
  rewrite (choose_best_phase_mono fuel fuel' _ _ _ _ _ _ a Ha Hle).
  destruct (skip_negative fuel _ _ _ _) as [r|] eqn:Hskip; [|discriminate].
  rewrite (skip_negative_mono _ _ fuel fuel' _ _ r Hskip Hle). exact H.
Qed.

Variable duration : Q.

(** The analysis returns. *)
Lemma analyze_total :
  exists fuel r,
    analyze_mode_a fuel cfg onset_times bpm_est t0_est duration = Some r.
Proof.
  destruct entry_state_total as (f1 & s & Hs).
  destruct (entry_state_spec f1 s Hs) as (Hg & _).
  destruct (run_loop_total cfg onset_times duration s Hg) as (f2 & s' & Hrun).
  exists (Nat.max f1 f2). eexists. unfold analyze_mode_a, final_state.
  rewrite (entry_state_mono f1 _ s Hs) by apply Nat.le_max_l.
  rewrite (run_loop_mono cfg onset_times duration f2 _ s s' Hrun)
    by apply Nat.le_max_r.
  reflexivity.
Qed.

(** A property of the loop state that holds on entry and is kept by
    every turn holds of the state behind the result. *)
Lemma analyze_inv (P : state -> Prop) :
  (forall fuel s,
     entry_state fuel cfg onset_times bpm_est t0_est = Some s -> P s) ->
  (forall s, P s -> loop_cond cfg duration s = true ->
             P (loop_body cfg onset_times s)) ->
  forall fuel pts b,
    analyze_mode_a fuel cfg onset_times bpm_est t0_est duration
      = Some (pts, b) ->
    exists s, P s /\ pts = points s /\ b = bpm s.
Proof.
  intros Hentry Hstep fuel pts b H.
  unfold analyze_mode_a, final_state in H.
  destruct (entry_state fuel cfg onset_times bpm_est t0_est)
    as [s|] eqn:Hs; [|discriminate].
  destruct (run_loop fuel cfg onset_times duration s) as [s'|] eqn:Hrun;
    [|discriminate].
  inversion H; subst; clear H. exists s'.
  destruct (run_loop_inv cfg onset_times P duration Hstep fuel s s' Hrun)
    as [HP _]; [apply (Hentry fuel); exact Hs|].
  auto.
Qed.

End EntryFacts.

(** ** The result of the analysis *)

Lemma sorted_weaken {A : Type} (R R' : A -> A -> Prop) (l : list A) :
  (forall x y, R x y -> R' x y) -> Sorted R l -> Sorted R' l.
Proof.
  intros Himp. induction 1 as [|x l Hs IH Hhd]; constructor; auto.
  destruct Hhd; constructor; auto.
Qed.

(** The bpm of the last timing point of the sample run over
    [RunSamples.shifted_onsets], handed to [k]. *)
Ltac with_shifted_bpm k :=
  let r := eval vm_compute in
    (Core.analyze_mode_a 40 RunSamples.quick_config
       RunSamples.shifted_onsets 120 0 7) in
  match r with Some (_, ?b) => k b end.

(** C4.  With a positive [min_gap_ms], the analysis returns, and the
    timing points it returns are strictly increasing in time and
    consecutive ones are at least [min_gap_ms] milliseconds apart. *)
Theorem points_spaced_and_increasing (cfg : Core.config)
    (onset_times : list Q) (bpm_est t0_est duration : Q) :
  0 < Core.min_gap_ms cfg ->
  (exists fuel r,
     Core.analyze_mode_a fuel cfg onset_times bpm_est t0_est duration
       = Some r)
  /\ forall fuel pts b,
       Core.analyze_mode_a fuel cfg onset_times bpm_est t0_est duration
         = Some (pts, b) ->
       Sorted Core.earlier pts /\ Sorted (Core.spaced cfg) pts.
Proof.
  intros Hgap. split; [apply analyze_total|].
  intros fuel pts b H.
  destruct (analyze_inv cfg onset_times bpm_est t0_est duration
              (Core.points_inv cfg)) with (fuel := fuel) (pts := pts) (b := b)
    as (s & [_ Hs] & -> & _); [| |exact H|].
  - intros f s Hs.
    destruct (entry_state_spec cfg onset_times bpm_est t0_est f s Hs)
      as (_ & _ & _ & Hp & Hl & _).
    unfold Core.points_inv. rewrite Hp, Hl. split.
    + exists [], (Core.seed_bpm bpm_est). reflexivity.
    + repeat constructor.
  - intros s Hs _. apply loop_body_points. exact Hs.
  - split; [|exact Hs].
    apply (sorted_weaken (Core.spaced cfg)); [|exact Hs].
    unfold Core.spaced, Core.earlier. intros p q Hpq. lra.
Qed.

Lemma points_spaced_and_increasing_witness :
  exists b : Q,
    let pts := [(0 + 0 / 1 * (60 / 120), 120); (2.03, 120); (5.06, b)] in
    Core.analyze_mode_a 40 RunSamples.quick_config RunSamples.shifted_onsets
      120 0 7 = Some (pts, b)
    /\ Sorted Core.earlier pts
    /\ Sorted (Core.spaced RunSamples.quick_config) pts.
Proof.
  with_shifted_bpm ltac:(fun b => exists b).
  cbv zeta.
  match goal with |- ?A /\ _ =>
    assert (E : A) by (vm_compute; reflexivity) end.
  split; [exact E|].
  exact (proj2 (points_spaced_and_increasing RunSamples.quick_config
                  RunSamples.shifted_onsets 120 0 7 eq_refl) 40%nat _ _ E).
Defined.

Lemma loop_body_grows (cfg : Core.config) (onset_times : list Q)
    (s : Core.state) :
  (len (Core.points s)
   <= len (Core.points (Core.loop_body cfg onset_times s)))%Z.
Proof.
  destruct (match_beat_fields cfg onset_times s) as (_ & _ & _ & Hpts & _).
  destruct (loop_body_cases cfg onset_times s)
    as [E|[E|(a & _ & _ & [E|E])]]; rewrite E; simpl; rewrite Hpts;
    unfold len in *; rewrite ?length_app; simpl; lia.
Qed.

(** C9.  With [max_points] at least 1, the analysis returns, and it
    returns at most [max_points] timing points, the first (seed) point
    included. *)
Theorem point_count_capped (cfg : Core.config)
    (onset_times : list Q) (bpm_est t0_est duration : Q) :
  (1 <= Core.max_points cfg)%Z ->
  (exists fuel r,
     Core.analyze_mode_a fuel cfg onset_times bpm_est t0_est duration
       = Some r)
  /\ forall fuel pts b,
       Core.analyze_mode_a fuel cfg onset_times bpm_est t0_est duration
         = Some (pts, b) ->
       (1 <= len pts <= Core.max_points cfg)%Z.
Proof.
  intros Hmax. split; [apply analyze_total|].
  intros fuel pts b H.
  destruct (analyze_inv cfg onset_times bpm_est t0_est duration
              (fun s => (1 <= len (Core.points s) <= Core.max_points cfg)%Z))
    with (fuel := fuel) (pts := pts) (b := b)
    as (s & Hs & -> & _); [| |exact H|exact Hs].
  - intros f s Hs.
    destruct (entry_state_spec cfg onset_times bpm_est t0_est f s Hs)
      as (_ & _ & _ & Hp & _).
    rewrite Hp. unfold len. simpl. lia.
  - intros s [Hlo Hhi] Hc. split.
    + pose proof (loop_body_grows cfg onset_times s). lia.
    + apply (loop_body_count cfg onset_times duration s Hhi Hc).
Qed.

Lemma point_count_capped_witness :
  (exists fuel r,
     Core.analyze_mode_a fuel Samples.default_config Samples.grid_onsets
       120 0 2.75 = Some r)
  /\ forall fuel pts b,
       Core.analyze_mode_a fuel Samples.default_config Samples.grid_onsets
         120 0 2.75 = Some (pts, b) ->
       (1 <= len pts <= Core.max_points Samples.default_config)%Z.
Proof.
  apply (point_count_capped Samples.default_config
           Samples.grid_onsets 120 0 2.75).
  vm_compute. discriminate.
Defined.

(** C8, as amended.  With [min_matches] at least 1 and a seed bpm above
    the fallback threshold [1e-6], the analysis of an empty onset array
    returns, and it returns exactly one timing point: the seed anchor,
    unchanged, with the seed bpm. *)
Theorem empty_onsets_seed_only (cfg : Core.config)
    (bpm_est t0_est duration : Q) :
  (1 <= Core.min_matches cfg)%Z ->
  1e-6 < bpm_est ->
  (exists fuel r,
     Core.analyze_mode_a fuel cfg [] bpm_est t0_est duration = Some r)
  /\ forall fuel r,
       Core.analyze_mode_a fuel cfg [] bpm_est t0_est duration = Some r ->
       r = ([(t0_est, bpm_est)], bpm_est).
Proof.
  intros Hmin Hbpm. split; [apply analyze_total|].
  intros fuel [pts b] H.
  assert (Hseed : Core.seed_bpm bpm_est = bpm_est).
  { unfold Core.seed_bpm. simpl.
    replace (fle bpm_est 1e-6) with false; [reflexivity|].
    symmetry. apply fle_false. exact Hbpm. }
  destruct (analyze_inv cfg [] bpm_est t0_est duration
              (fun s => Core.points s = [(t0_est, bpm_est)]
                        /\ Core.bpm s = bpm_est /\ Core.err_q s = []))
    with (fuel := fuel) (pts := pts) (b := b)
    as (s & (Hp & Hb & _) & -> & ->); [| |exact H|].
  - intros f s Hs.
    destruct (entry_state_spec cfg [] bpm_est t0_est f s Hs)
      as (_ & Hb & Ha & Hp & _ & He & _).
    unfold Core.refined_anchor, Phase.choose_best_phase in Ha.
    simpl in Ha. inversion Ha as [Ht0].
    rewrite Hp, Hb, Hseed, <- Ht0. auto.
  - intros s (Hp & Hb & He) _.
    unfold Core.loop_body, Core.match_beat, Matcher.find_nearest_onset.
    simpl. unfold Core.evaluates. simpl. rewrite He.
    replace (Core.min_matches cfg <=? len [])%Z with false
      by (symmetry; apply Z.leb_gt; unfold len; simpl; lia).
    simpl. auto.
  - rewrite Hp, Hb. reflexivity.
Qed.

Lemma empty_onsets_seed_only_witness :
  (exists fuel r,
     Core.analyze_mode_a fuel Samples.default_config [] 120 0.25 10 = Some r)
  /\ forall fuel r,
       Core.analyze_mode_a fuel Samples.default_config [] 120 0.25 10
         = Some r ->
       r = ([(0.25, 120)], 120).
Proof.
  apply (empty_onsets_seed_only Samples.default_config 120 0.25 10).
  - vm_compute. discriminate.
  - reflexivity.
Defined.

(** C8, as stated, fails: the positive seed bpm [1e-7] is at or below
    the fallback threshold, so the single timing point carries 120. *)
Lemma tiny_seed_replaced :
  0 < 1e-7
  /\ (1 <= Core.min_matches Samples.default_config)%Z
  /\ Core.analyze_mode_a 30 Samples.default_config [] 1e-7 0 10
     = Some ([(0, 120)], 120)
  /\ ~ 120 == 1e-7.
Proof.
  split; [reflexivity|]. split; [vm_compute; discriminate|].
  split; [vm_compute; reflexivity|]. discriminate.
Qed.

(** ** The beat indexes of the window *)

Lemma sorted_snoc_lt (q : list Z) (x : Z) :
  StronglySorted Z.lt q -> Forall (fun i => (i < x)%Z) q ->
  StronglySorted Z.lt (q ++ [x]).
Proof.
  induction 1 as [|y q Hs IH Hall]; intros Hx; simpl.
  - repeat constructor.
  - constructor; [apply IH; exact (Forall_inv_tail Hx)|].
    apply Forall_app. split; [exact Hall|].
    constructor; [exact (Forall_inv Hx)|constructor].
Qed.

Lemma deque_append_indices (m : Z) (q : list Z) (x : Z) :
  StronglySorted Z.lt q -> Forall (fun i => (i < x)%Z) q ->
  StronglySorted Z.lt (Core.deque_append m q x)
  /\ Forall (fun i => (i < x + 1)%Z) (Core.deque_append m q x).
Proof.
  intros Hs Hx.
  assert (Hall : Forall (fun i => (i < x + 1)%Z) (q ++ [x])).
  { apply Forall_app. split.
    - eapply Forall_impl; [|exact Hx]. simpl. intros; lia.
    - constructor; [lia|constructor]. }
  pose proof (sorted_snoc_lt q x Hs Hx) as Hsn.
  unfold Core.deque_append. destruct (m <? _)%Z; [|auto].
  destruct (q ++ [x]) as [|y l]; simpl; [auto|].
  split; [apply StronglySorted_inv in Hsn; apply Hsn|].
  exact (Forall_inv_tail Hall).
Qed.

(** The window the estimator reads has increasing beat indexes: the
    first hypothesis of the slope theorem holds of every window of the
    loop. *)
Lemma window_indices_increasing (cfg : Core.config) (onset_times : list Q)
    (duration : Q) (s0 s : Core.state) :
  Core.idx_q s0 = [] ->
  Core.reachable cfg onset_times duration s0 s ->
  StronglySorted Z.lt (Core.idx_q s)
  /\ StronglySorted Z.lt
       (Core.idx_q (snd (Core.match_beat cfg onset_times s))).
Proof.
  intros H0 Hr.
  assert (Hmid : forall x, Core.indices_inv x ->
            StronglySorted Z.lt
              (Core.idx_q (snd (Core.match_beat cfg onset_times x)))
            /\ Forall (fun i => (i < Core.beat_idx x + 1)%Z)
                 (Core.idx_q (snd (Core.match_beat cfg onset_times x)))).
  { intros x [Hs Hb].
    destruct (match_beat_fields cfg onset_times x)
      as (_ & _ & _ & _ & _ & _ & _ & _ & _ & _ & Hi).
    rewrite Hi. destruct (fst (Core.match_beat cfg onset_times x)).
    - apply deque_append_indices; assumption.
    - split; [exact Hs|]. eapply Forall_impl; [|exact Hb].
      simpl. intros; lia. }
  assert (Hinv : Core.indices_inv s).
  { apply (reachable_ind_inv cfg onset_times Core.indices_inv
             duration s0 s); [| |exact Hr].
    - unfold Core.indices_inv. rewrite H0. split; constructor.
    - intros x Hx _. destruct (Hmid x Hx) as [Hs Hb].
      destruct (match_beat_fields cfg onset_times x)
        as (_ & _ & _ & _ & _ & _ & _ & Hbeat & _).
      destruct (loop_body_cases cfg onset_times x)
        as [E|[E|(a & _ & _ & [E|E])]];
        rewrite E; unfold Core.indices_inv; simpl;
        rewrite ?Hbeat; auto; split; constructor. }
  split; [apply Hinv|apply Hmid; exact Hinv].
Qed.

(** * Further properties *)

(** ** One call of the matcher, on any array *)

Lemma min_by_dt_In (rest : list (Q * Z)) (b : Q * Z) :
  In (Matcher.min_by_dt b rest) (b :: rest).
Proof.
  revert b. induction rest as [|c rest IH]; intros b; simpl.
  - left. reflexivity.
  - destruct (IH (if flt (fst c) (fst b) then c else b)) as [H|H].
    + destruct (flt (fst c) (fst b)); rewrite <- H; auto.
    + auto.
Qed.

(** The index the scan stops at, for a hint below the length. *)
Lemma scan_stop_bounds (onset_times : list Q) (window_s : Q) (h : Z) (t : Q) :
  (0 < len onset_times)%Z -> (h < len onset_times)%Z ->
  (Z.max 0 h <= Matcher.scan_stop onset_times window_s h t
   < len onset_times)%Z.
Proof.
  intros Hn Hh. unfold Matcher.scan_stop.
  destruct (advance_hint_spec onset_times window_s t (length onset_times)
              (Z.max 0 h)) as (H1 & H2 & _); [lia|unfold len; lia|].
  lia.
Qed.

(** A match lies within the window. *)
Lemma matched_onset_in_window (onset_times : list Q) (idx_hint : Z)
    (t window_s x : Q) (h' : Z) :
  Matcher.find_nearest_onset onset_times idx_hint t window_s = (Some x, h') ->
  Matcher.in_window t window_s x.
Proof.
  unfold Matcher.find_nearest_onset. intros H.
  destruct (len onset_times =? 0)%Z; [discriminate|].
  set (i := Matcher.advance_hint _ _ _ _ _) in H.
  destruct (Matcher.candidates onset_times t window_s i) as [|c cs] eqn:Ec;
    [discriminate|].
  inversion H; subst; clear H.
  pose proof (min_by_dt_In cs c) as Hin. rewrite <- Ec in Hin.
  apply candidates_In in Hin. apply Hin.
Qed.

(** X1.  Whatever the array and the hint, a match returned by
    [find_nearest_onset] is the onset stored at the returned hint index,
    that index is a valid index of the array, and the onset lies within
    the tolerance window around the query time. *)
Theorem match_is_windowed_onset (onset_times : list Q) (idx_hint : Z)
    (t window_s x : Q) (h' : Z) :
  Matcher.find_nearest_onset onset_times idx_hint t window_s = (Some x, h') ->
  (0 <= h' < len onset_times)%Z
  /\ x = get onset_times h'
  /\ In x onset_times
  /\ Matcher.in_window t window_s x.
Proof.
  unfold Matcher.find_nearest_onset. intros H.
  destruct (len onset_times =? 0)%Z; [discriminate|].
  set (i := Matcher.advance_hint _ _ _ _ _) in H.
  destruct (Matcher.candidates onset_times t window_s i) as [|c cs] eqn:Ec;
    [discriminate|].
  inversion H; subst; clear H.
  pose proof (min_by_dt_In cs c) as Hin. rewrite <- Ec in Hin.
  apply candidates_In in Hin. destruct Hin as (_ & _ & Hb & Hw).
  repeat split; try lia; auto.
  apply In_get. eexists. split; [exact Hb|reflexivity].
Qed.

Lemma match_is_windowed_onset_witness :
  (0 <= 1 < len MoreSamples.half_onsets)%Z
  /\ 0.5 = get MoreSamples.half_onsets 1
  /\ In 0.5 MoreSamples.half_onsets
  /\ Matcher.in_window 0.51 0.04 0.5.
Proof.
  apply (match_is_windowed_onset MoreSamples.half_onsets 0 0.51 0.04 0.5 1).
  reflexivity.
Defined.

(** X2.  On a non-empty array and with any hint below its length (a
    negative hint counts as 0), the hint returned by
    [find_nearest_onset] is a valid index of the array, and it is at
    most one below the hint passed in, whether or not the array is
    sorted. *)
Theorem returned_hint_in_bounds (onset_times : list Q) (idx_hint : Z)
    (t window_s : Q) :
  (0 < len onset_times)%Z ->
  (idx_hint < len onset_times)%Z ->
  let h' := snd (Matcher.find_nearest_onset onset_times idx_hint t window_s) in
  (0 <= h' < len onset_times)%Z /\ (Z.max 0 idx_hint - 1 <= h')%Z.
Proof.
  intros Hn Hh.
  pose proof (scan_stop_bounds onset_times window_s idx_hint t Hn Hh) as Hi.
  unfold Matcher.scan_stop in Hi.
  unfold Matcher.find_nearest_onset.
  replace (len onset_times =? 0)%Z with false
    by (symmetry; apply Z.eqb_neq; lia).
  set (i := Matcher.advance_hint _ _ _ _ _) in *.
  destruct (Matcher.candidates onset_times t window_s i) as [|c cs] eqn:Ec;
    simpl.
  - lia.
  - pose proof (min_by_dt_In cs c) as Hin. rewrite <- Ec in Hin.
    apply candidates_In in Hin. destruct Hin as (_ & Hnb & Hb & _). lia.
Qed.

Lemma returned_hint_in_bounds_witness :
  let h' :=
    snd (Matcher.find_nearest_onset MoreSamples.half_onsets (-3) 0.51 0.04) in
  (0 <= h' < len MoreSamples.half_onsets)%Z /\ (Z.max 0 (-3) - 1 <= h')%Z.
Proof.
  apply (returned_hint_in_bounds MoreSamples.half_onsets (-3) 0.51 0.04);
    reflexivity.
Defined.

(** X3.  With a negative tolerance window [find_nearest_onset] never
    matches, whatever the array, the hint and the query time. *)
Theorem negative_window_never_matches (onset_times : list Q) (idx_hint : Z)
    (t window_s : Q) :
  window_s < 0 ->
  fst (Matcher.find_nearest_onset onset_times idx_hint t window_s) = None.
Proof.
  intros Hw.
  destruct (Matcher.find_nearest_onset onset_times idx_hint t window_s)
    as [[x|] h'] eqn:E; [|reflexivity].
  pose proof (matched_onset_in_window onset_times idx_hint t window_s
                x h' E) as Hin.
  unfold Matcher.in_window in Hin.
  pose proof (Qabs_nonneg (x - t)). lra.
Qed.

Lemma negative_window_never_matches_witness :
  fst (Matcher.find_nearest_onset MoreSamples.half_onsets 0 0.5 (-0.04))
  = None.
Proof.
  apply (negative_window_never_matches MoreSamples.half_onsets 0 0.5 (-0.04)).
  reflexivity.
Defined.
(** ** Sorting keeps the length *)

Lemma insert_sorted_length (x : Q) (s : list Q) :
  length (Estimator.insert_sorted x s) = S (length s).
Proof.
  induction s as [|y s IH]; simpl; [reflexivity|].
  destruct (fle x y); simpl; [reflexivity|]. rewrite IH. reflexivity.
Qed.

Lemma sort_floats_length (a : list Q) :
  length (Estimator.sort_floats a) = length a.
Proof.
  induction a as [|x a IH]; simpl; [reflexivity|].
  rewrite insert_sorted_length, IH. reflexivity.
Qed.


(** ** The slope estimator without spread *)

Lemma constant_ascending (q : Q) (a : list Q) :
  Forall (eq q) a -> StronglySorted Qle a.
Proof.
  induction 1 as [|x a Hx Ha IH]; constructor; [exact IH|].
  subst x. eapply Forall_impl; [|exact Ha].
  intros y <-. apply Qle_refl.
Qed.

Lemma constant_nth (q : Q) (a : list Q) (k : nat) :
  Forall (eq q) a -> (k < length a)%nat -> nth k a 0 = q.
Proof.
  intros Ha Hk. rewrite Forall_forall in Ha. symmetry. apply Ha.
  apply nth_In. exact Hk.
Qed.

Lemma constant_median (q : Q) (a : list Q) :
  Forall (eq q) a -> a <> [] ->
  exists m, Estimator.np_median a = Some m /\ m == q.
Proof.
  intros Ha Hne. destruct a as [|x a]; [contradiction|].
  rewrite np_median_cons. cbv zeta.
  rewrite (sort_floats_ascending _ (constant_ascending q _ Ha)).
  set (n := length (x :: a)).
  assert (Hn : (0 < n)%nat) by (unfold n; simpl; lia).
  assert (Hhalf : (n / 2 < n)%nat) by (apply Nat.div_lt; lia).
  destruct (Nat.even n); eexists; (split; [reflexivity|]).
  - rewrite !(constant_nth q) by (auto; fold n; lia). field.
  - rewrite (constant_nth q) by (auto; fold n; lia). reflexivity.
Qed.

Lemma dot_zero (u v : list Q) :
  Forall (fun x => x == 0) u -> Estimator.dot u v == 0.
Proof.
  unfold Estimator.dot. intros Hu. revert v.
  induction Hu as [|x u Hx _ IH]; intros v; simpl; [reflexivity|].
  destruct v as [|y v]; simpl; [reflexivity|].
  rewrite (IH v), Hx. ring.
Qed.

(** X6.  When every beat index of the window is the same,
    [robust_slope_s_per_beat] returns 0: the guard on the denominator
    answers instead of a division by zero. *)
Theorem slope_without_spread (i : Z) (beat_indices : list Z)
    (errors_s : list Q) :
  (forall j, In j beat_indices -> j = i) ->
  Estimator.robust_slope_s_per_beat beat_indices errors_s = 0.
Proof.
  intros Hall. unfold Estimator.robust_slope_s_per_beat.
  destruct (len (map inject_Z beat_indices) <? 6)%Z eqn:E6; [reflexivity|].
  assert (Hx : Forall (eq (inject_Z i)) (map inject_Z beat_indices)).
  { rewrite Forall_forall. intros q Hq. apply in_map_iff in Hq.
    destruct Hq as (j & <- & Hj). rewrite (Hall j Hj). reflexivity. }
  assert (Hne : map inject_Z beat_indices <> []).
  { intros Hnil. rewrite Hnil in E6. discriminate. }
  destruct (constant_median _ _ Hx Hne) as (m & Hm & Hmq).
  assert (H0 : Forall (fun v => v == 0)
                 (Estimator.centre (map inject_Z beat_indices))).
  { unfold Estimator.centre. rewrite Hm. rewrite Forall_forall.
    intros v Hv. apply in_map_iff in Hv. destruct Hv as (q & <- & Hq).
    rewrite Forall_forall in Hx. rewrite <- (Hx q Hq), Hmq. ring. }
  replace (fle _ 1e-12) with true; [reflexivity|].
  symmetry. apply fle_iff. rewrite (dot_zero _ _ H0). discriminate.
Qed.

Lemma slope_without_spread_witness :
  Estimator.robust_slope_s_per_beat [4; 4; 4; 4; 4; 4; 4]%Z
    [0.01; 0.02; 0.03; 0.04; 0.05; 0.06; 0.07] = 0.
Proof.
  apply (slope_without_spread 4).
  intros j Hj. simpl in Hj. intuition.
Defined.

(** ** The phase selector *)

Section WalkFacts.
Import Phase.

Variable ot : list Q.
Variables cand_t0 interval match_window_s search_seconds : Q.

(** A grid walk adds one error per match, each within the window. *)
Lemma phase_beats_counts (fuel : nat) :
  forall (h b : Z) (t : Q) (errs : list Q) (matches : Z)
         (errs' : list Q) (matches' : Z),
    phase_beats fuel ot cand_t0 interval match_window_s search_seconds
      h b t errs matches = Some (errs', matches') ->
    (matches' - len errs' = matches - len errs)%Z
    /\ (Forall (fun e => Qabs e <= match_window_s) errs ->
        Forall (fun e => Qabs e <= match_window_s) errs').
Proof.
  induction fuel as [|fuel IH]; intros h b t errs matches errs' matches' H.
  - discriminate.
  - rewrite phase_beats_S in H.
    destruct (fle t (cand_t0 + search_seconds)).
    2:{ inversion H; subst. split; [reflexivity|auto]. }
    destruct (Matcher.find_nearest_onset ot h t match_window_s)
      as [[v|] h'] eqn:Ef.
    + apply IH in H. destruct H as [Hc Hw]. split.
      * unfold len in *. rewrite length_app in Hc. simpl in Hc. lia.
      * intros Hall. apply Hw. apply Forall_app. split; [exact Hall|].
        constructor; [|constructor].
        exact (matched_onset_in_window _ _ _ _ _ _ Ef).
    + apply IH in H. exact H.
Qed.

End WalkFacts.

Lemma candidate_walk_nonneg (fuel : nat) (ot : list Q)
    (t0 interval match_window_s search_seconds : Q) (phase_divisions k : Z)
    (errs : list Q) (matches : Z) :
  Candidates.candidate_walk fuel ot t0 interval match_window_s
    search_seconds phase_divisions k = Some (errs, matches) ->
  (0 <= matches)%Z.
Proof.
  unfold Candidates.candidate_walk. intros H.
  apply phase_beats_counts in H. destruct H as [Hc _].
  unfold len in *. simpl in Hc. lia.
Qed.

(** X7.  The walk of a candidate anchor counts exactly the errors it
    records ([matches = len(errs)]), and every recorded error is within
    the match window in absolute value. *)
Theorem candidate_walk_counts (fuel : nat) (ot : list Q)
    (t0 interval match_window_s search_seconds : Q) (phase_divisions k : Z)
    (errs : list Q) (matches : Z) :
  Candidates.candidate_walk fuel ot t0 interval match_window_s
    search_seconds phase_divisions k = Some (errs, matches) ->
  matches = len errs
  /\ Forall (fun e => Qabs e <= match_window_s) errs.
Proof.
  unfold Candidates.candidate_walk. intros H.
  apply phase_beats_counts in H. destruct H as [Hc Hw].
  split; [unfold len in *; simpl in Hc; lia|apply Hw; constructor].
Qed.

Lemma candidate_walk_counts_witness :
  2%Z = len [0 - (0 + 0 / 4 * 0.5); 0.5 - (0 + 0 / 4 * 0.5 + 1 * 0.5)]
  /\ Forall (fun e => Qabs e <= 0.04)
       [0 - (0 + 0 / 4 * 0.5); 0.5 - (0 + 0 / 4 * 0.5 + 1 * 0.5)].
Proof.
  apply (candidate_walk_counts 10 [0; 0.5] 0 0.5 0.04 0.7 4 0).
  reflexivity.
Defined.

Section SelectionFacts.
Import Phase Candidates.

Variable fuel : nat.
Variable ot : list Q.
Variables t0 interval match_window_s search_seconds : Q.
Variable phase_divisions : Z.

Local Abbreviation walk :=
  (candidate_walk fuel ot t0 interval match_window_s search_seconds
     phase_divisions).
Local Abbreviation cand := (candidate_anchor t0 interval phase_divisions).

Local Abbreviation best_of :=
  (Candidates.best_of fuel ot t0 interval match_window_s search_seconds
     phase_divisions).

Lemma phase_candidate_best (seen : list Z) (b b' : best) (k : Z) :
  best_of seen b ->
  phase_candidate fuel ot t0 interval match_window_s search_seconds
    phase_divisions b k = Some b' ->
  best_of (seen ++ [k]) b'.
Proof.
  intros [Hmax Hsel] H. unfold phase_candidate in H.
  unfold Candidates.best_of.
  fold (cand k) in H. fold (walk k) in H.
  destruct (walk k) as [[errs matches]|] eqn:Hw; [|discriminate].
  pose proof (candidate_walk_nonneg fuel ot t0 interval match_window_s
                search_seconds phase_divisions k errs matches Hw) as Hpos.
  assert (Hsel' : forall b0,
            ((best_matches b0 = (-1)%Z /\ best_t0 b0 = t0)
             \/ exists k0 errs0, In k0 seen
                  /\ walk k0 = Some (errs0, best_matches b0)
                  /\ best_t0 b0 = cand k0 /\ (0 < best_matches b0)%Z) ->
            ((best_matches b0 = (-1)%Z /\ best_t0 b0 = t0)
             \/ exists k0 errs0, In k0 (seen ++ [k])
                  /\ walk k0 = Some (errs0, best_matches b0)
                  /\ best_t0 b0 = cand k0 /\ (0 < best_matches b0)%Z)).
  { intros b0 [Hs|(k0 & e0 & Hin & Hs)]; [left; exact Hs|right].
    exists k0, e0. split; [apply in_or_app; left; exact Hin|exact Hs]. }
  assert (Hkeep : (matches <= Z.max 0 (best_matches b))%Z ->
            best_of (seen ++ [k]) b).
  { intros Hle. unfold Candidates.best_of.
    split; [|apply Hsel'; exact Hsel].
    intros k' e' m' Hin Hw'. apply in_app_or in Hin.
    destruct Hin as [Hin|[<-|[]]]; [eapply Hmax; eauto|].
    rewrite Hw in Hw'. inversion Hw'; subst. exact Hle. }
  destruct (matches =? 0)%Z eqn:E0.
  { inversion H; subst b'. apply Hkeep. apply Z.eqb_eq in E0. lia. }
  apply Z.eqb_neq in E0.
  destruct ((best_matches b <? matches)%Z
            || ((matches =? best_matches b)%Z && _)) eqn:Ec.
  - inversion H; subst b'; clear H. simpl. split.
    + intros k' e' m' Hin Hw'. apply in_app_or in Hin.
      destruct Hin as [Hin|[<-|[]]].
      * specialize (Hmax k' e' m' Hin Hw').
        apply orb_true_iff in Ec. destruct Ec as [Ec|Ec].
        -- apply Z.ltb_lt in Ec. lia.
        -- apply andb_true_iff in Ec. destruct Ec as [Ec _].
           apply Z.eqb_eq in Ec. lia.
      * rewrite Hw in Hw'. inversion Hw'; subst. lia.
    + right. exists k, errs. split; [apply in_or_app; right; simpl; auto|].
      split; [exact Hw|]. split; [reflexivity|lia].
  - inversion H; subst b'. apply Hkeep.
    apply orb_false_iff in Ec. destruct Ec as [Ec _].
    apply Z.ltb_ge in Ec. lia.
Qed.

Lemma phase_loop_best (ks seen : list Z) (b b' : best) :
  best_of seen b ->
  phase_loop fuel ot t0 interval match_window_s search_seconds
    phase_divisions b ks = Some b' ->
  best_of (seen ++ ks) b'.
Proof.
  revert seen b. induction ks as [|k ks IH]; intros seen b Hb H; simpl in H.
  - inversion H; subst. rewrite app_nil_r. exact Hb.
  - destruct (phase_candidate fuel _ _ _ _ _ _ b k) as [b1|] eqn:Hb1;
      [|discriminate].
    replace (seen ++ k :: ks) with ((seen ++ [k]) ++ ks)
      by (rewrite <- app_assoc; reflexivity).
    apply (IH (seen ++ [k]) b1); [|exact H].
    apply (phase_candidate_best seen b b1 k Hb Hb1).
Qed.

End SelectionFacts.

Lemma range_In (n k : Z) : In k (Phase.range n) <-> (0 <= k < n)%Z.
Proof.
  unfold Phase.range. rewrite in_map_iff. split.
  - intros (i & <- & Hi). apply in_seq in Hi. lia.
  - intros Hk. exists (Z.to_nat k). split; [lia|]. apply in_seq. lia.
Qed.

(** What [choose_best_phase] returns: the seed, or one of the candidate
    anchors. *)
Lemma choose_best_phase_form (fuel : nat) (t0 interval : Q)
    (onset_times : list Q) (match_window_s search_seconds : Q)
    (phase_divisions : Z) (r : Q) :
  Phase.choose_best_phase fuel t0 interval onset_times match_window_s
    search_seconds phase_divisions = Some r ->
  r = t0
  \/ exists k,
       (0 <= k < Z.max 1 phase_divisions)%Z
       /\ r = Candidates.candidate_anchor t0 interval
                (Z.max 1 phase_divisions) k.
Proof.
  intros H. unfold Phase.choose_best_phase in H.
  destruct (_ || _); [inversion H; auto|].
  destruct (_ =? 0)%Z; [inversion H; auto|].
  destruct (Phase.phase_loop _ _ _ _ _ _ _ _ _) as [b|] eqn:Hb;
    [|discriminate].
  inversion H; subst r; clear H.
  assert (Hstart : Candidates.best_of fuel
            (filter (fun o => fle (Phase.fmax 0 (t0 - 0.5)) o
                              && fle o (t0 + Phase.fmax 3 search_seconds
                                        + 0.5)) onset_times)
            t0 interval match_window_s (Phase.fmax 3 search_seconds)
            (Z.max 1 phase_divisions) []
            (Phase.mk_best t0 (-1) Phase.Inf)).
  { split; [intros k e m []|left; auto]. }
  destruct (phase_loop_best _ _ _ _ _ _ _ _ _ _ _ Hstart Hb)
    as [_ [[_ Ht0]|(k & _ & Hin & _ & Hc & _)]].
  - left. exact Ht0.
  - right. exists k. apply range_In in Hin. auto.
Qed.

(** X8.  When [choose_best_phase] returns, it returns the seed anchor or
    one of the candidate anchors [t0 + (k / d) * interval],
    [0 <= k < d = max(1, phase_divisions)], whose walk over the onsets of
    the search horizon matched at least once, and no candidate's walk
    matched more often. *)
Theorem phase_picks_most_matches (fuel : nat) (t0 interval : Q)
    (onset_times : list Q) (match_window_s search_seconds : Q)
    (phase_divisions : Z) (r : Q) :
  Phase.choose_best_phase fuel t0 interval onset_times match_window_s
    search_seconds phase_divisions = Some r ->
  let d := Z.max 1 phase_divisions in
  let horizon := Phase.fmax 3 search_seconds in
  let ot := Candidates.horizon_onsets t0 horizon onset_times in
  r = t0
  \/ exists k errs matches,
       (0 <= k < d)%Z
       /\ r = Candidates.candidate_anchor t0 interval d k
       /\ Candidates.candidate_walk fuel ot t0 interval match_window_s
            horizon d k = Some (errs, matches)
       /\ (0 < matches)%Z
       /\ forall k' errs' matches',
            (0 <= k' < d)%Z ->
            Candidates.candidate_walk fuel ot t0 interval match_window_s
              horizon d k' = Some (errs', matches') ->
            (matches' <= matches)%Z.
Proof.
  intros H d horizon ot. unfold Phase.choose_best_phase in H.
  destruct (_ || _); [inversion H; auto|].
  destruct (_ =? 0)%Z; [inversion H; auto|].
  fold d horizon in H.
  change (filter _ onset_times) with ot in H.
  destruct (Phase.phase_loop fuel ot t0 interval match_window_s horizon d
              (Phase.mk_best t0 (-1) Phase.Inf) (Phase.range d))
    as [b|] eqn:Hb; [|discriminate].
  inversion H; subst r; clear H.
  destruct (phase_loop_best fuel ot t0 interval match_window_s horizon d
              (Phase.range d) [] (Phase.mk_best t0 (-1) Phase.Inf) b)
    as [Hmax Hsel]; [|exact Hb|].
  { split; [intros k e m []|left; auto]. }
  simpl in Hmax, Hsel.
  destruct Hsel as [[_ Ht0]|(k & errs & Hin & Hw & Hc & Hpos)];
    [left; exact Ht0|right].
  exists k, errs, (Phase.best_matches b). apply range_In in Hin.
  repeat split; try lia; auto.
  intros k' e' m' Hk' Hw'. apply range_In in Hk'.
  specialize (Hmax k' e' m' Hk' Hw'). lia.
Qed.


Lemma fraction_of_beat (k d : Z) (interval : Q) :
  (0 <= k < d)%Z -> 0 < interval ->
  0 <= inject_Z k / inject_Z d * interval < interval.
Proof.
  intros Hk Hi.
  assert (Hd : 0 < inject_Z d)
    by (change 0 with (inject_Z 0); rewrite <- Zlt_Qlt; lia).
  assert (Hk0 : 0 <= inject_Z k)
    by (change 0 with (inject_Z 0); rewrite <- Zle_Qle; lia).
  assert (Hkd : inject_Z k < inject_Z d) by (rewrite <- Zlt_Qlt; lia).
  assert (H0 : 0 <= inject_Z k / inject_Z d).
  { apply Qle_shift_div_l; [exact Hd|]. lra. }
  assert (H1 : inject_Z k / inject_Z d < 1).
  { apply Qlt_shift_div_r; [exact Hd|]. lra. }
  split; nra.
Qed.

(** X9.  With a positive beat interval the anchor [choose_best_phase]
    returns lies within one beat after the seed anchor:
    [t0 <= r < t0 + interval]; and with [phase_divisions] at most 1 it is
    the seed anchor. *)
Theorem phase_shift_within_one_beat (fuel : nat) (t0 interval : Q)
    (onset_times : list Q) (match_window_s search_seconds : Q)
    (phase_divisions : Z) (r : Q) :
  Phase.choose_best_phase fuel t0 interval onset_times match_window_s
    search_seconds phase_divisions = Some r ->
  0 < interval ->
  (t0 <= r < t0 + interval)
  /\ ((phase_divisions <= 1)%Z -> r == t0).
Proof.
  intros H Hi.
  destruct (choose_best_phase_form _ _ _ _ _ _ _ _ H)
    as [->|(k & Hk & ->)].
  - split; [lra|reflexivity].
  - unfold Candidates.candidate_anchor.
    pose proof (fraction_of_beat k _ interval Hk Hi) as Hf.
    split; [lra|]. intros Hd.
    assert (k = 0%Z) by lia. subst k.
    unfold Qdiv. change (inject_Z 0) with 0. ring.
Qed.

Lemma phase_picks_most_matches_witness :
  let t0 := 0.25 in
  let interval := 0.5 in
  let r := Candidates.candidate_anchor t0 interval 2 1 in
  let d := Z.max 1 2 in
  let horizon := Phase.fmax 3 0.5 in
  let ot := Candidates.horizon_onsets t0 horizon MoreSamples.half_onsets in
  r = t0
  \/ exists k errs matches,
       (0 <= k < d)%Z
       /\ r = Candidates.candidate_anchor t0 interval d k
       /\ Candidates.candidate_walk 10 ot t0 interval 0.04 horizon d k
          = Some (errs, matches)
       /\ (0 < matches)%Z
       /\ forall k' errs' matches',
            (0 <= k' < d)%Z ->
            Candidates.candidate_walk 10 ot t0 interval 0.04 horizon d k'
              = Some (errs', matches') ->
            (matches' <= matches)%Z.
Proof.
  intros t0 interval r.
  apply (phase_picks_most_matches 10 t0 interval MoreSamples.half_onsets
           0.04 0.5 2 r).
  reflexivity.
Defined.

Lemma phase_shift_within_one_beat_witness :
  let t0 := 0.25 in
  let interval := 0.5 in
  let r := Candidates.candidate_anchor t0 interval 2 1 in
  (t0 <= r < t0 + interval) /\ ((2 <= 1)%Z -> r == t0).
Proof.
  intros t0 interval r.
  apply (phase_shift_within_one_beat 10 t0 interval MoreSamples.half_onsets
           0.04 0.5 2 r); reflexivity.
Defined.

(** ** Snapping the anchor and skipping the negative beats *)

Lemma argmin_from_spec (rest : list Q) :
  forall (pre : list Q) (best_j : Z) (best : Q),
    (0 <= best_j < len pre)%Z ->
    get pre best_j = best ->
    (forall k, (0 <= k < len pre)%Z -> best <= get pre k) ->
    let r := Core.argmin_from best_j best (len pre) rest in
    (0 <= r < len (pre ++ rest))%Z
    /\ forall k, (0 <= k < len (pre ++ rest))%Z ->
         get (pre ++ rest) r <= get (pre ++ rest) k.
Proof.
  induction rest as [|v rest IH]; intros pre best_j best Hj Hbest Hmin; simpl.
  - rewrite app_nil_r. rewrite Hbest. split; [lia|exact Hmin].
  - assert (Hlen : (len pre + 1)%Z = len (pre ++ [v])).
    { unfold len. rewrite length_app. simpl. lia. }
    assert (Hsplit : pre ++ v :: rest = (pre ++ [v]) ++ rest)
      by (rewrite <- app_assoc; reflexivity).
    assert (Hold : forall k, (0 <= k < len pre)%Z ->
              get (pre ++ [v]) k = get pre k).
    { intros k Hk. unfold get, len in *. apply app_nth1. lia. }
    assert (Hnew : get (pre ++ [v]) (len pre) = v).
    { unfold get, len. rewrite Nat2Z.id. apply nth_middle. }
    rewrite Hsplit, Hlen.
    destruct (flt v best) eqn:E; float_tests; apply IH.
    + lia.
    + exact Hnew.
    + intros k Hk. destruct (Z.eq_dec k (len pre)) as [->|Hne].
      * rewrite Hnew. apply Qle_refl.
      * rewrite Hold by lia. specialize (Hmin k). 
        assert (best <= get pre k) by (apply Hmin; lia). lra.
    + lia.
    + rewrite Hold by lia. exact Hbest.
    + intros k Hk. destruct (Z.eq_dec k (len pre)) as [->|Hne].
      * rewrite Hnew. exact E.
      * rewrite Hold by lia. apply Hmin. lia.
Qed.

(** [np.argmin] of a non-empty array is an index of a least element. *)
Lemma np_argmin_spec (a : list Q) :
  (0 < len a)%Z ->
  (0 <= Core.np_argmin a < len a)%Z
  /\ forall k, (0 <= k < len a)%Z -> get a (Core.np_argmin a) <= get a k.
Proof.
  destruct a as [|v rest]; [unfold len; simpl; lia|]. intros _.
  unfold Core.np_argmin.
  apply (argmin_from_spec rest [v] 0 v).
  - unfold len. simpl. lia.
  - reflexivity.
  - intros k Hk. unfold len in Hk. simpl in Hk.
    assert (k = 0%Z) by lia. subst k. apply Qle_refl.
Qed.

Lemma get_map (f : Q -> Q) (a : list Q) (k : Z) :
  (0 <= k < len a)%Z -> get (map f a) k = f (get a k).
Proof.
  intros Hk. unfold get, len in *.
  rewrite (nth_indep _ 0 (f 0)) by (rewrite length_map; lia).
  apply map_nth.
Qed.

(** X10.  The anchor snap (lines 290-293) either finds every onset
    farther than [2.5 * window_s] from the seed anchor and keeps the
    anchor, or moves it onto an onset that is within [2.5 * window_s] of
    it and that no other onset beats in distance. *)
Theorem snap_goes_to_nearest_onset (cfg : Core.config)
    (onset_times : list Q) (t0 : Q) :
  let r := Core.snap_anchor cfg onset_times t0 in
  ((forall x, In x onset_times -> Core.window_s cfg * 2.5 < Qabs (x - t0))
   /\ r = t0)
  \/ (In r onset_times
      /\ Qabs (r - t0) <= Core.window_s cfg * 2.5
      /\ forall x, In x onset_times -> Qabs (r - t0) <= Qabs (x - t0)).
Proof.
  unfold Core.snap_anchor.
  destruct (0 <? len onset_times)%Z eqn:En.
  2:{ left. split; [|reflexivity]. intros x Hx.
      apply Z.ltb_ge in En. unfold len in En.
      destruct onset_times; [destruct Hx|simpl in En; lia]. }
  apply Z.ltb_lt in En.
  set (d := map (fun o => Qabs (o - t0)) onset_times).
  assert (Hd : len d = len onset_times)
    by (unfold d, len; rewrite length_map; reflexivity).
  destruct (np_argmin_spec d) as [Hj Hmin]; [lia|].
  set (j0 := Core.np_argmin d) in *. rewrite Hd in Hj.
  assert (Hnear : forall x, In x onset_times ->
            Qabs (get onset_times j0 - t0) <= Qabs (x - t0)).
  { intros x Hx. apply In_get in Hx. destruct Hx as (k & Hk & ->).
    specialize (Hmin k). unfold d in Hmin.
    rewrite !get_map in Hmin by lia. apply Hmin. fold d. lia. }
  destruct (fle _ _) eqn:E; float_tests.
  - right. split; [apply In_get; exists j0; auto|]. auto.
  - left. split; [|reflexivity]. intros x Hx.
    specialize (Hnear x Hx). lra.
Qed.

(** What the loop over the negative beats returns, from any beat on the
    grid. *)
Lemma skip_negative_spec (t0 interval : Q) (fuel : nat) :
  forall (bi : Z) (ti : Q) (b : Z) (t : Q),
    Core.skip_negative fuel t0 interval bi ti = Some (b, t) ->
    ti == t0 + inject_Z bi * interval ->
    (bi <= b)%Z /\ 0 <= t
    /\ forall k, (bi <= k < b)%Z -> t0 + inject_Z k * interval < 0.
Proof.
  induction fuel as [|fuel IH]; intros bi ti b t H Hti.
  - discriminate.
  - rewrite skip_negative_S in H. destruct (flt ti 0) eqn:E; float_tests.
    + apply IH in H; [|reflexivity]. destruct H as (Hb & Ht & Hneg).
      split; [lia|]. split; [exact Ht|].
      intros k Hk. destruct (Z.eq_dec k bi) as [->|Hne].
      * rewrite <- Hti. exact E.
      * apply Hneg. lia.
    + inversion H; subst. split; [lia|]. split; [exact E|]. intros k Hk. lia.
Qed.

(** X11.  The loop over the negative beats (lines 322-324) stops at the
    first beat of the grid whose time is not negative: the beat index
    returned is at least 0, its time is on the grid and not negative,
    and every earlier beat of the grid has a negative time. *)
Theorem first_beat_not_negative (fuel : nat) (t0 interval : Q)
    (b : Z) (t : Q) :
  Core.skip_negative fuel t0 interval 0 t0 = Some (b, t) ->
  (0 <= b)%Z /\ 0 <= t
  /\ t == t0 + inject_Z b * interval
  /\ forall k, (0 <= k < b)%Z -> t0 + inject_Z k * interval < 0.
Proof.
  intros H.
  assert (H0 : t0 == t0 + inject_Z 0 * interval)
    by (change (inject_Z 0) with 0; ring).
  destruct (skip_negative_spec t0 interval fuel 0 t0 b t H H0)
    as (Hb & Ht & Hneg).
  split; [exact Hb|]. split; [exact Ht|]. split; [|exact Hneg].
  apply (skip_negative_grid t0 interval fuel 0 t0 b t H H0).
Qed.

Lemma first_beat_not_negative_witness :
  (0 <= 3)%Z /\ 0 <= (-1.2) + inject_Z 3 * 0.5
  /\ (-1.2) + inject_Z 3 * 0.5 == (-1.2) + inject_Z 3 * 0.5
  /\ forall k, (0 <= k < 3)%Z -> (-1.2) + inject_Z k * 0.5 < 0.
Proof.
  apply (first_beat_not_negative 10 (-1.2) 0.5 3 ((-1.2) + inject_Z 3 * 0.5)).
  reflexivity.
Defined.

(** ** More on the turns of the main loop *)

Section TurnFacts.
Import Core LoopSpec.

Variable cfg : config.
Variable onset_times : list Q.

(** The cases of one turn, with what each emission has tested. *)
Lemma loop_body_emits (s : state) :
  let m := fst (match_beat cfg onset_times s) in
  let s1 := snd (match_beat cfg onset_times s) in
  let s2 := classify cfg s1 in
  loop_body cfg onset_times s = next_beat s1
  \/ loop_body cfg onset_times s = next_beat s2
  \/ exists a, anchor_time m s2 = Some a
       /\ min_gap_ms cfg <= (a - last_point_time s) * 1000
       /\ ((loop_body cfg onset_times s = next_beat (emit_drift a s2)
            /\ bpm_min_change cfg <= Qabs (new_bpm s2 - bpm s))
           \/ loop_body cfg onset_times s = next_beat (emit_jump a s2)).
Proof.
  intros m s1 s2.
  destruct (match_beat_fields cfg onset_times s)
    as (Hbpm & _ & _ & _ & Hlast & _).
  fold s1 in Hbpm, Hlast.
  unfold loop_body.
  replace (match_beat cfg onset_times s) with (m, s1)
    by (unfold m, s1; destruct (match_beat cfg onset_times s); reflexivity).
  destruct (evaluates cfg s1); [|left; reflexivity]. fold s2.
  unfold act.
  destruct (persist cfg <=? eval_streak_drift s2)%Z.
  - destruct (isfinite _ && fle _ _) eqn:Eb; [|right; left; reflexivity].
    destruct (anchor_time m s2) as [a|]; [|right; left; reflexivity].
    destruct (gap_ok cfg (Some a) s2) eqn:Eg; [|right; left; reflexivity].
    right. right. exists a. split; [reflexivity|].
    unfold gap_ok in Eg. simpl in Eg. rewrite Hlast in Eg.
    apply andb_true_iff in Eb. destruct Eb as [_ Eb].
    simpl in Eb. rewrite Hbpm in Eb. float_tests.
    split; [exact Eg|]. left. split; [reflexivity|exact Eb].
  - destruct (persist cfg <=? eval_streak_offset s2)%Z;
      [|right; left; reflexivity].
    destruct (anchor_time m s2) as [a|]; [|right; left; reflexivity].
    destruct (gap_ok cfg (Some a) s2) eqn:Eg; [|right; left; reflexivity].
    right. right. exists a. split; [reflexivity|].
    unfold gap_ok in Eg. simpl in Eg. rewrite Hlast in Eg. float_tests.
    split; [exact Eg|]. right. reflexivity.
Qed.

Lemma loop_body_tempo (s : state) :
  tempo_inv s -> tempo_inv (loop_body cfg onset_times s).
Proof.
  intros (Hi & Hb & Hk & Ht).
  destruct (match_beat_fields cfg onset_times s)
    as (Hbpm & Hint & Ht0 & _ & _ & _ & _ & Hbeat & _).
  set (s1 := snd (match_beat cfg onset_times s)) in *.
  destruct (loop_body_cases cfg onset_times s)
    as [E|[E|(a & _ & _ & [E|E])]]; rewrite E; fold s1;
    unfold tempo_inv; simpl; rewrite ?Hbpm, ?Hint, ?Hbeat.
  - repeat split; auto; try lia; try reflexivity.
  - repeat split; auto; try lia; try reflexivity.
  - repeat split; try lia; try reflexivity.
    apply new_bpm_pos. simpl. rewrite Hbpm. exact Hb.
  - repeat split; auto; try lia; try reflexivity.
Qed.

Lemma loop_body_tail (s : state) :
  0 < bpm s -> tail_inv s -> tail_inv (loop_body cfg onset_times s).
Proof.
  intros Hb [(pre & Hpre) Hall].
  destruct (match_beat_fields cfg onset_times s)
    as (Hbpm & _ & _ & Hpts & Hlast & _).
  set (s1 := snd (match_beat cfg onset_times s)) in *.
  destruct (loop_body_cases cfg onset_times s)
    as [E|[E|(a & _ & _ & [E|E])]]; rewrite E; fold s1;
    unfold tail_inv; simpl; rewrite ?Hbpm, ?Hpts, ?Hlast.
  - split; [exists pre; exact Hpre|exact Hall].
  - split; [exists pre; exact Hpre|exact Hall].
  - split; [eexists; reflexivity|].
    apply Forall_app. split; [exact Hall|].
    constructor; [|constructor]. simpl.
    apply new_bpm_pos. simpl. rewrite Hbpm. exact Hb.
  - split; [eexists; reflexivity|].
    apply Forall_app. split; [exact Hall|].
    constructor; [|constructor]. exact Hb.
Qed.

End TurnFacts.

Lemma entry_state_tempo (fuel : nat) (cfg : Core.config)
    (onset_times : list Q) (bpm_est t0_est : Q) (s0 : Core.state) :
  Core.entry_state fuel cfg onset_times bpm_est t0_est = Some s0 ->
  LoopSpec.tempo_inv s0.
Proof.
  intros H0.
  destruct (entry_state_spec cfg onset_times bpm_est t0_est fuel s0 H0)
    as ((Hb & _ & Ht) & _).
  unfold Core.entry_state in H0.
  destruct (Core.refined_anchor _ _ _ _ _) as [a|]; [|discriminate].
  destruct (Core.skip_negative _ _ _ _ _) as [[b t]|] eqn:Hskip;
    [|discriminate].
  inversion H0; subst s0; clear H0. unfold LoopSpec.tempo_inv. simpl in *.
  repeat split; auto.
  apply (skip_negative_spec _ _ _ _ _ _ _ Hskip).
  change (inject_Z 0) with 0. ring.
Qed.

(** X12.  At every loop head of the analysis the grid is consistent: the
    interval is [60 / bpm], the bpm is positive (no division by zero),
    the beat index is not negative, and the query time is
    [t0 + beat_idx * interval]. *)
Theorem grid_stays_consistent (fuel : nat) (cfg : Core.config)
    (onset_times : list Q) (bpm_est t0_est duration : Q)
    (s0 s : Core.state) :
  Core.entry_state fuel cfg onset_times bpm_est t0_est = Some s0 ->
  Core.reachable cfg onset_times duration s0 s ->
  Core.interval s = 60 / Core.bpm s
  /\ 0 < Core.bpm s
  /\ (0 <= Core.beat_idx s)%Z
  /\ Core.t s == Core.t0 s + inject_Z (Core.beat_idx s) * Core.interval s.
Proof.
  intros H0 Hr.
  apply (reachable_ind_inv cfg onset_times LoopSpec.tempo_inv duration s0 s);
    [| |exact Hr].
  - exact (entry_state_tempo fuel cfg onset_times bpm_est t0_est s0 H0).
  - intros s' Hs' _. apply loop_body_tempo. exact Hs'.
Qed.

Lemma grid_stays_consistent_witness :
  let s0 := Core.mk_state 120 (60 / 120) 0 [(0, 120)] 0 [] [] 0 0 0 0 0 in
  let s := Core.loop_body Samples.default_config [] s0 in
  Core.interval s = 60 / Core.bpm s
  /\ 0 < Core.bpm s
  /\ (0 <= Core.beat_idx s)%Z
  /\ Core.t s == Core.t0 s + inject_Z (Core.beat_idx s) * Core.interval s.
Proof.
  intros s0 s.
  apply (grid_stays_consistent 5 Samples.default_config [] 120 0 10 s0 s).
  - reflexivity.
  - apply Core.reach_turn; [apply Core.reach_entry|reflexivity].
Defined.

(** ** More on the result of the analysis *)

Lemma loop_body_points_grow (cfg : Core.config) (onset_times : list Q)
    (s : Core.state) :
  Core.points (Core.loop_body cfg onset_times s) = Core.points s
  \/ exists p,
       Core.points (Core.loop_body cfg onset_times s) = Core.points s ++ [p].
Proof.
  destruct (match_beat_fields cfg onset_times s) as (_ & _ & _ & Hpts & _).
  destruct (loop_body_cases cfg onset_times s)
    as [E|[E|(a & _ & _ & [E|E])]]; rewrite E; simpl; rewrite Hpts;
    [left|left|right|right]; try reflexivity; eexists; reflexivity.
Qed.

(** X13.  The first timing point the analysis returns is always the
    seed point: the anchor after snapping and phase selection, with the
    seed bpm (or its 120 fallback); later emissions never replace it. *)
Theorem first_point_is_seed (fuel : nat) (cfg : Core.config)
    (onset_times : list Q) (bpm_est t0_est duration : Q)
    (pts : list (Q * Q)) (b : Q) :
  Core.analyze_mode_a fuel cfg onset_times bpm_est t0_est duration
    = Some (pts, b) ->
  exists a rest,
    Core.refined_anchor fuel cfg onset_times bpm_est t0_est = Some a
    /\ pts = (a, Core.seed_bpm bpm_est) :: rest.
Proof.
  unfold Core.analyze_mode_a, Core.final_state. intros H.
  destruct (Core.entry_state fuel cfg onset_times bpm_est t0_est)
    as [s0|] eqn:Hs0; [|discriminate].
  destruct (Core.run_loop fuel cfg onset_times duration s0)
    as [s|] eqn:Hrun; [|discriminate].
  inversion H; subst; clear H.
  destruct (entry_state_spec cfg onset_times bpm_est t0_est fuel s0 Hs0)
    as (_ & _ & Ha & Hp & _).
  exists (Core.t0 s0). 
  destruct (run_loop_inv cfg onset_times
              (fun x => exists rest,
                 Core.points x
                 = (Core.t0 s0, Core.seed_bpm bpm_est) :: rest)
              duration) with (fuel := fuel) (s := s0) (s' := s)
    as [(rest & Hrest) _]; auto.
  - intros x (rest & Hx) _.
    destruct (loop_body_points_grow cfg onset_times x) as [E|(p & E)];
      rewrite E, Hx; eexists; simpl; reflexivity.
  - exists []. exact Hp.
  - exists rest. auto.
Qed.

Lemma first_point_is_seed_witness :
  exists a rest,
    Core.refined_anchor 50 Samples.narrow_config Samples.grid_onsets 120 0
      = Some a
    /\ [(0 + 0 / 4 * (60 / 120), 120)] = (a, Core.seed_bpm 120) :: rest.
Proof.
  apply (first_point_is_seed 50 Samples.narrow_config Samples.grid_onsets
           120 0 2.75 [(0 + 0 / 4 * (60 / 120), 120)] 120).
  vm_compute. reflexivity.
Defined.

(** X14.  The bpm returned beside the timing points (what [main] calls
    the tempo seed) is the bpm of the last timing point returned, and
    every timing point returned has a positive bpm. *)
Theorem returned_bpm_is_last_point (fuel : nat) (cfg : Core.config)
    (onset_times : list Q) (bpm_est t0_est duration : Q)
    (pts : list (Q * Q)) (b : Q) :
  Core.analyze_mode_a fuel cfg onset_times bpm_est t0_est duration
    = Some (pts, b) ->
  (exists pre a, pts = pre ++ [(a, b)])
  /\ Forall (fun p => 0 < snd p) pts.
Proof.
  intros H.
  destruct (analyze_inv cfg onset_times bpm_est t0_est duration
              (fun s => LoopSpec.tail_inv s /\ LoopSpec.tempo_inv s))
    with (fuel := fuel) (pts := pts) (b := b)
    as (s & ([(pre & Hpre) Hall] & _) & -> & ->); [| |exact H|].
  - intros f s Hs. split; [|eapply entry_state_tempo; exact Hs].
    destruct (entry_state_spec cfg onset_times bpm_est t0_est f s Hs)
      as (_ & Hb & _ & Hp & Hl & _).
    unfold LoopSpec.tail_inv. rewrite Hp, Hl, Hb. split.
    + exists []. reflexivity.
    + constructor; [apply seed_bpm_pos|constructor].
  - intros s [Htail Htempo] _. split.
    + apply loop_body_tail; [apply Htempo|exact Htail].
    + apply loop_body_tempo. exact Htempo.
  - split; [|exact Hall]. exists pre, (Core.last_point_time s). exact Hpre.
Qed.

Lemma returned_bpm_is_last_point_witness :
  (exists pre a, [(0.25, 120)] = pre ++ [(a, 120)])
  /\ Forall (fun p : Q * Q => 0 < snd p) [(0.25, 120)].
Proof.
  apply (returned_bpm_is_last_point 30 Samples.default_config [] 120 0.25 10).
  reflexivity.
Defined.

(** X15.  Two consecutive timing points returned by the analysis carry
    the same bpm (a phase reset) or bpm values at least [bpm_min_change]
    apart (a tempo change). *)
Theorem bpm_changes_are_large (fuel : nat) (cfg : Core.config)
    (onset_times : list Q) (bpm_est t0_est duration : Q)
    (pts : list (Q * Q)) (b : Q) :
  Core.analyze_mode_a fuel cfg onset_times bpm_est t0_est duration
    = Some (pts, b) ->
  Sorted (LoopSpec.bpm_step cfg) pts.
Proof.
  intros H.
  destruct (analyze_inv cfg onset_times bpm_est t0_est duration
              (fun s => (exists pre,
                           Core.points s
                           = pre ++ [(Core.last_point_time s, Core.bpm s)])
                        /\ Sorted (LoopSpec.bpm_step cfg) (Core.points s)))
    with (fuel := fuel) (pts := pts) (b := b)
    as (s & (_ & Hs) & -> & _); [| |exact H|exact Hs].
  - intros f s Hs.
    destruct (entry_state_spec cfg onset_times bpm_est t0_est f s Hs)
      as (_ & Hb & _ & Hp & Hl & _).
    rewrite Hp, Hl, Hb. split; [exists []; reflexivity|].
    repeat constructor.
  - intros s [(pre & Hpre) Hs] _.
    destruct (match_beat_fields cfg onset_times s)
      as (Hbpm & _ & _ & Hpts & Hlast & _).
    set (s1 := snd (Core.match_beat cfg onset_times s)) in *.
    destruct (loop_body_emits cfg onset_times s)
      as [E|[E|(a & _ & _ & [[E Hch]|E])]]; rewrite E; fold s1;
      simpl; rewrite ?Hbpm, ?Hpts, ?Hlast.
    + split; [exists pre; exact Hpre|exact Hs].
    + split; [exists pre; exact Hpre|exact Hs].
    + split; [eexists; reflexivity|].
      rewrite Hpre in *. apply sorted_snoc; [exact Hs|].
      right. simpl. exact Hch.
    + split; [eexists; reflexivity|].
      rewrite Hpre in *. apply sorted_snoc; [exact Hs|].
      left. reflexivity.
Qed.

Lemma bpm_changes_are_large_witness :
  exists b : Q,
    let pts := [(0 + 0 / 1 * (60 / 120), 120); (2.03, 120); (5.06, b)] in
    Core.analyze_mode_a 40 RunSamples.quick_config RunSamples.shifted_onsets
      120 0 7 = Some (pts, b)
    /\ ~ b == 120
    /\ Sorted (LoopSpec.bpm_step RunSamples.quick_config) pts.
Proof.
  with_shifted_bpm ltac:(fun b => exists b).
  cbv zeta.
  match goal with |- ?A /\ _ =>
    assert (E : A) by (vm_compute; reflexivity) end.
  split; [exact E|]. split; [vm_compute; discriminate|].
  exact (bpm_changes_are_large 40 RunSamples.quick_config
           RunSamples.shifted_onsets 120 0 7 _ _ E).
Defined.

(** X16.  A turn that appends a timing point [(a, b)] re-anchors the
    grid on it: afterwards the grid time of the beat just handled is
    [a], the next query time is [a] plus the new interval, the current
    bpm is [b], the last emission time is [a], and both deques and both
    counters are cleared. *)
Theorem emission_reanchors_grid (cfg : Core.config) (onset_times : list Q)
    (s : Core.state) (a b : Q) :
  let s' := Core.loop_body cfg onset_times s in
  Core.points s' = Core.points s ++ [(a, b)] ->
  Core.t0 s' + inject_Z (Core.beat_idx s) * Core.interval s' == a
  /\ Core.t s' == a + Core.interval s'
  /\ Core.beat_idx s' = (Core.beat_idx s + 1)%Z
  /\ Core.bpm s' = b
  /\ Core.last_point_time s' = a
  /\ Core.err_q s' = [] /\ Core.idx_q s' = []
  /\ Core.eval_streak_drift s' = 0%Z /\ Core.eval_streak_offset s' = 0%Z.
Proof.
  intros s' H.
  destruct (match_beat_fields cfg onset_times s)
    as (Hbpm & _ & _ & Hpts & _ & _ & _ & Hbeat & _).
  assert (Hno : Core.points s <> Core.points s ++ [(a, b)]).
  { intros Heq. apply (f_equal (@length _)) in Heq.
    rewrite length_app in Heq. simpl in Heq. lia. }
  unfold s' in *.
  destruct (loop_body_cases cfg onset_times s)
    as [E|[E|(a' & _ & _ & [E|E])]]; rewrite E in *;
    simpl in H; rewrite ?Hpts in H; try contradiction;
    apply app_inj_tail in H; destruct H as [_ H]; inversion H; subst;
    simpl; rewrite ?Hbeat, ?Hbpm;
    (split; [ring|]); (split; [rewrite inject_Z_succ; ring|]);
    repeat split; reflexivity.
Qed.

Lemma emission_reanchors_grid_witness :
  let s := Samples.late_state 0 in
  let s' := Core.loop_body Samples.default_config [] s in
  let a := 7 + (0.03 + 0.03) / 2 in
  Core.t0 s' + inject_Z (Core.beat_idx s) * Core.interval s' == a
  /\ Core.t s' == a + Core.interval s'
  /\ Core.beat_idx s' = (Core.beat_idx s + 1)%Z
  /\ Core.bpm s' = 120
  /\ Core.last_point_time s' = a
  /\ Core.err_q s' = [] /\ Core.idx_q s' = []
  /\ Core.eval_streak_drift s' = 0%Z /\ Core.eval_streak_offset s' = 0%Z.
Proof.
  intros s s' a.
  apply (emission_reanchors_grid Samples.default_config [] s a 120).
  reflexivity.
Defined.

(** ** Bounds on the window and on the emission times *)

Lemma insert_sorted_Forall (P : Q -> Prop) (x : Q) (s : list Q) :
  P x -> Forall P s -> Forall P (Estimator.insert_sorted x s).
Proof.
  intros Hx. induction 1 as [|y s Hy Hs IH]; simpl.
  - repeat constructor. exact Hx.
  - destruct (fle x y); repeat constructor; auto.
Qed.

Lemma sort_floats_Forall (P : Q -> Prop) (a : list Q) :
  Forall P a -> Forall P (Estimator.sort_floats a).
Proof.
  induction 1 as [|x a Hx Ha IH]; simpl; [constructor|].
  apply insert_sorted_Forall; assumption.
Qed.

(** The median lies between any bounds of the array. *)
Lemma np_median_bounded (lo hi : Q) (a : list Q) (m : Q) :
  Forall (fun e => lo <= e <= hi) a ->
  Estimator.np_median a = Some m -> lo <= m <= hi.
Proof.
  intros Ha Hm. destruct a as [|x a]; [discriminate|].
  assert (Hgoal : match Estimator.np_median (x :: a) with
                  | Some m' => lo <= m' <= hi
                  | None => True
                  end).
  { rewrite np_median_cons. cbv zeta.
    pose proof (sort_floats_Forall _ _ Ha) as Hs.
    pose proof (sort_floats_length (x :: a)) as Hlen.
    set (s := Estimator.sort_floats (x :: a)) in *.
    set (n := length (x :: a)) in *.
    assert (Hn : (0 < n)%nat) by (unfold n; simpl; lia).
    assert (Hhalf : (n / 2 < n)%nat) by (apply Nat.div_lt; lia).
    assert (Hnth : forall k, (k < n)%nat -> lo <= nth k s 0 <= hi).
    { intros k Hk. rewrite Forall_forall in Hs. apply Hs.
      apply nth_In. lia. }
    destruct (Nat.even n).
    - pose proof (Hnth (n / 2 - 1)%nat ltac:(lia)) as H1.
      pose proof (Hnth (n / 2)%nat Hhalf) as H2.
      remember (nth (n / 2 - 1) s 0) as u eqn:Hu.
      remember (nth (n / 2) s 0) as v eqn:Hv. clear Hu Hv.
      assert (Hq : (u + v) / 2 == (u + v) * (1 # 2)) by field.
      remember ((u + v) / 2) as w eqn:Hw. clear Hw.
      split; lra.
    - apply Hnth. exact Hhalf. }
  rewrite Hm in Hgoal. exact Hgoal.
Qed.

Lemma deque_append_Forall {A : Type} (P : A -> Prop) (m : Z) (q : list A)
    (x : A) :
  Forall P q -> P x -> Forall P (Core.deque_append m q x).
Proof.
  intros Hq Hx. unfold Core.deque_append.
  assert (Hall : Forall P (q ++ [x]))
    by (apply Forall_app; split; [exact Hq|repeat constructor; exact Hx]).
  destruct (m <? _)%Z; [|exact Hall].
  destruct (q ++ [x]); simpl; [constructor|exact (Forall_inv_tail Hall)].
Qed.

Section EmissionBounds.
Import Core LoopSpec.

Variable cfg : config.
Variable onset_times : list Q.

(** A match of this beat is within the window of its query time. *)
Lemma match_beat_in_window (s : state) (v : Q) :
  fst (match_beat cfg onset_times s) = Some v ->
  Qabs (v - t s) <= window_s cfg.
Proof.
  unfold match_beat.
  destruct (Matcher.find_nearest_onset onset_times (onset_idx_hint s)
              (t s) (window_s cfg)) as [[x|] h] eqn:Ef; simpl;
    intros H; [|discriminate].
  inversion H; subst.
  exact (matched_onset_in_window _ _ _ _ _ _ Ef).
Qed.

Lemma match_beat_errors (s : state) :
  errors_inv cfg s -> errors_inv cfg (snd (match_beat cfg onset_times s)).
Proof.
  intros Hs. unfold errors_inv.
  destruct (match_beat_fields cfg onset_times s)
    as (_ & _ & _ & _ & _ & _ & _ & _ & _ & He & _).
  rewrite He.
  destruct (fst (match_beat cfg onset_times s)) as [v|] eqn:Ev; [|exact Hs].
  apply deque_append_Forall; [exact Hs|].
  apply match_beat_in_window. exact Ev.
Qed.

Lemma loop_body_errors (s : state) :
  errors_inv cfg s -> errors_inv cfg (loop_body cfg onset_times s).
Proof.
  intros Hs. apply match_beat_errors in Hs.
  destruct (loop_body_cases cfg onset_times s)
    as [E|[E|(a & _ & _ & [E|E])]]; rewrite E; unfold errors_inv; simpl;
    auto; constructor.
Qed.

(** The anchor of an emission is within the window of the query time of
    its beat. *)
Lemma anchor_in_window (s : state) (a : Q) :
  errors_inv cfg s ->
  anchor_time (fst (match_beat cfg onset_times s))
    (classify cfg (snd (match_beat cfg onset_times s))) = Some a ->
  Qabs (a - t s) <= window_s cfg.
Proof.
  intros Hs Ha. apply match_beat_errors in Hs.
  destruct (match_beat_fields cfg onset_times s)
    as (_ & _ & _ & _ & _ & _ & _ & _ & Ht & _).
  unfold anchor_time in Ha.
  destruct (fst (match_beat cfg onset_times s)) as [v|] eqn:Em.
  - inversion Ha; subst. apply match_beat_in_window. exact Em.
  - unfold med_e in Ha. simpl in Ha.
    destruct (Estimator.np_median _) as [e|] eqn:Hmed; [|discriminate].
    simpl in Ha. inversion Ha; subst; clear Ha. rewrite Ht.
    assert (Hb : - window_s cfg <= e <= window_s cfg).
    { apply (np_median_bounded _ _ _ _ (Forall_impl _
               (fun e He => proj1 (Qabs_Qle_condition e _) He) Hs) Hmed). }
    apply Qabs_Qle_condition. split; lra.
Qed.

(** Every turn keeps the later timing points before
    [duration + window_s]. *)
Lemma loop_body_late (duration : Q) (s : state) :
  errors_inv cfg s ->
  points s <> [] ->
  Forall (fun p => fst p <= duration + window_s cfg) (tl (points s)) ->
  loop_cond cfg duration s = true ->
  points (loop_body cfg onset_times s) <> []
  /\ Forall (fun p => fst p <= duration + window_s cfg)
       (tl (points (loop_body cfg onset_times s))).
Proof.
  intros He Hne Hall Hc.
  unfold loop_cond in Hc. apply andb_true_iff in Hc. destruct Hc as [Hc _].
  apply fle_iff in Hc.
  destruct (match_beat_fields cfg onset_times s) as (_ & _ & _ & Hpts & _).
  assert (Hemit : forall a bv,
            anchor_time (fst (match_beat cfg onset_times s))
              (classify cfg (snd (match_beat cfg onset_times s))) = Some a ->
            points s ++ [(a, bv)] <> []
            /\ Forall (fun p => fst p <= duration + window_s cfg)
                 (tl (points s ++ [(a, bv)]))).
  { intros a bv Ha. split; [destruct (points s); discriminate|].
    pose proof (anchor_in_window s a He Ha) as Hw.
    apply Qabs_Qle_condition in Hw.
    destruct (points s) as [|p ps]; [contradiction|]. simpl in *.
    apply Forall_app. split; [exact Hall|].
    constructor; [simpl; lra|constructor]. }
  destruct (loop_body_emits cfg onset_times s)
    as [E|[E|(a & Ha & _ & [[E _]|E])]]; rewrite E; simpl; rewrite Hpts;
    auto.
Qed.

End EmissionBounds.

(** X17.  Apart from the first (seed) point, no timing point returned by
    the analysis is later than [duration + window_s]: an emission is
    anchored within the match window of a beat that is not after the end
    of the audio. *)
Theorem later_points_before_end (fuel : nat) (cfg : Core.config)
    (onset_times : list Q) (bpm_est t0_est duration : Q)
    (pts : list (Q * Q)) (b : Q) :
  Core.analyze_mode_a fuel cfg onset_times bpm_est t0_est duration
    = Some (pts, b) ->
  Forall (fun p => fst p <= duration + Core.window_s cfg) (tl pts).
Proof.
  intros H.
  destruct (analyze_inv cfg onset_times bpm_est t0_est duration
              (fun s => LoopSpec.errors_inv cfg s
                        /\ Core.points s <> []
                        /\ Forall (fun p => fst p
                                            <= duration + Core.window_s cfg)
                             (tl (Core.points s))))
    with (fuel := fuel) (pts := pts) (b := b)
    as (s & (_ & _ & Hs) & -> & _); [| |exact H|exact Hs].
  - intros f s Hs.
    destruct (entry_state_spec cfg onset_times bpm_est t0_est f s Hs)
      as (_ & _ & _ & Hp & _ & He & _).
    unfold LoopSpec.errors_inv. rewrite Hp, He. simpl.
    split; [constructor|]. split; [discriminate|constructor].
  - intros s (He & Hne & Hall) Hc. split.
    + apply loop_body_errors. exact He.
    + apply loop_body_late; assumption.
Qed.

Lemma later_points_before_end_witness :
  exists b : Q,
    let pts := [(0 + 0 / 1 * (60 / 120), 120); (2.03, 120); (5.06, b)] in
    Core.analyze_mode_a 40 RunSamples.quick_config RunSamples.shifted_onsets
      120 0 7 = Some (pts, b)
    /\ Forall
         (fun p : Q * Q =>
            fst p <= 7 + Core.window_s RunSamples.quick_config)
         (tl pts).
Proof.
  with_shifted_bpm ltac:(fun b => exists b).
  cbv zeta.
  match goal with |- ?A /\ _ =>
    assert (E : A) by (vm_compute; reflexivity) end.
  split; [exact E|].
  exact (later_points_before_end 40 RunSamples.quick_config
           RunSamples.shifted_onsets 120 0 7 _ _ E).
Defined.

(** ** A window without error *)

Lemma dot_zero_r (u v : list Q) :
  Forall (fun y => y == 0) v -> Estimator.dot u v == 0.
Proof.
  unfold Estimator.dot. intros Hv. revert u.
  induction Hv as [|y v Hy _ IH]; intros u.
  - destruct u; reflexivity.
  - destruct u as [|x u]; simpl; [reflexivity|].
    rewrite (IH u), Hy. ring.
Qed.

Lemma median_of_zeros (a : list Q) (m : Q) :
  Forall (fun e => e == 0) a -> Estimator.np_median a = Some m -> m == 0.
Proof.
  intros Ha Hm.
  assert (Hb : 0 <= m <= 0).
  { apply (np_median_bounded 0 0 a m); [|exact Hm].
    eapply Forall_impl; [|exact Ha]. simpl. intros e He. lra. }
  lra.
Qed.

Lemma slope_of_zeros (idx : list Z) (errs : list Q) :
  Forall (fun e => e == 0) errs ->
  Estimator.robust_slope_s_per_beat idx errs == 0.
Proof.
  intros Hz. unfold Estimator.robust_slope_s_per_beat.
  destruct (_ <? 6)%Z; [reflexivity|].
  destruct (fle _ 1e-12); [reflexivity|].
  assert (H0 : Forall (fun y => y == 0) (Estimator.centre errs)).
  { unfold Estimator.centre.
    destruct (Estimator.np_median errs) as [m|] eqn:Hm; [|constructor].
    pose proof (median_of_zeros errs m Hz Hm) as Hm0.
    rewrite Forall_forall in *. intros y Hy.
    apply in_map_iff in Hy. destruct Hy as (e & <- & He).
    rewrite (Hz e He), Hm0. ring. }
  rewrite (dot_zero_r _ _ H0). unfold Qdiv. ring.
Qed.

(** X18.  On a beat where the classifier runs on a window whose errors
    are all zero, with positive offset and drift thresholds and
    [persist] at least 1, nothing is emitted and both persistence
    counters are back at 0: a perfectly aligned window is stable. *)
Theorem aligned_window_is_stable (cfg : Core.config)
    (onset_times : list Q) (s : Core.state) :
  let s1 := snd (Core.match_beat cfg onset_times s) in
  let s' := Core.loop_body cfg onset_times s in
  Core.evaluates cfg s1 = true ->
  Forall (fun e => e == 0) (Core.err_q s1) ->
  0 < Core.offset_threshold_ms cfg ->
  0 < Core.drift_slope_ms_per_beat cfg ->
  (1 <= Core.persist cfg)%Z ->
  Core.points s' = Core.points s
  /\ Core.bpm s' = Core.bpm s /\ Core.interval s' = Core.interval s
  /\ Core.t0 s' = Core.t0 s
  /\ Core.eval_streak_drift s' = 0%Z /\ Core.eval_streak_offset s' = 0%Z.
Proof.
  intros s1 s' Hev Hz Hthr Hd Hp.
  destruct (match_beat_fields cfg onset_times s)
    as (Hbpm & Hint & Ht0 & Hpts & _).
  fold s1 in Hbpm, Hint, Ht0, Hpts.
  pose proof (slope_of_zeros (Core.idx_q s1) (Core.err_q s1) Hz) as Hsl.
  assert (Hdrift : Core.is_drift cfg s1 = false).
  { unfold Core.is_drift, Core.slope. apply fle_false.
    rewrite Hsl. exact Hd. }
  assert (Hjump : Core.is_jump cfg s1 = false).
  { unfold Core.is_jump, Core.med_e.
    destruct (Estimator.np_median (Core.err_q s1)) as [m|] eqn:Hm;
      [|reflexivity].
    replace (fle _ (Qabs (m * 1000))) with false; [reflexivity|].
    symmetry. apply fle_false.
    rewrite (median_of_zeros _ m Hz Hm). exact Hthr. }
  assert (Hact : s' = Core.next_beat (Core.classify cfg s1)).
  { unfold s', Core.loop_body.
    replace (Core.match_beat cfg onset_times s)
      with (fst (Core.match_beat cfg onset_times s), s1)
      by (unfold s1; destruct (Core.match_beat cfg onset_times s);
          reflexivity).
    rewrite Hev. unfold Core.act. simpl.
    unfold Core.streak_drift', Core.streak_offset'.
    rewrite Hdrift, Hjump.
    replace (Core.persist cfg <=? 0)%Z with false
      by (symmetry; apply Z.leb_gt; lia).
    reflexivity. }
  rewrite Hact. simpl.
  unfold Core.streak_drift', Core.streak_offset'. rewrite Hdrift, Hjump.
  repeat split; assumption.
Qed.

Lemma aligned_window_is_stable_witness :
  let cfg := Samples.default_config in
  let s := MoreSamples.aligned_state in
  let s' := Core.loop_body cfg [] s in
  Core.points s' = Core.points s
  /\ Core.bpm s' = Core.bpm s /\ Core.interval s' = Core.interval s
  /\ Core.t0 s' = Core.t0 s
  /\ Core.eval_streak_drift s' = 0%Z /\ Core.eval_streak_offset s' = 0%Z.
Proof.
  intros cfg s.
  apply (aligned_window_is_stable cfg [] s).
  - reflexivity.
  - simpl. repeat constructor.
  - reflexivity.
  - reflexivity.
  - vm_compute. discriminate.
Defined.

(** ** The drift action *)

Section DriftFacts.
Import Core.

Variable cfg : config.
Variable onset_times : list Q.

(** X19.  On a beat where the classifier runs, the drift counter has
    reached [persist], the proposed bpm differs from the current one by
    at least [bpm_min_change] and the anti-spam test passes, the timing
    point [(anchor, new_bpm)] is appended, the new bpm and the interval
    [60 / new_bpm] are committed, the grid is re-anchored, and the window
    and both counters are cleared; the proposed bpm is
    [60 / (interval + slope)] whenever [interval + slope] exceeds
    [1e-4]. *)
Theorem drift_commits_new_tempo (s : state) (a : Q) :
  let m := fst (match_beat cfg onset_times s) in
  let s1 := snd (match_beat cfg onset_times s) in
  let s2 := classify cfg s1 in
  let s' := loop_body cfg onset_times s in
  evaluates cfg s1 = true ->
  (persist cfg <= eval_streak_drift s2)%Z ->
  bpm_min_change cfg <= Qabs (new_bpm s2 - bpm s) ->
  anchor_time m s2 = Some a ->
  gap_ok cfg (Some a) s2 = true ->
  points s' = points s ++ [(a, new_bpm s2)]
  /\ bpm s' = new_bpm s2
  /\ interval s' = 60 / new_bpm s2
  /\ t0 s' = a - inject_Z (beat_idx s) * (60 / new_bpm s2)
  /\ last_point_time s' = a
  /\ err_q s' = [] /\ idx_q s' = []
  /\ eval_streak_drift s' = 0%Z /\ eval_streak_offset s' = 0%Z
  /\ (1e-4 < interval s + slope s1 ->
      new_bpm s2 = 60 / (interval s + slope s1)).
Proof.
  intros m s1 s2 s' Hev Hd Hch Ha Hgap.
  destruct (match_beat_fields cfg onset_times s)
    as (Hbpm & Hint & _ & Hpts & _ & _ & _ & Hbeat & _).
  fold s1 in Hbpm, Hint, Hpts, Hbeat.
  assert (Hact : s' = next_beat (emit_drift a s2)).
  { unfold s', loop_body.
    replace (match_beat cfg onset_times s) with (m, s1)
      by (unfold m, s1; destruct (match_beat cfg onset_times s); reflexivity).
    rewrite Hev. fold s2. unfold act.
    replace (persist cfg <=? eval_streak_drift s2)%Z with true
      by (symmetry; apply Z.leb_le; exact Hd).
    replace (fle (bpm_min_change cfg) (Qabs (new_bpm s2 - bpm s2)))
      with true
      by (symmetry; apply fle_iff; simpl; rewrite Hbpm; exact Hch).
    unfold isfinite. cbn [andb]. rewrite Ha, Hgap. reflexivity. }
  rewrite Hact. simpl. rewrite Hpts, Hbeat.
  repeat split; try reflexivity.
  intros Hni. unfold new_bpm. simpl. rewrite Hint.
  change (slope s2) with (slope s1).
  replace (flt 1e-4 (interval s + slope s1)) with true; [reflexivity|].
  symmetry. apply flt_iff. exact Hni.
Qed.

(** X20.  On a beat where the classifier runs and the drift counter has
    reached [persist] but the proposed bpm differs from the current one
    by less than [bpm_min_change], nothing is emitted, whatever the
    anti-spam test and the jump counter say; this is so in particular
    when [interval + slope] is at most [1e-4] and [bpm_min_change] is
    positive, the proposed bpm then being the current one. *)
Theorem small_drift_emits_nothing (s : state) :
  let s1 := snd (match_beat cfg onset_times s) in
  let s2 := classify cfg s1 in
  let s' := loop_body cfg onset_times s in
  evaluates cfg s1 = true ->
  (persist cfg <= eval_streak_drift s2)%Z ->
  Qabs (new_bpm s2 - bpm s) < bpm_min_change cfg
  \/ (interval s + slope s1 <= 1e-4 /\ 0 < bpm_min_change cfg) ->
  points s' = points s
  /\ bpm s' = bpm s /\ interval s' = interval s /\ t0 s' = t0 s
  /\ err_q s' = err_q s1 /\ idx_q s' = idx_q s1
  /\ eval_streak_drift s' = eval_streak_drift s2
  /\ eval_streak_offset s' = eval_streak_offset s2.
Proof.
  intros s1 s2 s' Hev Hd Hsmall.
  destruct (match_beat_fields cfg onset_times s)
    as (Hbpm & Hint & Ht0 & Hpts & _).
  fold s1 in Hbpm, Hint, Ht0, Hpts.
  assert (Hch : Qabs (new_bpm s2 - bpm s) < bpm_min_change cfg).
  { destruct Hsmall as [H|[Hni Hpos]]; [exact H|].
    unfold new_bpm. simpl. rewrite Hint, Hbpm.
    change (slope s2) with (slope s1).
    replace (flt 1e-4 (interval s + slope s1)) with false
      by (symmetry; apply flt_false; exact Hni).
    assert (H0 : bpm s - bpm s == 0) by ring.
    rewrite H0. exact Hpos. }
  assert (Hact : s' = next_beat s2).
  { unfold s', loop_body.
    replace (match_beat cfg onset_times s)
      with (fst (match_beat cfg onset_times s), s1)
      by (unfold s1; destruct (match_beat cfg onset_times s); reflexivity).
    rewrite Hev. fold s2. unfold act.
    replace (persist cfg <=? eval_streak_drift s2)%Z with true
      by (symmetry; apply Z.leb_le; exact Hd).
    replace (fle (bpm_min_change cfg) (Qabs (new_bpm s2 - bpm s2)))
      with false
      by (symmetry; apply fle_false; simpl; rewrite Hbpm; exact Hch).
    rewrite andb_false_r. reflexivity. }
  rewrite Hact. simpl. repeat split; assumption.
Qed.

End DriftFacts.

Lemma drift_commits_new_tempo_witness :
  let cfg := Samples.default_config in
  let s := MoreSamples.drifting_state in
  let a := 7 + (0.012 + 0.014) / 2 in
  let s1 := snd (Core.match_beat cfg [] s) in
  let s2 := Core.classify cfg s1 in
  let s' := Core.loop_body cfg [] s in
  Core.points s' = Core.points s ++ [(a, Core.new_bpm s2)]
  /\ Core.bpm s' = Core.new_bpm s2
  /\ Core.interval s' = 60 / Core.new_bpm s2
  /\ Core.t0 s' = a - inject_Z (Core.beat_idx s) * (60 / Core.new_bpm s2)
  /\ Core.last_point_time s' = a
  /\ Core.err_q s' = [] /\ Core.idx_q s' = []
  /\ Core.eval_streak_drift s' = 0%Z /\ Core.eval_streak_offset s' = 0%Z
  /\ (1e-4 < Core.interval s + Core.slope s1 ->
      Core.new_bpm s2 = 60 / (Core.interval s + Core.slope s1)).
Proof.
  intros cfg s a.
  apply (drift_commits_new_tempo cfg [] s a).
  - reflexivity.
  - vm_compute. discriminate.
  - vm_compute. discriminate.
  - reflexivity.
  - reflexivity.
Defined.

Lemma small_drift_emits_nothing_witness :
  let cfg := MoreSamples.cautious_config in
  let s := MoreSamples.drifting_state in
  let s1 := snd (Core.match_beat cfg [] s) in
  let s2 := Core.classify cfg s1 in
  let s' := Core.loop_body cfg [] s in
  Core.points s' = Core.points s
  /\ Core.bpm s' = Core.bpm s /\ Core.interval s' = Core.interval s
  /\ Core.t0 s' = Core.t0 s
  /\ Core.err_q s' = Core.err_q s1 /\ Core.idx_q s' = Core.idx_q s1
  /\ Core.eval_streak_drift s' = Core.eval_streak_drift s2
  /\ Core.eval_streak_offset s' = Core.eval_streak_offset s2.
Proof.
  intros cfg s.
  apply (small_drift_emits_nothing cfg [] s).
  - reflexivity.
  - vm_compute. discriminate.
  - left. vm_compute. reflexivity.
Defined.

(** ** The refined anchor *)

Lemma snap_anchor_near (cfg : Core.config) (onset_times : list Q) (t0 : Q) :
  0 <= Core.window_s cfg ->
  Qabs (Core.snap_anchor cfg onset_times t0 - t0) <= Core.window_s cfg * 2.5.
Proof.
  intros Hw. unfold Core.snap_anchor.
  assert (Hsame : Qabs (t0 - t0) <= Core.window_s cfg * 2.5).
  { assert (H0 : t0 - t0 == 0) by ring. rewrite H0.
    change (Qabs 0) with 0. lra. }
  destruct (0 <? len onset_times)%Z; [|exact Hsame].
  destruct (fle _ _) eqn:E; [|exact Hsame].
  apply fle_iff in E. exact E.
Qed.

(** X21.  With a non-negative match window, the anchor of the first
    timing point (the seed anchor after snapping and phase selection)
    stays close to the seed anchor: not more than [2.5 * window_s]
    before it, and less than [2.5 * window_s] plus one beat interval
    after it. *)
Theorem refined_anchor_near_estimate (fuel : nat) (cfg : Core.config)
    (onset_times : list Q) (bpm_est t0_est a : Q) :
  0 <= Core.match_window_ms cfg ->
  Core.refined_anchor fuel cfg onset_times bpm_est t0_est = Some a ->
  t0_est - Core.window_s cfg * 2.5 <= a
  /\ a < t0_est + Core.window_s cfg * 2.5 + 60 / Core.seed_bpm bpm_est.
Proof.
  intros Hms H. unfold Core.refined_anchor in H.
  assert (Hw : 0 <= Core.window_s cfg).
  { unfold Core.window_s. apply Qle_shift_div_l; [reflexivity|]. lra. }
  pose proof (snap_anchor_near cfg onset_times t0_est Hw) as Hsnap.
  apply Qabs_Qle_condition in Hsnap.
  pose proof (Qdiv_60_pos _ (seed_bpm_pos bpm_est)) as Hi.
  set (r0 := Core.snap_anchor cfg onset_times t0_est) in *.
  set (interval := 60 / Core.seed_bpm bpm_est) in *.
  destruct (choose_best_phase_form _ _ _ _ _ _ _ _ H)
    as [->|(k & Hk & ->)].
  - split; lra.
  - unfold Candidates.candidate_anchor.
    pose proof (fraction_of_beat k _ interval Hk Hi) as Hf.
    split; lra.
Qed.

Lemma refined_anchor_near_estimate_witness :
  let cfg := Samples.default_config in
  let a := 0.49 + 0 / 4 * (60 / 120) in
  0.5 - Core.window_s cfg * 2.5 <= a
  /\ a < 0.5 + Core.window_s cfg * 2.5 + 60 / Core.seed_bpm 120.
Proof.
  intros cfg a.
  apply (refined_anchor_near_estimate 50 cfg [0.49; 1; 1.5] 120 0.5 a).
  - discriminate.
  - vm_compute. reflexivity.
Defined.

(** ** The onset matcher over binary64: the hint *)

Section Matcher64Facts.
Import Matcher64.

Variable onset_times : list float.
Variables t window_s : float.

(** The scan only moves forward. *)
Lemma advance_hint64_from (fuel : nat) (i : Z) :
  (i <= advance_hint onset_times t window_s fuel i)%Z.
Proof.
  revert i. induction fuel as [|fuel IH]; intros i; simpl; [lia|].
  destruct ((i + 1 <? len onset_times)%Z
            && PrimFloat.ltb (get onset_times i) (PrimFloat.sub t window_s));
    [|lia].
  specialize (IH (i + 1)%Z). lia.
Qed.

Lemma candidate64_In (j : Z) (c : float * Z) :
  In c (candidate onset_times t window_s j) -> snd c = j /\ (0 <= j)%Z.
Proof.
  unfold candidate.
  destruct ((0 <=? j)%Z && (j <? len onset_times)%Z) eqn:Eb;
    [|intros []].
  apply andb_true_iff in Eb. destruct Eb as [E0 _].
  apply Z.leb_le in E0.
  destruct (PrimFloat.leb _ window_s); [|intros []].
  intros [<-|[]]. split; [reflexivity|exact E0].
Qed.

(** Every candidate has an index from [i - 1] on, and none below 0. *)
Lemma candidates64_In (i : Z) (c : float * Z) :
  In c (candidates onset_times t window_s i) ->
  (i - 1 <= snd c)%Z /\ (0 <= snd c)%Z.
Proof.
  unfold candidates. intros Hc. apply in_flat_map in Hc.
  destruct Hc as (j & Hj & Hc).
  apply candidate64_In in Hc. destruct Hc as [-> H0].
  simpl in Hj. split; [|exact H0].
  destruct Hj as [<-|[<-|[<-|[<-|[]]]]]; lia.
Qed.

(** [min] returns one of the items it was given. *)
Lemma min_by_dt64_In (best : float * Z) (rest : list (float * Z)) :
  In (min_by_dt best rest) (best :: rest).
Proof.
  revert best. induction rest as [|c rest IH]; intros best; simpl;
    [left; reflexivity|].
  specialize (IH (if PrimFloat.ltb (fst c) (fst best) then c else best)).
  destruct IH as [IH|IH]; [|right; right; exact IH].
  rewrite <- IH.
  destruct (PrimFloat.ltb (fst c) (fst best)); [right|]; left; reflexivity.
Qed.

(** One call: the hint returned is not below the hint passed in, unless
    the call matched the onset stored just below that hint. *)
Lemma find_nearest_onset64_hint (h : Z) (m : option float) (h' : Z) :
  find_nearest_onset onset_times h t window_s = (m, h') ->
  ((0 <= h)%Z -> (0 <= h')%Z)
  /\ ((h <= h')%Z
      \/ (h' = h - 1)%Z /\ m = Some (get onset_times (h - 1))).
Proof.
  unfold find_nearest_onset.
  destruct (len onset_times =? 0)%Z.
  { intros E. inversion E; subst. split; [auto|left; lia]. }
  pose proof (advance_hint64_from (length onset_times) (Z.max 0 h)) as Hadv.
  set (i := advance_hint onset_times t window_s (length onset_times)
              (Z.max 0 h)) in *.
  destruct (candidates onset_times t window_s i) as [|c cs] eqn:Ec.
  { intros E. inversion E; subst. split; [lia|left; lia]. }
  intros E. inversion E; subst. clear E.
  pose proof (min_by_dt64_In c cs) as Hin. rewrite <- Ec in Hin.
  apply candidates64_In in Hin. destruct Hin as [Hlo H0].
  set (j := snd (min_by_dt c cs)) in *.
  split; [intros _; exact H0|].
  destruct (Z_le_gt_dec h j) as [Hle|Hgt]; [left; exact Hle|].
  right. assert (Hj : j = (h - 1)%Z) by lia.
  split; [exact Hj|]. rewrite Hj. reflexivity.
Qed.

End Matcher64Facts.

(** Every call of a scan is a call of the matcher, and the hint it is
    passed is not negative when the scan starts from such a hint. *)
Lemma scan64_calls (onset_times : list float) (window_s : float)
    (ts : list float) (h : Z) :
  (0 <= h)%Z ->
  forall c, In c (Matcher64.scan onset_times window_s h ts) ->
    (0 <= Matcher64.hint_in c)%Z
    /\ Matcher64.find_nearest_onset onset_times (Matcher64.hint_in c)
         (Matcher64.query c) window_s
       = (Matcher64.matched c, Matcher64.hint_out c).
Proof.
  revert h. induction ts as [|t ts IH]; intros h Hh c Hc; [destruct Hc|].
  simpl in Hc.
  destruct (Matcher64.find_nearest_onset onset_times h t window_s)
    as [m h'] eqn:Ef.
  destruct Hc as [<-|Hc]; simpl.
  - split; [exact Hh|exact Ef].
  - apply (IH h'); [|exact Hc].
    destruct (find_nearest_onset64_hint onset_times t window_s h m h' Ef)
      as [H0 _].
    apply H0. exact Hh.
Qed.

(** C5, as amended.  Over binary64, for every call of
    [find_nearest_onset] made within a sequence of query times, the
    hint threaded from call to call starting at 0: the hint index
    returned is not negative, and it is greater than or equal to the
    hint index passed in, except when the call matches the onset stored
    just below the hint passed in; then it is that hint minus one.  So
    the hint never steps back by more than one index. *)
Theorem hint_steps_back_at_most_one (onset_times ts : list float)
    (window_s : float) :
  forall c, In c (Matcher64.scan onset_times window_s 0 ts) ->
    (0 <= Matcher64.hint_out c)%Z
    /\ (Matcher64.hint_in c - 1 <= Matcher64.hint_out c)%Z
    /\ ((Matcher64.hint_in c <= Matcher64.hint_out c)%Z
        \/ (Matcher64.hint_out c = Matcher64.hint_in c - 1)%Z
           /\ Matcher64.matched c
              = Some (Matcher64.get onset_times (Matcher64.hint_in c - 1))).
Proof.
  intros c Hc.
  destruct (scan64_calls onset_times window_s ts 0 (Z.le_refl 0) c Hc)
    as [Hin Hcall].
  destruct (find_nearest_onset64_hint onset_times _ window_s _ _ _ Hcall)
    as [H0 Hstep].
  split; [apply H0; exact Hin|].
  split; [destruct Hstep as [H|[H _]]; lia|exact Hstep].
Qed.

Lemma hint_steps_back_at_most_one_witness :
  let c := Matcher64.mk_call 1 (nth 1 Samples64.tie_queries PrimFloat.zero)
             (Some (nth 0 Samples64.close_onsets PrimFloat.zero)) 0 in
  In c (Matcher64.scan Samples64.close_onsets Samples64.window_s 0
          Samples64.tie_queries)
  /\ (0 <= Matcher64.hint_out c)%Z
  /\ (Matcher64.hint_in c - 1 <= Matcher64.hint_out c)%Z
  /\ ((Matcher64.hint_in c <= Matcher64.hint_out c)%Z
      \/ (Matcher64.hint_out c = Matcher64.hint_in c - 1)%Z
         /\ Matcher64.matched c
            = Some (Matcher64.get Samples64.close_onsets
                      (Matcher64.hint_in c - 1))).
Proof.
  intros c.
  assert (Hc : In c (Matcher64.scan Samples64.close_onsets
                       Samples64.window_s 0 Samples64.tie_queries))
    by (vm_compute; right; left; reflexivity).
  split; [exact Hc|].
  apply (hint_steps_back_at_most_one Samples64.close_onsets
           Samples64.tie_queries Samples64.window_s c Hc).
Defined.

(** C5, as stated, fails over binary64.  The onsets [2^-60] and [2^-59]
    are sorted and the query times [2^-59] and [0.03] increase.  The
    first call matches the onset at index 1 and returns the hint 1.  In
    the second call both distances to 0.03 round to the same binary64
    value, [min] keeps the first candidate, index 0, and the hint
    returned, 0, is below the hint passed in, 1. *)
Lemma hint_regresses_on_rounding_tie :
  Matcher64.increasing Samples64.close_onsets = true
  /\ Matcher64.increasing Samples64.tie_queries = true
  /\ map Matcher64.hint_in
       (Matcher64.scan Samples64.close_onsets Samples64.window_s 0
          Samples64.tie_queries) = [0; 1]%Z
  /\ map Matcher64.hint_out
       (Matcher64.scan Samples64.close_onsets Samples64.window_s 0
          Samples64.tie_queries) = [1; 0]%Z
  /\ ~ (forall c,
          In c (Matcher64.scan Samples64.close_onsets Samples64.window_s 0
                  Samples64.tie_queries) ->
          (Matcher64.hint_in c <= Matcher64.hint_out c)%Z).
Proof.
  split; [vm_compute; reflexivity|].
  split; [vm_compute; reflexivity|].
  split; [vm_compute; reflexivity|].
  split; [vm_compute; reflexivity|].
  intros H.
  specialize (H (Matcher64.mk_call 1
                   (nth 1 Samples64.tie_queries PrimFloat.zero)
                   (Some (nth 0 Samples64.close_onsets PrimFloat.zero)) 0)).
  simpl Matcher64.hint_in in H. simpl Matcher64.hint_out in H.
  assert (Hle : (1 <= 0)%Z).
  { apply H. vm_compute. right. left. reflexivity. }
  lia.
Qed.

(** ** The slope estimator: exact arithmetic and binary64 *)

Lemma slope64_needs_six (idx : list Z) (errs : list float) :
  (len idx < 6)%Z ->
  Estimator64.robust_slope_s_per_beat idx errs = PrimFloat.zero.
Proof.
  intros H. unfold Estimator64.robust_slope_s_per_beat.
  replace (len (map Estimator64.asfloat idx) <? 6)%Z with true;
    [reflexivity|].
  symmetry. apply Z.ltb_lt. unfold len in *. rewrite length_map. exact H.
Qed.

(** C6, as amended.  For fewer than 6 samples
    [robust_slope_s_per_beat] returns 0, over binary64 as in exact
    arithmetic.  For at least 6 samples whose beat indexes increase and
    whose errors lie exactly on a line [e(i) = a + b * i], its formula
    (medians subtracted, [dot(x0, y0) / dot(x0, x0)]) evaluated without
    rounding, in exact rational arithmetic, gives exactly [b], whatever
    the intercept [a].  (The binary64 value the code returns need not be
    [b]: the median of an even number of errors is rounded.) *)
Theorem slope_exact_without_rounding :
  (forall (idx : list Z) (errs : list float),
     (len idx < 6)%Z ->
     Estimator64.robust_slope_s_per_beat idx errs = PrimFloat.zero)
  /\ (forall (a b : Q) (idx : list Z) (errs : list Q),
        StronglySorted Z.lt idx ->
        Forall2 (Estimator.on_line a b) idx errs ->
        Estimator.robust_slope_s_per_beat idx errs
        == if (len idx <? 6)%Z then 0 else b).
Proof.
  split.
  - exact slope64_needs_six.
  - exact exact_slope_on_line.
Qed.

Lemma slope_exact_without_rounding_witness :
  Estimator64.robust_slope_s_per_beat [3; 4; 5; 7; 8]%Z
    (firstn 5 Samples64.line_errors) = PrimFloat.zero
  /\ Estimator.robust_slope_s_per_beat [3; 4; 5; 7; 8; 14]%Z
       [0.016; 0.018; 0.02; 0.024; 0.026; 0.038]
     == (if (len [3; 4; 5; 7; 8; 14]%Z <? 6)%Z then 0 else 0.002)
  /\ Estimator.robust_slope_s_per_beat [3; 4; 5; 7; 8]%Z
       [0.016; 0.018; 0.02; 0.024; 0.026]
     == (if (len [3; 4; 5; 7; 8]%Z <? 6)%Z then 0 else 0.002).
Proof.
  split; [|split].
  - apply (proj1 slope_exact_without_rounding). reflexivity.
  - apply (proj2 slope_exact_without_rounding 0.01 0.002).
    + repeat constructor.
    + repeat constructor; reflexivity.
  - apply (proj2 slope_exact_without_rounding 0.01 0.002).
    + repeat constructor.
    + repeat constructor; reflexivity.
Defined.

(** C6, as stated, fails over binary64.  Six beat indexes 0, 1, 2, 3, 4,
    10 and the errors [2^-5 + i * 2^-57], each of them a binary64 value,
    lie exactly on the line with slope [2^-57].  The sum of the two
    middle errors is not a binary64 value, so [np.median] rounds it; the
    centred errors are then off by half a unit in the last place, every
    later product and sum is exact, and the estimator returns
    [70 / 67.5 * 2^-57], more than 3 percent above the slope of the
    line. *)
Lemma slope_off_line_in_binary64 :
  StronglySorted Z.lt Samples64.gap_indices
  /\ (6 <= len Samples64.gap_indices)%Z
  /\ forallb
       (fun p => Estimator64.on_line Samples64.line_intercept
                   Samples64.line_slope (fst p) (snd p))
       (combine Samples64.gap_indices Samples64.line_errors) = true
  /\ PrimFloat.eqb
       (Estimator64.robust_slope_s_per_beat Samples64.gap_indices
          Samples64.line_errors)
       Samples64.line_slope = false
  /\ PrimFloat.ltb
       (PrimFloat.mul Samples64.line_slope (Estimator64.asfloat 103))
       (PrimFloat.mul
          (Estimator64.robust_slope_s_per_beat Samples64.gap_indices
             Samples64.line_errors)
          (Estimator64.asfloat 100)) = true.
Proof.
  split; [repeat constructor|].
  split; [vm_compute; discriminate|].
  split; [vm_compute; reflexivity|].
  split; vm_compute; reflexivity.
Qed.
